(** * Safepoint tables: builder, serialized layout and reader

    A shallow embedding of [deps/v8/src/codegen/safepoint-table.cc]:
    the table builder ([DefineSafepoint], [UpdateDeoptimizationInfo],
    [RemoveDuplicates], [TrimEntries], [Emit]) and the table reader
    ([SafepointTable] construction, [FindEntry], [find_return_pc],
    [Print]).

    Conventions.
    - A C++ [int] is a [Z]; conversions and arithmetic that can leave the
      32-bit range go through [to_int] (two's complement wrap-around).
    - A byte is a [Z] in [0, 256); the code stream is a [list Z].
    - [DCHECK]s are compiled out of release builds.  The functions below
      are the release-build behaviour; the [DCHECK]s that a theorem relies
      on are restated as boolean preconditions ([Emit_debug_checks],
      [slots_in_range], [entry_in_range]) and taken as hypotheses.
    - [CHECK] and [UNREACHABLE] are fatal in every build: functions that
      contain one return an [option], [None] being the fatal exit. *)

From Stdlib Require Import String ZArith Lia Bool Sorted.
From stdpp Require Import base list sorting.

Local Open Scope Z_scope.

(** ** Machine integers *)

Definition int_min : Z := - 2 ^ 31.
Definition int_max : Z := 2 ^ 31 - 1.

(** [static_cast<int>]: keep the low 32 bits, read them as two's complement. *)
Definition to_int (z : Z) : Z := (z + 2 ^ 31) mod 2 ^ 32 - 2 ^ 31.

(** [static_cast<uint32_t>] and [static_cast<uint8_t>]. *)
Definition to_uint32 (z : Z) : Z := z mod 2 ^ 32.
Definition to_uint8 (z : Z) : Z := z mod 2 ^ 8.

(** Constants of [globals.h] and of the class declarations; the source
    pins the ones it relies on with [STATIC_ASSERT]s. *)
Definition kBitsPerByte : Z := 8.
Definition kBitsPerByteLog2 : Z := 3.
Definition kIntSize : Z := 4.
Definition kNoDeoptIndex : Z := -1.
Definition kNoTrampolinePC : Z := -1.
Definition kLengthOffset : Z := 0 * kIntSize.
Definition kEntryConfigurationOffset : Z := 1 * kIntSize.
Definition kHeaderSize : Z := 2 * kIntSize.

(** ** The configuration word *)

(** Modelled from the spec: the [base::BitField] template is declared
    outside this file.  A field of the packed configuration word occupies
    [kSize] bits starting at bit [kShift]. *)
Record BitField : Type := MkBitField { kShift : Z; kSize : Z }.

(** Modelled from the spec: [BitField::is_valid], a value is valid when
    it fits the bits allotted to the field. *)
Definition is_valid (f : BitField) (value : Z) : bool :=
  (0 <=? value) && (value <? 2 ^ kSize f).

(** Modelled from the spec: [BitField::encode], the value moved to the
    field's position in a 32-bit word. *)
Definition encode (f : BitField) (value : Z) : Z :=
  to_uint32 (Z.shiftl value (kShift f)).

(** Modelled from the spec: [BitField::kMask], the bits of the field. *)
Definition kMask (f : BitField) : Z :=
  Z.shiftl (Z.ones (kSize f)) (kShift f).

(** Modelled from the spec: [BitField::decode], the field's bits of a
    word, moved back down. *)
Definition decode (f : BitField) (word : Z) : Z :=
  Z.shiftr (Z.land word (kMask f)) (kShift f).

(** Modelled from the spec: [BitField::Next], the field that starts
    where this one ends. *)
Definition Next (f : BitField) (size : Z) : BitField :=
  MkBitField (kShift f + kSize f) size.

(** The number of bits of the four size fields is fixed by the class
    declaration in [safepoint-table.h], which is not part of this file:
    it is a parameter of the development. *)
Record FieldBits : Type := MkFieldBits {
  register_indexes_size_bits : Z;
  pc_size_bits : Z;
  deopt_index_size_bits : Z;
  tagged_slots_bytes_bits : Z
}.

(** The fields are positive and the word has 32 bits. *)
Definition FieldBits_ok (fb : FieldBits) : Prop :=
  0 < register_indexes_size_bits fb /\ 0 < pc_size_bits fb /\
  0 < deopt_index_size_bits fb /\ 0 < tagged_slots_bytes_bits fb /\
  1 + register_indexes_size_bits fb + pc_size_bits fb +
    deopt_index_size_bits fb + tagged_slots_bytes_bits fb <= 32.

(** Modelled from the spec: the five fields of the configuration word,
    in the order of section 6: the deopt flag on one bit, then the widths
    of the register mask, of the pc, of the deopt index and of a bitmap. *)
Definition HasDeoptDataField : BitField := MkBitField 0 1.
Definition RegisterIndexesSizeField (fb : FieldBits) : BitField :=
  Next HasDeoptDataField (register_indexes_size_bits fb).
Definition PcSizeField (fb : FieldBits) : BitField :=
  Next (RegisterIndexesSizeField fb) (pc_size_bits fb).
Definition DeoptIndexSizeField (fb : FieldBits) : BitField :=
  Next (PcSizeField fb) (deopt_index_size_bits fb).
Definition TaggedSlotsBytesField (fb : FieldBits) : BitField :=
  Next (DeoptIndexSizeField fb) (tagged_slots_bytes_bits fb).

(** Modelled from the spec: the layout of section 6, one bit, three
    fields of two bits and the rest of the word. *)
Definition spec_bits : FieldBits := MkFieldBits 2 2 2 25.

(** A second layout, three bits for each width and 22 for the bitmap
    size, in which a width of 4 fits. *)
Definition wide_bits : FieldBits := MkFieldBits 3 3 3 22.

(** ** The assembler *)

(** Modelled from the spec: [Assembler::db] appends one byte.  The code
    stream is the list of bytes appended so far. *)
Definition db (value : Z) : list Z := [to_uint8 value].

(** Modelled from the spec: [Assembler::dd] appends the four bytes of a
    32-bit value, least significant first. *)
Definition dd (value : Z) : list Z :=
  [to_uint8 value; to_uint8 (Z.shiftr value 8);
   to_uint8 (Z.shiftr value 16); to_uint8 (Z.shiftr value 24)].

(** ** Builder entries *)

(** The struct is declared in the header; these are the fields the
    source reads and writes.  The list is what [stack_indexes] points to. *)
Record EntryBuilder : Type := MkEntryBuilder {
  pc : Z;
  deopt_index : Z;
  trampoline : Z;
  stack_indexes : list Z;
  register_indexes : Z
}.

(** [EntryBuilder(zone, pc)]: no deopt data, no slots, no registers. *)
Definition EntryBuilder_new (pc_offset : Z) : EntryBuilder :=
  MkEntryBuilder pc_offset kNoDeoptIndex kNoTrampolinePC [] 0.

(** The builder's [entries_].  Every entry owns the index list that its
    constructor allocated; [RemoveDuplicates] copies entries only onto
    positions that it then keeps once, so no two entries of the final
    list share an index list and a list per entry models the pointers. *)
Abbreviation Entries := (list EntryBuilder).

(** [DefineSafepoint]: append a fresh entry at the assembler's pc offset.
    The handle it returns points into the new entry; here it is the
    entry's position. *)
Definition DefineSafepoint (entries_ : Entries) (pc_offset_for_safepoint : Z)
  : Entries * nat :=
  (entries_ ++ [EntryBuilder_new pc_offset_for_safepoint], length entries_).

(** Modelled from the spec: the handle's operation that marks a stack
    slot, declared in the header: the index is appended to the entry's
    index list. *)
Definition DefineTaggedStackSlot (entries_ : Entries) (handle : nat) (index : Z)
  : Entries :=
  alter (fun e => MkEntryBuilder (pc e) (deopt_index e) (trampoline e)
                    (stack_indexes e ++ [index]) (register_indexes e))
        handle entries_.

(** Modelled from the spec: the handle's operation that marks a
    register, declared in the header: the register's bit of the mask. *)
Definition DefineTaggedRegister (entries_ : Entries) (handle : nat) (reg_code : Z)
  : Entries :=
  alter (fun e => MkEntryBuilder (pc e) (deopt_index e) (trampoline e)
                    (stack_indexes e)
                    (Z.lor (register_indexes e) (Z.shiftl 1 reg_code)))
        handle entries_.

(** [UpdateDeoptimizationInfo]: from position [start], walk to the first
    entry with the given pc and attach the deopt data; the position is
    returned.  Walking off the end is undefined in the source (a [DCHECK]
    asks for a match); the model returns [None] there. *)
Fixpoint find_pc_from (l : Entries) (pc_ : Z) (index : nat) : option nat :=
  match l with
  | [] => None
  | e :: rest => if pc e =? pc_ then Some index
                 else find_pc_from rest pc_ (S index)
  end.

Definition UpdateDeoptimizationInfo (entries_ : Entries)
    (pc_ trampoline_ : Z) (start : nat) (deopt_index_ : Z)
  : option (Entries * nat) :=
  match find_pc_from (drop start entries_) pc_ start with
  | None => None
  | Some index =>
      Some (alter (fun e => MkEntryBuilder (pc e) deopt_index_ trampoline_
                              (stack_indexes e) (register_indexes e))
                  index entries_, index)
  end.

(** ** RemoveDuplicates *)

(** [std::equal] over two index lists of the same size: element by
    element, in list order. *)
Fixpoint std_equal (l1 l2 : list Z) : bool :=
  match l1, l2 with
  | [], _ => true
  | x :: r1, y :: r2 => (x =? y) && std_equal r1 r2
  | _ :: _, [] => false
  end.

Definition is_identical_except_for_pc (entry1 entry2 : EntryBuilder) : bool :=
  if negb (deopt_index entry1 =? deopt_index entry2) then false
  else if negb (Nat.eqb (length (stack_indexes entry1))
                        (length (stack_indexes entry2))) then false
  else if negb (std_equal (stack_indexes entry1) (stack_indexes entry2))
       then false
  else if negb (register_indexes entry1 =? register_indexes entry2) then false
  else true.

(** The inner [do ... while]: [it] has already been advanced once; keep
    advancing while it is not at the end and the entry under it is
    identical to the one at [remaining_it]. *)
Fixpoint skip_identical (fuel : nat) (entries_ : Entries)
    (kept : EntryBuilder) (it : nat) : nat :=
  match fuel with
  | O => it
  | S fuel' =>
      match entries_ !! it with
      | None => it
      | Some e =>
          if is_identical_except_for_pc e kept
          then skip_identical fuel' entries_ kept (S it)
          else it
      end
  end.

(** The outer [for]: copy the entry under [it] down to [remaining_it]
    when the two positions differ, skip the run that follows it, advance
    [remaining_it].  The state is the vector and the two positions. *)
Fixpoint remove_loop (fuel : nat) (entries_ : Entries) (it remaining : nat)
  : Entries * nat :=
  match fuel with
  | O => (entries_, remaining)
  | S fuel' =>
      match entries_ !! it with
      | None => (entries_, remaining)
      | Some e =>
          let entries1 :=
            if Nat.eqb remaining it then entries_
            else <[remaining := e]> entries_ in
          let it1 := skip_identical (length entries1) entries1 e (S it) in
          remove_loop fuel' entries1 it1 (S remaining)
      end
  end.

(** [entries_.Rewind(remaining)] keeps the first [remaining] entries. *)
Definition RemoveDuplicates (entries_ : Entries) : Entries :=
  if (length entries_ <? 2)%nat then entries_
  else
    let '(entries1, remaining) :=
      remove_loop (length entries_) entries_ 0 0 in
    take remaining entries1.

(** ** TrimEntries *)

(** The scan for the smallest index: [None] is the early [return] at an
    index 0, [Some m] the value of [min_index] after the loop. *)
Fixpoint scan_indexes (indexes : list Z) (min_index : Z) : option Z :=
  match indexes with
  | [] => Some min_index
  | idx :: rest =>
      if idx >=? min_index then scan_indexes rest min_index
      else if idx =? 0 then None
      else scan_indexes rest idx
  end.

Fixpoint scan_entries (entries_ : Entries) (min_index : Z) : option Z :=
  match entries_ with
  | [] => Some min_index
  | entry :: rest =>
      match scan_indexes (stack_indexes entry) min_index with
      | None => None
      | Some m => scan_entries rest m
      end
  end.

Definition shift_entry (min_index : Z) (e : EntryBuilder) : EntryBuilder :=
  MkEntryBuilder (pc e) (deopt_index e) (trampoline e)
    (map (fun idx => to_int (idx - min_index)) (stack_indexes e))
    (register_indexes e).

(** [TrimEntries(&tagged_slots_size)] returns the entries and the size
    as it leaves them. *)
Definition TrimEntries (entries_ : Entries) (tagged_slots_size : Z)
  : Entries * Z :=
  let min_index := tagged_slots_size in
  if min_index =? 0 then (entries_, tagged_slots_size)
  else
    match scan_entries entries_ min_index with
    | None => (entries_, tagged_slots_size)
    | Some min_index =>
        (map (shift_entry min_index) entries_,
         to_int (tagged_slots_size - min_index))
    end.

(** ** Emit *)

(** Lines 167-176: the values that decide the field sizes. *)
Record FieldMaxima : Type := MkFieldMaxima {
  used_register_indexes : Z;
  max_pc : Z;
  max_deopt_index : Z
}.

Definition field_maxima_step (acc : FieldMaxima) (entry : EntryBuilder)
  : FieldMaxima :=
  MkFieldMaxima
    (to_int (Z.lor (used_register_indexes acc) (register_indexes entry)))
    (Z.max (max_pc acc) (Z.max (pc entry) (trampoline entry)))
    (Z.max (max_deopt_index acc) (deopt_index entry)).

Definition field_maxima (entries_ : Entries) : FieldMaxima :=
  fold_left field_maxima_step entries_ (MkFieldMaxima 0 (-1) (-1)).

Definition value_to_bytes (value : Z) : Z :=
  if value =? 0 then 0
  else if value <=? 0xff then 1
  else if value <=? 0xffff then 2
  else if value <=? 0xffffff then 3
  else 4.

(** The derived sizes, lines 187-193. *)
Record FieldSizes : Type := MkFieldSizes {
  has_deopt_data : bool;
  register_indexes_size : Z;
  pc_size : Z;
  deopt_index_size : Z;
  tagged_slots_bytes : Z
}.

Definition field_sizes (entries_ : Entries) (tagged_slots_size : Z)
  : FieldSizes :=
  let m := field_maxima entries_ in
  MkFieldSizes
    (negb (max_deopt_index m =? -1))
    (value_to_bytes (used_register_indexes m))
    (value_to_bytes (to_int (max_pc m + 1)))
    (value_to_bytes (to_int (max_deopt_index m + 1)))
    (Z.quot (to_int (tagged_slots_size + kBitsPerByte - 1)) kBitsPerByte).

(** The [CHECK] of lines 197-201. *)
Definition sizes_fit (fb : FieldBits) (s : FieldSizes) : bool :=
  is_valid (RegisterIndexesSizeField fb) (register_indexes_size s) &&
  is_valid (PcSizeField fb) (pc_size s) &&
  is_valid (DeoptIndexSizeField fb) (deopt_index_size s) &&
  is_valid (TaggedSlotsBytesField fb) (tagged_slots_bytes s).

Definition entry_configuration (fb : FieldBits) (s : FieldSizes) : Z :=
  Z.lor (Z.lor (Z.lor (Z.lor
    (encode HasDeoptDataField (if has_deopt_data s then 1 else 0))
    (encode (RegisterIndexesSizeField fb) (register_indexes_size s)))
    (encode (PcSizeField fb) (pc_size s)))
    (encode (DeoptIndexSizeField fb) (deopt_index_size s)))
    (encode (TaggedSlotsBytesField fb) (tagged_slots_bytes s)).

(** The lambda [emit_bytes]: [bytes] bytes of [value], low byte first. *)
Fixpoint emit_bytes_loop (bytes : nat) (value : Z) : list Z :=
  match bytes with
  | O => []
  | S bytes' => db value ++ emit_bytes_loop bytes' (Z.shiftr value 8)
  end.

Definition emit_bytes (value bytes : Z) : list Z :=
  emit_bytes_loop (Z.to_nat bytes) value.

(** One entry record, lines 225-231. *)
Definition emit_entry (s : FieldSizes) (entry : EntryBuilder) : list Z :=
  emit_bytes (pc entry) (pc_size s) ++
  (if has_deopt_data s
   then emit_bytes (to_int (deopt_index entry + 1)) (deopt_index_size s) ++
        emit_bytes (to_int (trampoline entry + 1)) (pc_size s)
   else []) ++
  emit_bytes (to_int (register_indexes entry)) (register_indexes_size s).

(** [bits[byte_index] |= mask] on a vector of [uint8_t].  The source
    guards the index with a [DCHECK]; outside the vector the C++ is
    undefined and the model leaves the vector as it is. *)
Definition or_byte (bits : list Z) (byte_index : Z) (mask : Z) : list Z :=
  if byte_index <? 0 then bits
  else alter (fun b => to_uint8 (Z.lor b mask)) (Z.to_nat byte_index) bits.

(** Lines 240-246: run through the indexes and build the bitmap. *)
Definition set_slot_bit (tagged_slots_size : Z) (bits : list Z) (idx : Z)
  : list Z :=
  let index := to_int (tagged_slots_size - 1 - idx) in
  let byte_index := Z.shiftr index kBitsPerByteLog2 in
  let bit_index := Z.land index (kBitsPerByte - 1) in
  or_byte bits byte_index (Z.shiftl 1 bit_index).

Definition build_bitmap (s : FieldSizes) (tagged_slots_size : Z)
    (entry : EntryBuilder) : list Z :=
  fold_left (set_slot_bit tagged_slots_size) (stack_indexes entry)
            (replicate (Z.to_nat (tagged_slots_bytes s)) 0).

(** Line 249: emit the bitmap for the current entry, byte by byte. *)
Definition emit_bitmap (s : FieldSizes) (tagged_slots_size : Z)
    (entry : EntryBuilder) : list Z :=
  concat (map db (build_bitmap s tagged_slots_size entry)).

(** Lines 166-250: everything after the two compression passes.  The
    result is the bytes appended from [offset_] on, that is, the table;
    the alignment padding before it belongs to the assembler. *)
Definition EmitTable (fb : FieldBits) (entries_ : Entries)
    (tagged_slots_size : Z) : option (list Z) :=
  let s := field_sizes entries_ tagged_slots_size in
  if negb (sizes_fit fb s) then None
  else
    let length := to_int (Z.of_nat (length entries_)) in
    Some (dd length ++ dd (entry_configuration fb s) ++
          concat (map (emit_entry s) entries_) ++
          concat (map (emit_bitmap s tagged_slots_size) entries_)).

Definition Emit (fb : FieldBits) (entries_ : Entries) (tagged_slots_size : Z)
  : option (list Z) :=
  let entries1 := RemoveDuplicates entries_ in
  let '(entries2, tagged_slots_size2) := TrimEntries entries1 tagged_slots_size in
  EmitTable fb entries2 tagged_slots_size2.

(** ** The checks of the DEBUG block of Emit *)

(** Lines 135-150, as a boolean: [back_pc] is [entries_.back().pc]. *)
Fixpoint debug_loop (back_pc : Z) (entries_ : Entries)
    (last_pc last_trampoline : Z) : bool :=
  match entries_ with
  | [] => true
  | entry :: rest =>
      (last_pc <? pc entry) &&
      (if negb (trampoline entry =? kNoTrampolinePC)
       then (last_trampoline <? trampoline entry) &&
            (back_pc <? trampoline entry)
       else true) &&
      Bool.eqb (trampoline entry =? kNoTrampolinePC)
               (deopt_index entry =? kNoDeoptIndex) &&
      debug_loop back_pc rest (pc entry)
        (if negb (trampoline entry =? kNoTrampolinePC)
         then trampoline entry else last_trampoline)
  end.

Definition Emit_debug_checks (entries_ : Entries) : bool :=
  debug_loop (from_option pc 0 (last entries_)) entries_ (-1) (-1).

(** The [DCHECK]s on single values: a slot index is an index into the
    tagged region (lines 241 and 298), and what [value_to_bytes] and
    [emit_bytes] receive is a non-negative [int] (lines 180 and 219), so
    that adding 1 to a pc, a trampoline or a deopt index does not leave
    the range of [int]. *)
Definition slots_in_range (tagged_slots_size : Z) (entries_ : Entries) : bool :=
  forallb (fun e => forallb (fun idx => (0 <=? idx) && (idx <? tagged_slots_size))
                            (stack_indexes e)) entries_.

Definition entry_in_range (e : EntryBuilder) : bool :=
  (0 <=? pc e) && (pc e <? int_max) &&
  (-1 <=? trampoline e) && (trampoline e <? int_max) &&
  (-1 <=? deopt_index e) && (deopt_index e <? int_max) &&
  (0 <=? register_indexes e) && (register_indexes e <=? int_max).

Definition Emit_preconditions (entries_ : Entries) (tagged_slots_size : Z)
  : bool :=
  Emit_debug_checks entries_ &&
  forallb entry_in_range entries_ &&
  (0 <=? tagged_slots_size) && (tagged_slots_size <=? int_max) &&
  slots_in_range tagged_slots_size entries_.

(** ** The reader *)

(** The class is declared in the header; the fields are named after the
    accessors the source calls ([pc()], [trampoline_pc()], ...). *)
Record SafepointEntry : Type := MkSafepointEntry {
  pc_ : Z;
  deopt_index_ : Z;
  tagged_register_indexes_ : Z;
  tagged_slots_ : list Z;
  trampoline_pc_ : Z
}.

(** The value of a byte string read least significant byte first. *)
Fixpoint le_value (bytes : list Z) : Z :=
  match bytes with
  | [] => 0
  | b :: rest => b + 256 * le_value rest
  end.

(** Modelled from the spec: [base::Memory<uint32_t>] reads four bytes
    of memory; the memory is the byte list that starts at the table's
    address, and offsets count from it. *)
Definition Memory_uint32 (mem : list Z) (offset : Z) : Z :=
  le_value (take 4 (drop (Z.to_nat offset) mem)).

(** Modelled from the spec: [base::Memory<int>], the same four bytes
    read as a signed value. *)
Definition Memory_int (mem : list Z) (offset : Z) : Z :=
  to_int (Memory_uint32 mem offset).

Record SafepointTable : Type := MkSafepointTable {
  instruction_start_ : Z;
  safepoint_table_memory_ : list Z;
  length_ : Z;
  entry_configuration_ : Z
}.

(** The constructor of lines 34-40. *)
Definition SafepointTable_new (instruction_start : Z) (mem : list Z)
  : SafepointTable :=
  MkSafepointTable instruction_start mem
    (Memory_int mem kLengthOffset)
    (Memory_uint32 mem kEntryConfigurationOffset).

Section Reader.
Variable fb : FieldBits.
Variable t : SafepointTable.

(** Modelled from the spec: [has_deopt_data()], the flag of the
    configuration word. *)
Definition table_has_deopt_data : bool :=
  negb (decode HasDeoptDataField (entry_configuration_ t) =? 0).

(** Modelled from the spec: [register_indexes_size()]. *)
Definition table_register_indexes_size : Z :=
  decode (RegisterIndexesSizeField fb) (entry_configuration_ t).

(** Modelled from the spec: [pc_size()]. *)
Definition table_pc_size : Z :=
  decode (PcSizeField fb) (entry_configuration_ t).

(** Modelled from the spec: [deopt_index_size()]. *)
Definition table_deopt_index_size : Z :=
  decode (DeoptIndexSizeField fb) (entry_configuration_ t).

(** Modelled from the spec: [tagged_slots_bytes()]. *)
Definition table_tagged_slots_bytes : Z :=
  decode (TaggedSlotsBytesField fb) (entry_configuration_ t).

(** Modelled from the spec: [entry_size()], the size of one record. *)
Definition entry_size : Z :=
  let deopt_data_size :=
    if table_has_deopt_data
    then table_pc_size + table_deopt_index_size else 0 in
  table_pc_size + deopt_data_size + table_register_indexes_size.

(** Modelled from the spec: [byte_size()], header, records and bitmaps. *)
Definition byte_size : Z :=
  kHeaderSize + length_ t * (entry_size + table_tagged_slots_bytes).

(** Modelled from the spec: [read_bytes], a field of [bytes] bytes at
    offset [ptr], least significant byte first. *)
Definition read_bytes (ptr bytes : Z) : Z :=
  to_int (le_value (take (Z.to_nat bytes)
                         (drop (Z.to_nat ptr) (safepoint_table_memory_ t)))).

(** Modelled from the spec: [GetEntry], declared in the header: the
    record is decoded field by field with the widths of the
    configuration word, the deopt index and the trampoline are stored
    plus one, and the bitmaps follow the records. *)
Definition GetEntry (index : Z) : SafepointEntry :=
  let entry_ptr := kHeaderSize + index * entry_size in
  let pc := read_bytes entry_ptr table_pc_size in
  let entry_ptr := entry_ptr + table_pc_size in
  let deopt_index :=
    if table_has_deopt_data
    then read_bytes entry_ptr table_deopt_index_size - 1
    else kNoDeoptIndex in
  let trampoline_pc :=
    if table_has_deopt_data
    then read_bytes (entry_ptr + table_deopt_index_size) table_pc_size - 1
    else kNoTrampolinePC in
  let entry_ptr :=
    if table_has_deopt_data
    then entry_ptr + table_deopt_index_size + table_pc_size
    else entry_ptr in
  let tagged_register_indexes :=
    read_bytes entry_ptr table_register_indexes_size in
  let tagged_slots_start := kHeaderSize + length_ t * entry_size in
  let tagged_slots :=
    take (Z.to_nat table_tagged_slots_bytes)
         (drop (Z.to_nat (tagged_slots_start + index * table_tagged_slots_bytes))
               (safepoint_table_memory_ t)) in
  MkSafepointEntry pc deopt_index tagged_register_indexes tagged_slots
                   trampoline_pc.
End Reader.

(** Bit [index mod 8] of byte [index / 8] of a bitmap. *)
Definition bitmap_bit (bitmap : list Z) (index : Z) : bool :=
  (0 <=? index) &&
  Z.testbit (default 0 (bitmap !! Z.to_nat (index / 8))) (index mod 8).

(** Modelled from the spec: which slot indexes a bitmap marks.  Slot
    [s] of a region of [tagged_slots_size] slots is bit
    [(tagged_slots_size - 1 - s) mod 8] of byte
    [(tagged_slots_size - 1 - s) / 8]. *)
Definition slot_is_tagged (tagged_slots_size : Z) (bitmap : list Z) (s : Z)
  : bool :=
  (0 <=? s) && bitmap_bit bitmap (tagged_slots_size - 1 - s).

(** [FindEntry] and [find_return_pc], over any table: the entry count,
    the deopt flag and [GetEntry] are what the two functions use of it. *)
Section Lookup.
Variable instruction_start : Z.
Variable length : Z.
Variable has_deopt : bool.
Variable get_entry : Z -> SafepointEntry.

(** Lines 58-62: [n] iterations are left, [i] is the loop index. *)
Fixpoint trampoline_scan (pc_offset : Z) (n : nat) (i candidate : Z) : Z :=
  match n with
  | O => candidate
  | S n' =>
      let trampoline_pc := trampoline_pc_ (get_entry i) in
      let candidate :=
        if negb (trampoline_pc =? -1) && (trampoline_pc <=? pc_offset)
        then i else candidate in
      if trampoline_pc >? pc_offset then candidate
      else trampoline_scan pc_offset n' (i + 1) candidate
  end.

(** Lines 66-73; [None] is [UNREACHABLE]. *)
Fixpoint pc_scan (pc_offset : Z) (n : nat) (i : Z) : option SafepointEntry :=
  match n with
  | O => None
  | S n' =>
      let entry := get_entry i in
      if (i =? length - 1) || (pc_ (get_entry (i + 1)) >? pc_offset)
      then Some entry
      else pc_scan pc_offset n' (i + 1)
  end.

(** The body of [FindEntry] once [pc_offset] is known. *)
Definition find_entry_at (pc_offset : Z) : option SafepointEntry :=
  if has_deopt then
    let candidate := trampoline_scan pc_offset (Z.to_nat length) 0 (-1) in
    if negb (candidate =? -1) then Some (get_entry candidate)
    else pc_scan pc_offset (Z.to_nat length) 0
  else pc_scan pc_offset (Z.to_nat length) 0.

Definition FindEntry_generic (pc : Z) : option SafepointEntry :=
  let pc_offset := to_int (pc - instruction_start) in
  find_entry_at pc_offset.

(** Lines 42-50. *)
Fixpoint return_pc_scan (pc_offset : Z) (n : nat) (i : Z) : option Z :=
  match n with
  | O => None
  | S n' =>
      let entry := get_entry i in
      if (trampoline_pc_ entry =? pc_offset) || (pc_ entry =? pc_offset)
      then Some (pc_ entry)
      else return_pc_scan pc_offset n' (i + 1)
  end.

Definition find_return_pc_generic (pc_offset : Z) : option Z :=
  return_pc_scan pc_offset (Z.to_nat length) 0.
End Lookup.

(** The two lookups on a table read from memory. *)
Definition FindEntry (fb : FieldBits) (t : SafepointTable) (pc : Z)
  : option SafepointEntry :=
  FindEntry_generic (instruction_start_ t) (length_ t)
    (table_has_deopt_data t) (GetEntry fb t) pc.

Definition find_return_pc (fb : FieldBits) (t : SafepointTable) (pc_offset : Z)
  : option Z :=
  find_return_pc_generic (length_ t) (GetEntry fb t) pc_offset.

(** A table given by the list of its decoded entries. *)
Definition entry_of_list (entries : list SafepointEntry) (index : Z)
  : SafepointEntry :=
  default (MkSafepointEntry 0 kNoDeoptIndex 0 [] kNoTrampolinePC)
          (entries !! Z.to_nat index).

(** A builder fed a list of safepoints, each with the slots and the
    registers marked through its handle, in the order given. *)
Definition builder_of (pcs : list (Z * list Z * list Z)) : Entries :=
  fold_left (fun entries_ '(pc_offset, slots, regs) =>
               let '(entries1, handle) := DefineSafepoint entries_ pc_offset in
               let entries2 :=
                 fold_left (fun es s => DefineTaggedStackSlot es handle s)
                           slots entries1 in
               fold_left (fun es r => DefineTaggedRegister es handle r)
                         regs entries2)
            pcs [].


(** The table invariant: entries are strictly increasing by pc. *)
Definition pcs_increasing (length : Z) (get_entry : Z -> SafepointEntry)
  : Prop :=
  forall a b, 0 <= a -> a < b -> b < length ->
              pc_ (get_entry a) < pc_ (get_entry b).

(** ** The spec's reading of RemoveDuplicates *)

(** In the spec's words: a maximal run of consecutive entries that are
    mergeable with the entry that opens the run collapses to that first
    member.  [collapse_runs_from head rest] drops the entries of [rest]
    that continue the run of [head] and opens a new run at the first
    entry that differs from [head]. *)
Fixpoint collapse_runs_from (head : EntryBuilder) (rest : Entries) : Entries :=
  match rest with
  | [] => []
  | e :: rest' =>
      if is_identical_except_for_pc e head
      then collapse_runs_from head rest'
      else e :: collapse_runs_from e rest'
  end.

Definition collapse_runs (entries_ : Entries) : Entries :=
  match entries_ with
  | [] => []
  | e :: rest => e :: collapse_runs_from e rest
  end.

(** ** The spec's vocabulary for the passes of Emit *)

(** Every slot index referenced by some entry, in entry order. *)
Definition all_stack_indexes (entries_ : Entries) : list Z :=
  concat (map stack_indexes entries_).

(** [m] is the minimum referenced slot index. *)
Definition is_min_index (entries_ : Entries) (m : Z) : Prop :=
  m ∈ all_stack_indexes entries_ /\
  Forall (fun idx => m <= idx) (all_stack_indexes entries_).

(** The largest element of a list, [d] for the empty list. *)
Definition max_list_from (d : Z) (l : list Z) : Z := fold_right Z.max d l.

(** [n] is the minimal byte width that represents [value]: the value
    fits [n] bytes and no fewer. *)
Definition minimal_byte_width (value n : Z) : Prop :=
  0 <= n /\ value < 256 ^ n /\ forall k, 0 <= k < n -> 256 ^ k <= value.

(** A width fits a field of [bits] bits. *)
Definition fits_bits (bits width : Z) : Prop := 0 <= width < 2 ^ bits.

(** A table with a deopt-bearing first entry and an ordinary last one. *)
Definition deopt_first_table : list SafepointEntry :=
  [MkSafepointEntry 10 0 0 [] 1000;
   MkSafepointEntry 20 kNoDeoptIndex 0 [] kNoTrampolinePC].

(** An ordinary entry at pc 10, a later entry that carries deopt data
    with trampoline 1000, and an ordinary entry after it. *)
Definition trampoline_table : list SafepointEntry :=
  [MkSafepointEntry 10 kNoDeoptIndex 0 [] kNoTrampolinePC;
   MkSafepointEntry 20 7 0 [] 1000;
   MkSafepointEntry 30 kNoDeoptIndex 0 [] kNoTrampolinePC].

(** What the reader is expected to decode from the record and the
    bitmap written for a builder entry. *)
Definition entry_view (s : FieldSizes) (tagged_slots_size : Z)
    (e : EntryBuilder) : SafepointEntry :=
  MkSafepointEntry (pc e) (deopt_index e) (register_indexes e)
    (emit_bitmap s tagged_slots_size e) (trampoline e).

(** The size of a record written with the sizes [s]. *)
Definition record_size (s : FieldSizes) : Z :=
  pc_size s +
  (if has_deopt_data s then pc_size s + deopt_index_size s else 0) +
  register_indexes_size s.

(** The order of the builder's entries. *)
Definition pc_lt (a b : EntryBuilder) : Prop := pc a < pc b.

(** The entries and the size that [Emit] serializes, after the two
    compression passes, and how much the trimming pass took off. *)
Definition emitted_entries (entries_ : Entries) (tagged_slots_size : Z)
  : Entries :=
  (TrimEntries (RemoveDuplicates entries_) tagged_slots_size).1.

Definition emitted_slots_size (entries_ : Entries) (tagged_slots_size : Z) : Z :=
  (TrimEntries (RemoveDuplicates entries_) tagged_slots_size).2.

Definition trim_amount (entries_ : Entries) (tagged_slots_size : Z) : Z :=
  tagged_slots_size - emitted_slots_size entries_ tagged_slots_size.

(** A builder whose first two entries are identical but for the pc and
    in which slot 0 is never tagged. *)
Definition round_trip_builder : Entries :=
  builder_of [(0, [1; 3], [0]); (4, [1; 3], [0]); (8, [2], [1])].

(** Three entries at pcs 0, 4 and 8 that carry the same deopt data,
    slot indexes and register mask. *)
Definition identical_run (deopt_index_ trampoline_ : Z) (slots : list Z)
    (registers : Z) : Entries :=
  [MkEntryBuilder 0 deopt_index_ trampoline_ slots registers;
   MkEntryBuilder 4 deopt_index_ trampoline_ slots registers;
   MkEntryBuilder 8 deopt_index_ trampoline_ slots registers].

(** The builder of the end-to-end scenario: safepoints at pcs 0, 5 and
    9; slots 0 and 2 at the first two, register 1 at the second. *)
Definition scenario_builder : Entries :=
  builder_of [(0, [0; 2], []); (5, [0; 2], [1]); (9, [], [])].

(** Safepoints at pcs 10, 20 and 30; in the second pass the one at pc
    20 gets trampoline 1000 and deopt index 7. *)
Definition deopt_scenario_builder : option Entries :=
  let '(entries1, _) := DefineSafepoint [] 10 in
  let '(entries2, _) := DefineSafepoint entries1 20 in
  let '(entries3, _) := DefineSafepoint entries2 30 in
  fst <$> UpdateDeoptimizationInfo entries3 20 1000 0 7.

(** ** Print *)

(** What [Print] uses of [std::ostream]: the items inserted so far and
    the base flag, which [std::hex] and [std::dec] set and which stays
    until it is set again.  A number is recorded with the base and the
    field width in force when it is inserted; [std::setw] holds for the
    next insertion only (0: no width).  A pointer is recorded by its
    address, its rendering being the platform's. *)
Inductive Item : Type :=
| Text (s : string)
| Number (hex : bool) (width : Z) (value : Z)
| Pointer (address : Z).

Record ostream : Type := MkOstream { written : list Item; hex_base : bool }.

Definition put_text (os : ostream) (s : string) : ostream :=
  MkOstream (written os ++ [Text s]) (hex_base os).

Definition put_number (os : ostream) (width value : Z) : ostream :=
  MkOstream (written os ++ [Number (hex_base os) width value]) (hex_base os).

Definition put_pointer (os : ostream) (address : Z) : ostream :=
  MkOstream (written os ++ [Pointer address]) (hex_base os).

Definition set_hex (os : ostream) (hex : bool) : ostream :=
  MkOstream (written os) hex.

Definition newline : string := String (Ascii.ascii_of_nat 10) EmptyString.

(** Modelled from the spec: [has_deoptimization_index()], declared in
    the header: the entry carries a deopt index. *)
Definition has_deoptimization_index (entry : SafepointEntry) : bool :=
  negb (deopt_index_ entry =? kNoDeoptIndex).

(** Modelled from the spec: [base::bits::CountLeadingZeros32], the
    number of zero bits above the highest set bit of a 32-bit value. *)
Definition CountLeadingZeros32 (value : Z) : Z :=
  if value =? 0 then 32 else 31 - Z.log2 value.

(** Lines 88-90: the bits of one bitmap byte, bit 0 first. *)
Fixpoint print_byte_bits (n : nat) (bit : Z) (bits : Z) (os : ostream)
  : ostream :=
  match n with
  | O => os
  | S n' =>
      print_byte_bits n' (bit + 1) bits
        (put_number os 0 (Z.land (Z.shiftr bits bit) 1))
  end.

(** Lines 87-91. *)
Definition print_slots (tagged_slots : list Z) (os : ostream) : ostream :=
  fold_left (fun os bits => print_byte_bits (Z.to_nat kBitsPerByte) 0 bits os)
            tagged_slots os.

(** Lines 98-100: [n] iterations are left, the next [j] is [n - 1]. *)
Fixpoint print_register_bits (n : nat) (register_bits : Z) (os : ostream)
  : ostream :=
  match n with
  | O => os
  | S j =>
      print_register_bits j register_bits
        (put_number os 0 (Z.land (Z.shiftr register_bits (Z.of_nat j)) 1))
  end.

(** Lines 81-108, the body of the loop over the entries. *)
Definition print_entry (instruction_start : Z) (entry : SafepointEntry)
    (os : ostream) : ostream :=
  let os := put_pointer os (instruction_start + pc_ entry) in
  let os := put_text os " " in
  let os := put_number (set_hex os true) 6 (pc_ entry) in
  let os := set_hex os false in
  let os :=
    match tagged_slots_ entry with
    | [] => os
    | _ :: _ => print_slots (tagged_slots_ entry)
                            (put_text os "  slots (sp->fp): ")
    end in
  let os :=
    if negb (tagged_register_indexes_ entry =? 0) then
      let os := put_text os "  registers: " in
      let register_bits := to_uint32 (tagged_register_indexes_ entry) in
      let bits := 32 - CountLeadingZeros32 register_bits in
      print_register_bits (Z.to_nat bits) register_bits os
    else os in
  let os :=
    if has_deoptimization_index entry then
      let os := put_text os "  deopt " in
      let os := put_number os 6 (deopt_index_ entry) in
      let os := put_text os " trampoline: " in
      put_number (set_hex os true) 6 (trampoline_pc_ entry)
    else os in
  put_text os newline.

(** Lines 80-109: [n] iterations are left. *)
Fixpoint print_entries (instruction_start : Z)
    (get_entry : Z -> SafepointEntry) (n : nat) (index : Z) (os : ostream)
  : ostream :=
  match n with
  | O => os
  | S n' =>
      print_entries instruction_start get_entry n' (index + 1)
        (print_entry instruction_start (get_entry index) os)
  end.

(** [Print], over any table: the entry count, the byte size and
    [GetEntry] are what it uses of it. *)
Definition Print_generic (instruction_start length byte_size : Z)
    (get_entry : Z -> SafepointEntry) (os : ostream) : ostream :=
  let os := put_text os "Safepoints (entries = " in
  let os := put_number os 0 length in
  let os := put_text os ", byte size = " in
  let os := put_number os 0 byte_size in
  let os := put_text os (String.append ")" newline) in
  print_entries instruction_start get_entry (Z.to_nat length) 0 os.

Definition Print (fb : FieldBits) (t : SafepointTable) (os : ostream)
  : ostream :=
  Print_generic (instruction_start_ t) (length_ t) (byte_size fb t)
                (GetEntry fb t) os.

(** The header line of [Print] on a stream whose base flag is [hex]. *)
Definition print_header (hex : bool) (length byte_size : Z) : list Item :=
  [Text "Safepoints (entries = "; Number hex 0 length;
   Text ", byte size = "; Number hex 0 byte_size; Text (String.append ")" newline)].

(** The number that a string of binary digits denotes, first digit
    most significant. *)
Definition binary_value (digits : list Z) : Z :=
  fold_left (fun acc d => 2 * acc + d) digits 0.

(** * Proofs *)

(** ** Machine integers *)

Lemma to_int_id z : int_min <= z <= int_max -> to_int z = z.
Proof.
  unfold to_int, int_min, int_max. intros H.
  rewrite Z.mod_small; lia.
Qed.

Lemma to_int_range z : int_min <= to_int z <= int_max.
Proof.
  unfold to_int, int_min, int_max.
  pose proof (Z.mod_pos_bound (z + 2 ^ 31) (2 ^ 32) ltac:(lia)). lia.
Qed.

Lemma to_uint8_range z : 0 <= to_uint8 z < 256.
Proof. unfold to_uint8. apply (Z.mod_pos_bound z (2 ^ 8)). lia. Qed.

(** ** RemoveDuplicates *)

Lemma std_equal_eq l1 l2 :
  length l1 = length l2 -> (std_equal l1 l2 = true <-> l1 = l2).
Proof.
  revert l2. induction l1 as [|x r1 IH]; intros [|y r2] Hlen; simpl in *;
    try discriminate.
  - tauto.
  - rewrite andb_true_iff, Z.eqb_eq, IH by congruence.
    split; [intros [-> ->]; reflexivity | intros [= -> ->]; tauto].
Qed.

Lemma is_identical_except_for_pc_spec e1 e2 :
  is_identical_except_for_pc e1 e2 = true <->
  deopt_index e1 = deopt_index e2 /\
  stack_indexes e1 = stack_indexes e2 /\
  register_indexes e1 = register_indexes e2.
Proof.
  unfold is_identical_except_for_pc.
  destruct (deopt_index e1 =? deopt_index e2) eqn:Hd; simpl.
  2: { apply Z.eqb_neq in Hd. split; [discriminate | tauto]. }
  apply Z.eqb_eq in Hd.
  destruct (Nat.eqb _ _) eqn:Hl; simpl.
  2: { apply Nat.eqb_neq in Hl. split; [discriminate |].
       intros (_ & Hs & _). rewrite Hs in Hl. tauto. }
  apply Nat.eqb_eq in Hl.
  destruct (std_equal _ _) eqn:Hs; simpl.
  2: { split; [discriminate |]. intros (_ & Hs' & _).
       apply (std_equal_eq _ _ Hl) in Hs'. congruence. }
  apply (std_equal_eq _ _ Hl) in Hs.
  destruct (register_indexes e1 =? register_indexes e2) eqn:Hr; simpl.
  - apply Z.eqb_eq in Hr. tauto.
  - apply Z.eqb_neq in Hr. split; [discriminate | tauto].
Qed.


Lemma skip_identical_spec fuel (entries_ : Entries) kept it :
  (length (drop it entries_) <= fuel)%nat ->
  (it <= length entries_)%nat ->
  let it' := skip_identical fuel entries_ kept it in
  (it <= it' <= length entries_)%nat /\
  collapse_runs_from kept (drop it entries_) = collapse_runs (drop it' entries_).
Proof.
  revert it. induction fuel as [|fuel IH]; intros it Hfuel Hit; simpl.
  - split; [lia |].
    destruct (drop it entries_); [reflexivity | simpl in Hfuel; lia].
  - destruct (entries_ !! it) as [e|] eqn:He.
    + pose proof (lookup_lt_Some _ _ _ He) as Hlt.
      rewrite (drop_S _ _ _ He) in Hfuel. simpl in Hfuel.
      destruct (is_identical_except_for_pc e kept) eqn:Hid.
      * destruct (IH (S it)) as [Hle Heq]; [lia | lia |].
        split; [lia |]. rewrite (drop_S _ _ _ He). simpl. rewrite Hid.
        exact Heq.
      * split; [lia |]. rewrite (drop_S _ _ _ He). simpl. rewrite Hid.
        reflexivity.
    + split; [lia |]. apply lookup_ge_None in He.
      rewrite drop_ge by lia. reflexivity.
Qed.

Lemma remove_loop_spec fuel (entries_ : Entries) it remaining :
  (remaining <= it)%nat ->
  (it <= length entries_)%nat ->
  (length (drop it entries_) <= fuel)%nat ->
  take (remove_loop fuel entries_ it remaining).2
       (remove_loop fuel entries_ it remaining).1 =
  take remaining entries_ ++ collapse_runs (drop it entries_).
Proof.
  revert entries_ it remaining.
  induction fuel as [|fuel IH]; intros entries_ it remaining Hri Hit Hfuel;
    simpl.
  - destruct (drop it entries_); [simpl | simpl in Hfuel; lia].
    rewrite app_nil_r. reflexivity.
  - destruct (entries_ !! it) as [e|] eqn:He.
    2: { apply lookup_ge_None in He. rewrite (drop_ge entries_ it) by lia.
         simpl. rewrite app_nil_r. reflexivity. }
    pose proof (lookup_lt_Some _ _ _ He) as Hlt.
    set (entries1 := if Nat.eqb remaining it then entries_
                     else <[remaining := e]> entries_).
    assert (Hlen : length entries1 = length entries_).
    { unfold entries1. destruct (Nat.eqb remaining it);
        [reflexivity | apply length_insert]. }
    assert (Htake : take (S remaining) entries1 = take remaining entries_ ++ [e]).
    { unfold entries1. destruct (Nat.eqb remaining it) eqn:Heq.
      - apply Nat.eqb_eq in Heq. subst it. apply take_S_r, He.
      - apply Nat.eqb_neq in Heq.
        rewrite (take_S_r _ _ e)
          by (apply list_lookup_insert_eq; lia).
        rewrite take_insert_ge by lia. reflexivity. }
    assert (Hdrop : drop (S it) entries1 = drop (S it) entries_).
    { unfold entries1. destruct (Nat.eqb remaining it); [reflexivity |].
      apply drop_insert_lt. lia. }
    rewrite (drop_S _ _ _ He) in Hfuel |- *. simpl in Hfuel.
    destruct (skip_identical_spec (length entries1) entries1 e (S it))
      as [Hle Hskip].
    { rewrite length_drop. lia. }
    { lia. }
    set (it1 := skip_identical (length entries1) entries1 e (S it)) in *.
    rewrite IH.
    + rewrite Htake, <- Hskip, Hdrop, <- app_assoc. reflexivity.
    + lia.
    + lia.
    + rewrite length_drop. rewrite length_drop in Hfuel. lia.
Qed.

(** The loop of the source computes the spec's run collapse. *)
Lemma RemoveDuplicates_collapse_runs (entries_ : Entries) :
  RemoveDuplicates entries_ = collapse_runs entries_.
Proof.
  unfold RemoveDuplicates.
  destruct (length entries_ <? 2)%nat eqn:Hlen.
  - apply Nat.ltb_lt in Hlen.
    destruct entries_ as [|e [|e' rest]]; simpl in *; try reflexivity; lia.
  - pose proof (remove_loop_spec (length entries_) entries_ 0 0) as H.
    destruct (remove_loop (length entries_) entries_ 0 0) as [entries1 remaining].
    simpl in H. rewrite H; [reflexivity | lia | lia |].
    rewrite drop_0. lia.
Qed.

(** ** FindEntry *)

Section LookupFacts.
Variable instruction_start : Z.
Variable length : Z.
Variable get_entry : Z -> SafepointEntry.

Local Abbreviation pc_at i := (pc_ (get_entry i)).
Local Abbreviation trampoline_at i := (trampoline_pc_ (get_entry i)).
Local Abbreviation pcs_increasing := (pcs_increasing length get_entry).

Lemma pcs_increasing_le a b :
  pcs_increasing -> 0 <= a -> a <= b -> b < length -> pc_at a <= pc_at b.
Proof.
  intros Hinc Ha Hab Hb. destruct (Z.eq_dec a b) as [->|Hne]; [lia |].
  specialize (Hinc a b). lia.
Qed.

(** The pc scan returns the entry that covers the offset. *)
Lemma pc_scan_covering pc_offset i :
  pcs_increasing ->
  0 <= i < length ->
  pc_at i <= pc_offset ->
  (i = length - 1 \/ pc_offset < pc_at (i + 1)) ->
  forall n j, 0 <= j <= i -> j + Z.of_nat n = length ->
  pc_scan length get_entry pc_offset n j = Some (get_entry i).
Proof.
  intros Hinc Hi Hpc Hnext n.
  induction n as [|n IH]; intros j Hj Hn; [lia |].
  cbn [pc_scan].
  destruct (j =? length - 1) eqn:Hlast; simpl.
  { apply Z.eqb_eq in Hlast. replace i with j by lia. reflexivity. }
  apply Z.eqb_neq in Hlast.
  destruct (pc_at (j + 1) >? pc_offset) eqn:Hgt.
  - apply Z.gtb_lt in Hgt.
    destruct (Z.eq_dec j i) as [->|Hne]; [reflexivity |].
    pose proof (pcs_increasing_le (j + 1) i Hinc). lia.
  - rewrite Z.gtb_ltb in Hgt. apply Z.ltb_ge in Hgt.
    apply IH; [| lia].
    destruct (Z.eq_dec j i) as [->|Hne]; lia.
Qed.

(** No trampoline dominates the offset: the candidate is left alone. *)
Lemma trampoline_scan_none pc_offset :
  (forall j, 0 <= j < length ->
             trampoline_at j = -1 \/ pc_offset < trampoline_at j) ->
  forall n i candidate, 0 <= i -> i + Z.of_nat n = length ->
  trampoline_scan get_entry pc_offset n i candidate = candidate.
Proof.
  intros Hnone n. induction n as [|n IH]; intros i candidate Hi Hn;
    [reflexivity |].
  cbn [trampoline_scan].
  destruct (Hnone i ltac:(lia)) as [Ht|Ht].
  - rewrite Ht. simpl.
    destruct (-1 >? pc_offset); [reflexivity | apply IH; lia].
  - replace (trampoline_at i <=? pc_offset) with false
      by (symmetry; apply Z.leb_gt; lia).
    rewrite andb_false_r.
    replace (trampoline_at i >? pc_offset) with true
      by (symmetry; apply Z.gtb_lt; lia).
    reflexivity.
Qed.

(** The scan stops at position [k] (the first trampoline above the
    offset, or the end of the table) and leaves the last position
    before [k] whose trampoline is defined. *)
Lemma trampoline_scan_last pc_offset c k :
  0 <= c < k -> k <= length ->
  (forall j, 0 <= j < k -> trampoline_at j <= pc_offset) ->
  (k = length \/ pc_offset < trampoline_at k) ->
  trampoline_at c <> -1 ->
  (forall j, c < j < k -> trampoline_at j = -1) ->
  forall n i candidate, 0 <= i <= k -> i + Z.of_nat n = length ->
  (i <= c \/ candidate = c) ->
  trampoline_scan get_entry pc_offset n i candidate = c.
Proof.
  intros Hc Hk Hbelow Hstop Hdef Hafter n.
  induction n as [|n IH]; intros i candidate Hi Hn Hcand.
  { simpl. lia. }
  cbn [trampoline_scan].
  destruct (Z.eq_dec i k) as [->|Hik].
  - destruct Hstop as [->|Hstop]; [lia |].
    replace (trampoline_at k <=? pc_offset) with false
      by (symmetry; apply Z.leb_gt; lia).
    rewrite andb_false_r.
    replace (trampoline_at k >? pc_offset) with true
      by (symmetry; apply Z.gtb_lt; lia).
    lia.
  - pose proof (Hbelow i ltac:(lia)) as Hle.
    replace (trampoline_at i >? pc_offset) with false
      by (symmetry; rewrite Z.gtb_ltb; apply Z.ltb_ge; lia).
    replace (trampoline_at i <=? pc_offset) with true
      by (symmetry; apply Z.leb_le; lia).
    rewrite andb_true_r.
    apply IH; [lia | lia |].
    destruct (Z.lt_trichotomy i c) as [Hlt|[->|Hgt]].
    + left; lia.
    + right. destruct (trampoline_at c =? -1) eqn:E; [|reflexivity].
      apply Z.eqb_eq in E. contradiction.
    + right. rewrite Hafter by lia. simpl. lia.
Qed.
End LookupFacts.

Lemma to_int_offset instruction_start o :
  int_min <= o <= int_max -> to_int (instruction_start + o - instruction_start) = o.
Proof. intros H. replace (instruction_start + o - instruction_start) with o by lia.
  apply to_int_id, H. Qed.

(** The pc scan answers for an offset that entry [i] covers and that no
    trampoline dominates. *)
Lemma find_entry_at_covering length has_deopt get_entry o i :
  pcs_increasing length get_entry ->
  0 <= i < length ->
  pc_ (get_entry i) <= o ->
  (i = length - 1 \/ o < pc_ (get_entry (i + 1))) ->
  (forall j, 0 <= j < length ->
     trampoline_pc_ (get_entry j) = -1 \/ o < trampoline_pc_ (get_entry j)) ->
  find_entry_at length has_deopt get_entry o = Some (get_entry i).
Proof.
  intros Hinc Hi Hpc Hnext Hnone. unfold find_entry_at.
  rewrite (trampoline_scan_none length get_entry o Hnone) by lia.
  rewrite (pc_scan_covering length get_entry o i Hinc Hi Hpc Hnext) by lia.
  destruct has_deopt; reflexivity.
Qed.

(** C2 (amended).  On a table whose entries are strictly increasing by
    pc and whose defined trampolines are all above the largest entry pc,
    [FindEntry] at an offset [o] with [pc i <= o] returns entry [i] when
    [o < pc (i+1)], and, when [i] is the last entry, when [o] is moreover
    below every defined trampoline; for such an offset the trampoline
    scan selects no candidate. *)
Theorem FindEntry_returns_covering_entry
    instruction_start length has_deopt get_entry o i :
  pcs_increasing length get_entry ->
  (forall j, 0 <= j < length ->
     trampoline_pc_ (get_entry j) = -1 \/
     pc_ (get_entry (length - 1)) < trampoline_pc_ (get_entry j)) ->
  0 <= i < length ->
  int_min <= o <= int_max ->
  pc_ (get_entry i) <= o ->
  (i = length - 1 /\
     (forall j, 0 <= j < length ->
        trampoline_pc_ (get_entry j) = -1 \/ o < trampoline_pc_ (get_entry j))) \/
  (i < length - 1 /\ o < pc_ (get_entry (i + 1))) ->
  FindEntry_generic instruction_start length has_deopt get_entry
    (instruction_start + o) = Some (get_entry i) /\
  trampoline_scan get_entry o (Z.to_nat length) 0 (-1) = -1.
Proof.
  intros Hinc Htramp Hi Ho Hpc Hcover.
  assert (Hnone : forall j, 0 <= j < length ->
            trampoline_pc_ (get_entry j) = -1 \/
            o < trampoline_pc_ (get_entry j)).
  { destruct Hcover as [[_ H]|[Hlt Hnext]]; [exact H |].
    intros j Hj. destruct (Htramp j Hj) as [H|H]; [left; exact H | right].
    pose proof (pcs_increasing_le length get_entry (i + 1) (length - 1) Hinc).
    lia. }
  split.
  - unfold FindEntry_generic. rewrite to_int_offset by exact Ho.
    apply find_entry_at_covering; try assumption.
    destruct Hcover as [[-> _]|[_ H]]; [left; reflexivity | right; exact H].
  - apply (trampoline_scan_none length get_entry o Hnone); lia.
Qed.

Lemma FindEntry_returns_covering_entry_witness :
  FindEntry_generic 0 2 true (entry_of_list deopt_first_table) (0 + 15)
    = Some (entry_of_list deopt_first_table 0) /\
  trampoline_scan (entry_of_list deopt_first_table) 15 (Z.to_nat 2) 0 (-1) = -1.
Proof.
  apply (FindEntry_returns_covering_entry 0 2 true
           (entry_of_list deopt_first_table) 15 0).
  - intros a b Ha Hab Hb.
    assert (a = 0 /\ b = 1) as [-> ->] by lia. vm_compute. reflexivity.
  - intros j Hj. assert (j = 0 \/ j = 1) as [-> | ->] by lia;
      vm_compute; [right | left]; reflexivity.
  - lia.
  - vm_compute. split; discriminate.
  - vm_compute. discriminate.
  - right. vm_compute. split; reflexivity.
Defined.

(** C2 as stated fails: when [i] is the last entry the offset may reach
    a trampoline, and the trampoline scan then answers.  Here entry 1
    (pc 20) is last and covers offset 1000, yet entry 0, whose trampoline
    is 1000, is returned. *)
Lemma FindEntry_last_entry_counterexample :
  ~ (forall instruction_start length has_deopt get_entry o i,
       pcs_increasing length get_entry ->
       (forall j, 0 <= j < length ->
          trampoline_pc_ (get_entry j) = -1 \/
          pc_ (get_entry (length - 1)) < trampoline_pc_ (get_entry j)) ->
       0 <= i < length ->
       int_min <= o <= int_max ->
       pc_ (get_entry i) <= o ->
       (i = length - 1 \/ o < pc_ (get_entry (i + 1))) ->
       FindEntry_generic instruction_start length has_deopt get_entry
         (instruction_start + o) = Some (get_entry i)).
Proof.
  intros H.
  specialize (H 0 2 true (entry_of_list deopt_first_table) 1000 1).
  assert (Hfind : FindEntry_generic 0 2 true (entry_of_list deopt_first_table)
                    (0 + 1000) = Some (entry_of_list deopt_first_table 0))
    by (vm_compute; reflexivity).
  rewrite Hfind in H.
  assert (Hne : Some (entry_of_list deopt_first_table 0)
                <> Some (entry_of_list deopt_first_table 1))
    by (vm_compute; discriminate).
  apply Hne, H.
  - intros a b Ha Hab Hb.
    assert (a = 0 /\ b = 1) as [-> ->] by lia. vm_compute. reflexivity.
  - intros j Hj. assert (j = 0 \/ j = 1) as [-> | ->] by lia;
      vm_compute; [right | left]; reflexivity.
  - lia.
  - vm_compute. split; discriminate.
  - vm_compute. discriminate.
  - left. reflexivity.
Qed.

(** C3.  With deopt data, [FindEntry] scans the trampolines up to the
    first position [k] whose trampoline exceeds the offset (or to the end
    of the table), and returns the last position [c] before [k] whose
    trampoline is defined, without running the pc scan.  In particular,
    with an ordinary entry at pc 10 and trampoline 1000 on a later entry,
    [FindEntry] at offset 1000 returns the deopt-bearing entry, where the
    pc scan alone would have returned the last entry. *)
Theorem FindEntry_trampoline_precedence :
  (forall instruction_start length get_entry o c k,
     int_min <= o <= int_max ->
     0 <= c < k -> k <= length ->
     (forall j, 0 <= j < k -> trampoline_pc_ (get_entry j) <= o) ->
     (k = length \/ o < trampoline_pc_ (get_entry k)) ->
     trampoline_pc_ (get_entry c) <> -1 ->
     (forall j, c < j < k -> trampoline_pc_ (get_entry j) = -1) ->
     trampoline_scan get_entry o (Z.to_nat length) 0 (-1) = c /\
     FindEntry_generic instruction_start length true get_entry
       (instruction_start + o) = Some (get_entry c)) /\
  (forall instruction_start,
     FindEntry_generic instruction_start 3 true (entry_of_list trampoline_table)
       (instruction_start + 1000) = Some (MkSafepointEntry 20 7 0 [] 1000) /\
     pc_scan 3 (entry_of_list trampoline_table) 1000 (Z.to_nat 3) 0
       = Some (MkSafepointEntry 30 kNoDeoptIndex 0 [] kNoTrampolinePC)).
Proof.
  split.
  - intros instruction_start length get_entry o c k Ho Hc Hk Hbelow Hstop
      Hdef Hafter.
    assert (Hscan : trampoline_scan get_entry o (Z.to_nat length) 0 (-1) = c).
    { apply (trampoline_scan_last length get_entry o c k); try assumption; lia. }
    split; [exact Hscan |].
    unfold FindEntry_generic, find_entry_at.
    rewrite to_int_offset by exact Ho. rewrite Hscan.
    destruct (c =? -1) eqn:E; [apply Z.eqb_eq in E; lia | reflexivity].
  - intros instruction_start. unfold FindEntry_generic.
    rewrite to_int_offset by (unfold int_min, int_max; lia).
    split; vm_compute; reflexivity.
Qed.

Lemma FindEntry_trampoline_precedence_witness :
  trampoline_scan (entry_of_list trampoline_table) 1000 (Z.to_nat 3) 0 (-1) = 1 /\
  FindEntry_generic 0 3 true (entry_of_list trampoline_table) (0 + 1000)
    = Some (entry_of_list trampoline_table 1).
Proof.
  apply (proj1 FindEntry_trampoline_precedence 0 3
           (entry_of_list trampoline_table) 1000 1 3).
  - vm_compute. split; discriminate.
  - lia.
  - lia.
  - intros j Hj. assert (j = 0 \/ j = 1 \/ j = 2) as [-> | [-> | ->]] by lia;
      vm_compute; discriminate.
  - left. reflexivity.
  - vm_compute. discriminate.
  - intros j Hj. assert (j = 2) as -> by lia. reflexivity.
Defined.

(** ** TrimEntries *)

Lemma scan_indexes_app l1 l2 m :
  scan_indexes (l1 ++ l2) m =
  match scan_indexes l1 m with
  | None => None
  | Some m' => scan_indexes l2 m'
  end.
Proof.
  revert m. induction l1 as [|idx l1 IH]; intros m; simpl; [reflexivity |].
  destruct (idx >=? m); [apply IH |].
  destruct (idx =? 0); [reflexivity | apply IH].
Qed.

Lemma scan_entries_flat entries_ m :
  scan_entries entries_ m = scan_indexes (all_stack_indexes entries_) m.
Proof.
  revert m. induction entries_ as [|e rest IH]; intros m; [reflexivity |].
  unfold all_stack_indexes. simpl. rewrite scan_indexes_app.
  destruct (scan_indexes (stack_indexes e) m); [apply IH | reflexivity].
Qed.

Lemma scan_indexes_spec l : forall m,
  0 < m -> Forall (fun idx => 0 <= idx) l ->
  match scan_indexes l m with
  | None => 0 ∈ l
  | Some m' => 0 < m' <= m /\ Forall (fun idx => m' <= idx) l /\
               (m' = m \/ m' ∈ l)
  end.
Proof.
  induction l as [|idx rest IH]; intros m Hm Hnn; simpl.
  { split; [lia |]. split; [constructor | left; reflexivity]. }
  inversion Hnn as [|? ? Hidx Hrest]; subst.
  destruct (idx >=? m) eqn:Hge.
  - rewrite Z.geb_leb in Hge. apply Z.leb_le in Hge.
    specialize (IH m Hm Hrest). destruct (scan_indexes rest m) as [m'|].
    + destruct IH as (Hm' & Hall & Hin). split; [exact Hm' |].
      split; [constructor; [lia | exact Hall] |].
      destruct Hin as [-> | Hin]; [left; reflexivity |].
      right. apply elem_of_cons. right. exact Hin.
    + apply elem_of_cons. right. exact IH.
  - rewrite Z.geb_leb in Hge. apply Z.leb_gt in Hge.
    destruct (idx =? 0) eqn:Hz.
    + apply Z.eqb_eq in Hz. apply elem_of_cons. left. symmetry. exact Hz.
    + apply Z.eqb_neq in Hz.
      specialize (IH idx ltac:(lia) Hrest).
      destruct (scan_indexes rest idx) as [m'|].
      * destruct IH as (Hm' & Hall & Hin). split; [lia |].
        split; [constructor; [lia | exact Hall] |].
        right. apply elem_of_cons.
        destruct Hin as [-> | Hin]; [left; reflexivity | right; exact Hin].
      * apply elem_of_cons. right. exact IH.
Qed.

Lemma shift_entry_no_slots m e :
  stack_indexes e = [] -> shift_entry m e = e.
Proof. destruct e as [p d t s r]. simpl. intros ->. reflexivity. Qed.

(** The minimum is positive: everything moves down by it. *)
Lemma TrimEntries_positive_min entries_ tagged_slots_size m :
  Forall (fun idx => 0 <= idx < tagged_slots_size) (all_stack_indexes entries_) ->
  is_min_index entries_ m ->
  0 < m ->
  TrimEntries entries_ tagged_slots_size =
    (map (shift_entry m) entries_, to_int (tagged_slots_size - m)).
Proof.
  intros Hrange [Hin Hmin] Hm. unfold TrimEntries.
  rewrite Forall_forall in Hrange. pose proof (Hrange m Hin) as Hmr.
  destruct (tagged_slots_size =? 0) eqn:Hz; [apply Z.eqb_eq in Hz; lia |].
  rewrite scan_entries_flat.
  pose proof (scan_indexes_spec (all_stack_indexes entries_)
                tagged_slots_size ltac:(lia)) as Hspec.
  destruct (scan_indexes _ _) as [m'|].
  - destruct Hspec as (Hm' & Hall & Hor).
    { apply Forall_forall. intros x Hx. apply Hrange in Hx. lia. }
    rewrite Forall_forall in Hall, Hmin.
    pose proof (Hall m Hin).
    destruct Hor as [-> | Hin']; [lia |].
    pose proof (Hmin m' Hin'). replace m' with m by lia. reflexivity.
  - rewrite Forall_forall in Hmin.
    assert (0 ∈ all_stack_indexes entries_) as H0.
    { apply Hspec. apply Forall_forall. intros x Hx. apply Hrange in Hx. lia. }
    apply Hmin in H0. lia.
Qed.

(** Index 0 is referenced: nothing changes. *)
Lemma TrimEntries_zero_min entries_ tagged_slots_size :
  Forall (fun idx => 0 <= idx < tagged_slots_size) (all_stack_indexes entries_) ->
  is_min_index entries_ 0 ->
  TrimEntries entries_ tagged_slots_size = (entries_, tagged_slots_size).
Proof.
  intros Hrange [Hin Hmin]. unfold TrimEntries.
  rewrite Forall_forall in Hrange. pose proof (Hrange 0 Hin) as Hmr.
  destruct (tagged_slots_size =? 0); [reflexivity |].
  rewrite scan_entries_flat.
  pose proof (scan_indexes_spec (all_stack_indexes entries_)
                tagged_slots_size ltac:(lia)) as Hspec.
  destruct (scan_indexes _ _) as [m'|]; [| reflexivity].
  destruct Hspec as (Hm' & Hall & Hor).
  { apply Forall_forall. intros x Hx. apply Hrange in Hx. lia. }
  rewrite Forall_forall in Hall. apply Hall in Hin. lia.
Qed.

(** No entry references a slot: the whole size is subtracted. *)
Lemma TrimEntries_no_slots entries_ tagged_slots_size :
  0 < tagged_slots_size ->
  Forall (fun e => stack_indexes e = []) entries_ ->
  TrimEntries entries_ tagged_slots_size = (entries_, 0).
Proof.
  intros Htss Hempty. unfold TrimEntries.
  destruct (tagged_slots_size =? 0) eqn:Hz; [apply Z.eqb_eq in Hz; lia |].
  assert (Hflat : all_stack_indexes entries_ = []).
  { unfold all_stack_indexes. induction Hempty as [|e rest He _ IH];
      [reflexivity |]. simpl. rewrite He, IH. reflexivity. }
  rewrite scan_entries_flat, Hflat. simpl.
  replace (tagged_slots_size - tagged_slots_size) with 0 by lia.
  f_equal. induction Hempty as [|e rest He _ IH]; [reflexivity |].
  simpl. rewrite shift_entry_no_slots by exact He. f_equal. apply IH.
  unfold all_stack_indexes in Hflat. simpl in Hflat. rewrite He in Hflat.
  exact Hflat.
Qed.

Lemma collapse_runs_from_subset head rest e :
  e ∈ collapse_runs_from head rest -> e ∈ rest.
Proof.
  revert head. induction rest as [|x rest IH]; intros head; simpl; [tauto |].
  rewrite elem_of_cons.
  destruct (is_identical_except_for_pc x head).
  - intros H. right. exact (IH _ H).
  - rewrite elem_of_cons. intros [-> | H]; [left; reflexivity | right; exact (IH _ H)].
Qed.

Lemma RemoveDuplicates_subset entries_ e :
  e ∈ RemoveDuplicates entries_ -> e ∈ entries_.
Proof.
  rewrite RemoveDuplicates_collapse_runs.
  destruct entries_ as [|x rest]; simpl; [tauto |].
  rewrite !elem_of_cons.
  intros [-> | H]; [left; reflexivity |].
  right. exact (collapse_runs_from_subset _ _ _ H).
Qed.

(** ** Bytes *)

Lemma emit_bytes_loop_length n value :
  length (emit_bytes_loop n value) = n.
Proof.
  revert value. induction n as [|n IH]; intros value; simpl;
    [reflexivity | rewrite IH; reflexivity].
Qed.

Lemma emit_bytes_length value bytes :
  length (emit_bytes value bytes) = Z.to_nat bytes.
Proof. apply emit_bytes_loop_length. Qed.

Lemma emit_bytes_loop_bytes n value :
  Forall (fun b => 0 <= b < 256) (emit_bytes_loop n value).
Proof.
  revert value. induction n as [|n IH]; intros value; simpl; constructor;
    [apply to_uint8_range | apply IH].
Qed.

(** [emit_bytes] writes the value modulo the width, low byte first. *)
Lemma le_value_emit_bytes_loop n value :
  le_value (emit_bytes_loop n value) = value mod 256 ^ Z.of_nat n.
Proof.
  revert value. induction n as [|n IH]; intros value.
  - simpl. rewrite Z.mod_1_r. reflexivity.
  - cbn [emit_bytes_loop db app le_value]. rewrite IH.
    rewrite Nat2Z.inj_succ, Z.pow_succ_r by lia.
    rewrite Z.rem_mul_r by lia.
    rewrite Z.shiftr_div_pow2 by lia. unfold to_uint8.
    change (2 ^ 8) with 256. reflexivity.
Qed.

Lemma le_value_emit_bytes value bytes :
  0 <= value < 256 ^ bytes ->
  le_value (emit_bytes value bytes) = value.
Proof.
  intros H. unfold emit_bytes. rewrite le_value_emit_bytes_loop.
  destruct (Z.le_gt_cases 0 bytes) as [Hb|Hb].
  - rewrite Z2Nat.id by lia. apply Z.mod_small, H.
  - rewrite Z.pow_neg_r in H by lia. lia.
Qed.

(** ** value_to_bytes *)

Lemma value_to_bytes_range value : 0 <= value_to_bytes value <= 4.
Proof.
  unfold value_to_bytes.
  repeat match goal with |- context [if ?c then _ else _] => destruct c end;
    lia.
Qed.

Lemma value_to_bytes_minimal value :
  0 <= value <= int_max ->
  minimal_byte_width value (value_to_bytes value).
Proof.
  unfold minimal_byte_width, value_to_bytes, int_max. intros Hv.
  destruct (value =? 0) eqn:H0.
  { apply Z.eqb_eq in H0. subst. split; [lia|]. split; [reflexivity | lia]. }
  apply Z.eqb_neq in H0.
  destruct (value <=? 255) eqn:H1.
  { apply Z.leb_le in H1. split; [lia|]. split; [lia |].
    intros k Hk. replace k with 0 by lia. simpl. lia. }
  apply Z.leb_gt in H1.
  destruct (value <=? 65535) eqn:H2.
  { apply Z.leb_le in H2. split; [lia|]. split; [lia |].
    intros k Hk. assert (k = 0 \/ k = 1) as [-> | ->] by lia; simpl; lia. }
  apply Z.leb_gt in H2.
  destruct (value <=? 16777215) eqn:H3.
  { apply Z.leb_le in H3. split; [lia|]. split; [lia |].
    intros k Hk. assert (k = 0 \/ k = 1 \/ k = 2) as [-> | [-> | ->]] by lia;
      simpl; lia. }
  apply Z.leb_gt in H3. split; [lia|]. split; [lia |].
  intros k Hk.
  assert (k = 0 \/ k = 1 \/ k = 2 \/ k = 3) as [-> | [-> | [-> | ->]]] by lia;
    simpl; lia.
Qed.

Lemma value_to_bytes_fits value :
  0 <= value <= int_max -> 0 <= value < 256 ^ value_to_bytes value.
Proof.
  intros Hv. destruct (value_to_bytes_minimal value Hv) as (_ & H & _). lia.
Qed.

Lemma value_to_bytes_mono a b :
  0 <= a <= b -> value_to_bytes a <= value_to_bytes b.
Proof.
  unfold value_to_bytes. intros H.
  repeat match goal with
         | |- context [?x =? ?y] => destruct (Z.eqb_spec x y)
         | |- context [?x <=? ?y] => destruct (Z.leb_spec x y)
         end; lia.
Qed.

Lemma pow256_mono a b : 0 <= a <= b -> 256 ^ a <= 256 ^ b.
Proof. intros H. apply Z.pow_le_mono_r; lia. Qed.

(** A value below the maximum fits the width derived from the maximum. *)
Lemma value_to_bytes_fits_le value bound :
  0 <= value <= bound -> bound <= int_max ->
  0 <= value < 256 ^ value_to_bytes bound.
Proof.
  intros Hv Hb. pose proof (value_to_bytes_fits bound ltac:(lia)). lia.
Qed.

(** The width depends on the highest set bit only, so the width of the
    union of two masks is the larger of their widths. *)
Lemma value_to_bytes_log2 value n :
  0 < value -> 0 < n ->
  (value_to_bytes value <= n <-> (Z.log2 value < 8 * n \/ 4 <= n)).
Proof.
  intros Hv Hn. rewrite <- Z.log2_lt_pow2 by lia.
  unfold value_to_bytes.
  destruct (Z.eqb_spec value 0); [lia |].
  assert (Hcases : n = 1 \/ n = 2 \/ n = 3 \/ 4 <= n) by lia.
  destruct Hcases as [-> | [-> | [-> | H4]]];
    try change (2 ^ (8 * 1)) with 256; try change (2 ^ (8 * 2)) with 65536;
    try change (2 ^ (8 * 3)) with 16777216;
    repeat match goal with
           | |- context [?x <=? ?y] => destruct (Z.leb_spec x y)
           end; lia.
Qed.

Lemma value_to_bytes_lor a b :
  0 <= a -> 0 <= b ->
  value_to_bytes (Z.lor a b) = Z.max (value_to_bytes a) (value_to_bytes b).
Proof.
  intros Ha Hb.
  destruct (Z.eq_dec a 0) as [-> | Ha0].
  { rewrite Z.lor_0_l. pose proof (value_to_bytes_range b).
    change (value_to_bytes 0) with 0. lia. }
  destruct (Z.eq_dec b 0) as [-> | Hb0].
  { rewrite Z.lor_0_r. pose proof (value_to_bytes_range a).
    change (value_to_bytes 0) with 0. lia. }
  assert (Hab : 0 < Z.lor a b).
  { pose proof (Z.lor_nonneg a b). pose proof (Z.lor_eq_0_iff a b). lia. }
  assert (Hpos : forall v, 0 < v -> 0 < value_to_bytes v).
  { intros v Hv. unfold value_to_bytes.
    destruct (Z.eqb_spec v 0); [lia |].
    repeat match goal with
           | |- context [?x <=? ?y] => destruct (Z.leb_spec x y)
           end; lia. }
  pose proof (Hpos a ltac:(lia)). pose proof (Hpos b ltac:(lia)).
  pose proof (Hpos _ Hab).
  pose proof (Z.lor_nonneg a b) as _.
  pose proof (Z.log2_lor a b Ha Hb) as Hlog.
  pose proof (value_to_bytes_range a). pose proof (value_to_bytes_range b).
  pose proof (value_to_bytes_range (Z.lor a b)).
  assert (Hle : forall n, 0 < n ->
            (value_to_bytes (Z.lor a b) <= n <->
             value_to_bytes a <= n /\ value_to_bytes b <= n)).
  { intros n Hn.
    rewrite (value_to_bytes_log2 (Z.lor a b) n), (value_to_bytes_log2 a n),
      (value_to_bytes_log2 b n) by lia.
    rewrite Hlog. lia. }
  pose proof (Hle 1 ltac:(lia)). pose proof (Hle 2 ltac:(lia)).
  pose proof (Hle 3 ltac:(lia)). lia.
Qed.

(** ** The maxima that decide the widths *)

Lemma max_list_from_max d x l :
  max_list_from (Z.max d x) l = Z.max x (max_list_from d l).
Proof. induction l as [|y l IH]; simpl; [lia | rewrite IH; lia]. Qed.

Lemma max_list_from_ge_default d l : d <= max_list_from d l.
Proof. induction l as [|y l IH]; simpl; lia. Qed.

Lemma max_list_from_ge d l x : x ∈ l -> x <= max_list_from d l.
Proof.
  induction l as [|y l IH]; [intros H; inversion H |].
  rewrite elem_of_cons. simpl. intros [-> | H]; [lia |].
  specialize (IH H). lia.
Qed.

Lemma value_to_bytes_max a b :
  0 <= a -> 0 <= b ->
  value_to_bytes (Z.max a b) = Z.max (value_to_bytes a) (value_to_bytes b).
Proof.
  intros Ha Hb.
  destruct (Z.max_spec a b) as [[Hlt ->] | [Hle ->]].
  - pose proof (value_to_bytes_mono a b). lia.
  - pose proof (value_to_bytes_mono b a). lia.
Qed.

Lemma value_to_bytes_max_list l :
  Forall (fun x => 0 <= x) l ->
  value_to_bytes (max_list_from 0 l) =
  max_list_from 0 (map value_to_bytes l).
Proof.
  induction 1 as [|x l Hx Hl IH]; [reflexivity |].
  simpl. rewrite value_to_bytes_max, IH; [reflexivity | exact Hx |].
  apply max_list_from_ge_default.
Qed.

Lemma lor_int_range a b :
  0 <= a <= int_max -> 0 <= b <= int_max -> 0 <= Z.lor a b <= int_max.
Proof.
  unfold int_max. intros Ha Hb.
  pose proof (proj2 (Z.lor_nonneg a b) (conj (proj1 Ha) (proj1 Hb))) as Hnn.
  split; [exact Hnn |].
  destruct (Z.eq_dec (Z.lor a b) 0) as [-> | Hne]; [lia |].
  assert (Z.lor a b < 2 ^ 31); [| lia].
  apply Z.log2_lt_pow2; [lia |].
  rewrite Z.log2_lor by lia.
  destruct (Z.eq_dec a 0) as [-> | Ha0];
    destruct (Z.eq_dec b 0) as [-> | Hb0]; simpl; try lia.
  - rewrite Z.max_r by apply Z.log2_nonneg. apply Z.log2_lt_pow2; lia.
  - rewrite Z.max_l by apply Z.log2_nonneg. apply Z.log2_lt_pow2; lia.
  - apply Z.max_lub_lt; apply Z.log2_lt_pow2; lia.
Qed.

Lemma field_maxima_fold entries_ : forall acc,
  0 <= used_register_indexes acc <= int_max ->
  Forall (fun e => 0 <= register_indexes e <= int_max) entries_ ->
  let m := fold_left field_maxima_step entries_ acc in
  0 <= used_register_indexes m <= int_max /\
  value_to_bytes (used_register_indexes m) =
    max_list_from (value_to_bytes (used_register_indexes acc))
      (map (fun e => value_to_bytes (register_indexes e)) entries_) /\
  max_pc m =
    max_list_from (max_pc acc)
      (map (fun e => Z.max (pc e) (trampoline e)) entries_) /\
  max_deopt_index m =
    max_list_from (max_deopt_index acc) (map deopt_index entries_).
Proof.
  induction entries_ as [|e rest IH]; intros acc Hacc Hregs.
  { simpl. repeat split; lia. }
  inversion Hregs as [|? ? He Hrest]; subst.
  pose proof (lor_int_range _ _ Hacc He) as Hlor.
  cbn [fold_left map max_list_from fold_right].
  destruct (IH (field_maxima_step acc e)) as (Hu & Hw & Hp & Hd).
  { simpl. rewrite to_int_id; unfold int_min; lia. }
  { exact Hrest. }
  split; [exact Hu |]. split; [| split].
  - rewrite Hw. simpl. rewrite to_int_id by (unfold int_min; lia).
    rewrite value_to_bytes_lor by lia.
    fold (max_list_from (Z.max (value_to_bytes (used_register_indexes acc))
                               (value_to_bytes (register_indexes e)))
            (map (fun e => value_to_bytes (register_indexes e)) rest)).
    apply max_list_from_max.
  - rewrite Hp. simpl. apply max_list_from_max.
  - rewrite Hd. simpl. apply max_list_from_max.
Qed.

Lemma field_maxima_spec entries_ :
  Forall (fun e => 0 <= register_indexes e <= int_max) entries_ ->
  let m := field_maxima entries_ in
  0 <= used_register_indexes m <= int_max /\
  value_to_bytes (used_register_indexes m) =
    value_to_bytes (max_list_from 0 (map register_indexes entries_)) /\
  max_pc m =
    max_list_from (-1) (map (fun e => Z.max (pc e) (trampoline e)) entries_) /\
  max_deopt_index m = max_list_from (-1) (map deopt_index entries_).
Proof.
  intros Hregs. unfold field_maxima.
  destruct (field_maxima_fold entries_ (MkFieldMaxima 0 (-1) (-1)))
    as (Hu & Hw & Hp & Hd); [simpl; unfold int_max; lia | exact Hregs |].
  split; [exact Hu |]. split; [| split; assumption].
  rewrite Hw. simpl used_register_indexes.
  change (value_to_bytes 0) with 0.
  rewrite value_to_bytes_max_list.
  - rewrite map_map. reflexivity.
  - apply Forall_map. eapply Forall_impl; [exact Hregs |].
    simpl. intros; lia.
Qed.

(** ** The configuration word *)

Lemma decode_div_mod f word :
  0 <= kShift f -> 0 <= kSize f ->
  decode f word = (word / 2 ^ kShift f) mod 2 ^ kSize f.
Proof.
  intros Hs Hk. unfold decode, kMask.
  rewrite Z.shiftr_land, Z.shiftr_shiftl_l, Z.sub_diag, Z.shiftl_0_r by lia.
  rewrite Z.land_ones, Z.shiftr_div_pow2 by lia. reflexivity.
Qed.

Lemma decode_lor f a b :
  decode f (Z.lor a b) = Z.lor (decode f a) (decode f b).
Proof.
  unfold decode. rewrite Z.land_lor_distr_l, Z.shiftr_lor. reflexivity.
Qed.

Lemma encode_small f value :
  0 <= kShift f -> 0 <= kSize f -> kShift f + kSize f <= 32 ->
  0 <= value < 2 ^ kSize f ->
  encode f value = value * 2 ^ kShift f.
Proof.
  intros Hs Hk H32 Hv. unfold encode, to_uint32.
  rewrite Z.shiftl_mul_pow2 by lia. apply Z.mod_small.
  split; [apply Z.mul_nonneg_nonneg; lia |].
  apply Z.lt_le_trans with (2 ^ kSize f * 2 ^ kShift f).
  - apply Z.mul_lt_mono_pos_r; lia.
  - rewrite <- Z.pow_add_r by lia. apply Z.pow_le_mono_r; lia.
Qed.

Lemma decode_encode f value :
  0 <= kShift f -> 0 <= kSize f -> kShift f + kSize f <= 32 ->
  0 <= value < 2 ^ kSize f ->
  decode f (encode f value) = value.
Proof.
  intros Hs Hk H32 Hv.
  rewrite decode_div_mod, encode_small by assumption.
  rewrite Z.div_mul by lia. apply Z.mod_small, Hv.
Qed.

Lemma decode_encode_other f g value :
  0 <= kShift f -> 0 <= kSize f ->
  0 <= kShift g -> 0 <= kSize g -> kShift g + kSize g <= 32 ->
  0 <= value < 2 ^ kSize g ->
  kShift g + kSize g <= kShift f \/ kShift f + kSize f <= kShift g ->
  decode f (encode g value) = 0.
Proof.
  intros Hsf Hkf Hsg Hkg H32 Hv Hdisj.
  rewrite decode_div_mod, encode_small by assumption.
  destruct Hdisj as [Hlow | Hhigh].
  - rewrite Z.div_small; [apply Z.mod_0_l; lia |].
    split; [apply Z.mul_nonneg_nonneg; lia |].
    apply Z.lt_le_trans with (2 ^ kSize g * 2 ^ kShift g).
    + apply Z.mul_lt_mono_pos_r; lia.
    + rewrite <- Z.pow_add_r by lia. apply Z.pow_le_mono_r; lia.
  - replace (kShift g) with (kShift f + (kSize f + (kShift g - kShift f - kSize f)))
      by lia.
    rewrite !Z.pow_add_r by lia.
    rewrite (Z.mul_comm (2 ^ kShift f)), Z.mul_assoc, Z.div_mul by lia.
    rewrite Z.mul_assoc, (Z.mul_comm value), <- !Z.mul_assoc.
    rewrite Z.mul_comm. apply Z.mod_mul. lia.
Qed.

Section ConfigurationWord.
Variable fb : FieldBits.
Hypothesis fb_ok : FieldBits_ok fb.
Variable s : FieldSizes.
Hypothesis s_fit : sizes_fit fb s = true.

Lemma sizes_fit_bounds :
  fits_bits (register_indexes_size_bits fb) (register_indexes_size s) /\
  fits_bits (pc_size_bits fb) (pc_size s) /\
  fits_bits (deopt_index_size_bits fb) (deopt_index_size s) /\
  fits_bits (tagged_slots_bytes_bits fb) (tagged_slots_bytes s).
Proof.
  clear fb_ok. unfold sizes_fit, is_valid, fits_bits in *. simpl in s_fit.
  repeat (apply andb_prop in s_fit; destruct s_fit as [s_fit ?]).
  repeat match goal with
         | H : (_ <=? _) = true |- _ => apply Z.leb_le in H
         | H : (_ <? _) = true |- _ => apply Z.ltb_lt in H
         end.
  apply Z.leb_le in s_fit. lia.
Qed.

Ltac decode_fields :=
  unfold entry_configuration;
  rewrite !decode_lor;
  repeat first
    [ rewrite decode_encode
        by (simpl; first [lia | destruct (has_deopt_data s); simpl; lia])
    | rewrite decode_encode_other
        by (simpl; first [lia | destruct (has_deopt_data s); simpl; lia]) ];
  rewrite ?Z.lor_0_l, ?Z.lor_0_r.

Lemma decode_has_deopt_data :
  decode HasDeoptDataField (entry_configuration fb s) =
  if has_deopt_data s then 1 else 0.
Proof.
  destruct fb_ok as (H1 & H2 & H3 & H4 & H5).
  destruct sizes_fit_bounds as (B1 & B2 & B3 & B4). unfold fits_bits in *.
  decode_fields. reflexivity.
Qed.

Lemma decode_register_indexes_size :
  decode (RegisterIndexesSizeField fb) (entry_configuration fb s) =
  register_indexes_size s.
Proof.
  destruct fb_ok as (H1 & H2 & H3 & H4 & H5).
  destruct sizes_fit_bounds as (B1 & B2 & B3 & B4). unfold fits_bits in *.
  decode_fields. reflexivity.
Qed.

Lemma decode_pc_size :
  decode (PcSizeField fb) (entry_configuration fb s) = pc_size s.
Proof.
  destruct fb_ok as (H1 & H2 & H3 & H4 & H5).
  destruct sizes_fit_bounds as (B1 & B2 & B3 & B4). unfold fits_bits in *.
  decode_fields. reflexivity.
Qed.

Lemma decode_deopt_index_size :
  decode (DeoptIndexSizeField fb) (entry_configuration fb s) =
  deopt_index_size s.
Proof.
  destruct fb_ok as (H1 & H2 & H3 & H4 & H5).
  destruct sizes_fit_bounds as (B1 & B2 & B3 & B4). unfold fits_bits in *.
  decode_fields. reflexivity.
Qed.

Lemma decode_tagged_slots_bytes :
  decode (TaggedSlotsBytesField fb) (entry_configuration fb s) =
  tagged_slots_bytes s.
Proof.
  destruct fb_ok as (H1 & H2 & H3 & H4 & H5).
  destruct sizes_fit_bounds as (B1 & B2 & B3 & B4). unfold fits_bits in *.
  decode_fields. reflexivity.
Qed.
End ConfigurationWord.

(** ** Slices of the emitted table *)

Lemma concat_uniform_length {A} (l : list (list A)) m :
  Forall (fun y => length y = m) l ->
  length (concat l) = (length l * m)%nat.
Proof.
  induction 1 as [|y l Hy _ IH]; [reflexivity |].
  simpl. rewrite length_app, IH, Hy. reflexivity.
Qed.

Lemma concat_uniform_drop {A} (l : list (list A)) m : forall k x,
  Forall (fun y => length y = m) l ->
  l !! k = Some x ->
  drop (k * m) (concat l) = x ++ concat (drop (S k) l).
Proof.
  induction l as [|y l IH]; intros k x Hall Hk; [discriminate |].
  inversion Hall as [|? ? Hy Hl]; subst.
  destruct k as [|k]; simpl in *.
  - injection Hk as ->. rewrite drop_0. reflexivity.
  - rewrite drop_app_ge by lia.
    replace (length y + k * length y - length y)%nat with (k * length y)%nat
      by lia.
    apply IH; assumption.
Qed.

Lemma dd_length value : length (dd value) = 4%nat.
Proof. reflexivity. Qed.

Lemma le_value_dd value : le_value (dd value) = value mod 2 ^ 32.
Proof.
  change (dd value) with (emit_bytes_loop 4 value).
  rewrite le_value_emit_bytes_loop. reflexivity.
Qed.

Lemma to_int_mod z : to_int (z mod 2 ^ 32) = to_int z.
Proof.
  unfold to_int. rewrite Zplus_mod_idemp_l. reflexivity.
Qed.

Section ReadBack.
Variable fb : FieldBits.
Variable t : SafepointTable.

Lemma read_bytes_emit ptr value bytes rest :
  0 <= ptr -> 0 <= bytes ->
  drop (Z.to_nat ptr) (safepoint_table_memory_ t) = emit_bytes value bytes ++ rest ->
  0 <= value < 256 ^ bytes -> value <= int_max ->
  read_bytes t ptr bytes = value /\
  drop (Z.to_nat (ptr + bytes)) (safepoint_table_memory_ t) = rest.
Proof.
  intros Hptr Hbytes Hdrop Hv Hmax. split.
  - unfold read_bytes. rewrite Hdrop.
    rewrite <- (emit_bytes_length value bytes), take_app_length.
    rewrite le_value_emit_bytes by exact Hv.
    apply to_int_id. unfold int_min. lia.
  - rewrite Z2Nat.inj_add, <- drop_drop, Hdrop by lia.
    rewrite <- (emit_bytes_length value bytes). apply drop_app_length.
Qed.
End ReadBack.

Lemma lor_pow2_range n a b :
  0 <= n -> 0 <= a < 2 ^ n -> 0 <= b < 2 ^ n -> 0 <= Z.lor a b < 2 ^ n.
Proof.
  intros Hn Ha Hb.
  destruct (Z.eq_dec a 0) as [-> | Ha0]; [rewrite Z.lor_0_l; exact Hb |].
  destruct (Z.eq_dec b 0) as [-> | Hb0]; [rewrite Z.lor_0_r; exact Ha |].
  pose proof (proj2 (Z.lor_nonneg a b) (conj (proj1 Ha) (proj1 Hb))) as Hnn.
  split; [exact Hnn |].
  assert (Hne : Z.lor a b <> 0).
  { intros H0. apply Z.lor_eq_0_iff in H0. lia. }
  apply Z.log2_lt_pow2; [lia |].
  rewrite Z.log2_lor by lia.
  apply Z.max_lub_lt; apply Z.log2_lt_pow2; lia.
Qed.

Lemma encode_range f value : 0 <= encode f value < 2 ^ 32.
Proof. unfold encode, to_uint32. apply Z.mod_pos_bound. lia. Qed.

Lemma entry_configuration_range fb s :
  0 <= entry_configuration fb s < 2 ^ 32.
Proof.
  unfold entry_configuration.
  repeat apply lor_pow2_range; try lia; apply encode_range.
Qed.

Lemma or_byte_length bits byte_index mask :
  length (or_byte bits byte_index mask) = length bits.
Proof.
  unfold or_byte. destruct (byte_index <? 0); [reflexivity |].
  apply length_alter.
Qed.

Lemma fold_set_slot_bit_length tagged_slots_size l : forall bits,
  length (fold_left (set_slot_bit tagged_slots_size) l bits) = length bits.
Proof.
  induction l as [|idx l IH]; intros bits; simpl; [reflexivity |].
  rewrite IH. apply or_byte_length.
Qed.

Lemma or_byte_bytes bits byte_index mask :
  Forall (fun b => 0 <= b < 256) bits ->
  Forall (fun b => 0 <= b < 256) (or_byte bits byte_index mask).
Proof.
  intros Hbits. unfold or_byte. destruct (byte_index <? 0); [exact Hbits |].
  apply Forall_alter; [exact Hbits |]. intros b _ _. apply to_uint8_range.
Qed.

Lemma build_bitmap_bytes s tagged_slots_size e :
  Forall (fun b => 0 <= b < 256) (build_bitmap s tagged_slots_size e).
Proof.
  unfold build_bitmap.
  assert (H : forall l bits,
            Forall (fun b => 0 <= b < 256) bits ->
            Forall (fun b => 0 <= b < 256)
                   (fold_left (set_slot_bit tagged_slots_size) l bits)).
  { induction l as [|idx l IH]; intros bits Hbits; [exact Hbits |].
    simpl. apply IH. unfold set_slot_bit. apply or_byte_bytes, Hbits. }
  apply H. apply Forall_replicate. lia.
Qed.

Lemma concat_map_db l :
  Forall (fun b => 0 <= b < 256) l -> concat (map db l) = l.
Proof.
  induction 1 as [|b l Hb _ IH]; [reflexivity |].
  simpl. unfold to_uint8. rewrite IH, Z.mod_small by (simpl; lia).
  reflexivity.
Qed.

(** The bytes emitted for a bitmap are the bytes of the vector. *)
Lemma emit_bitmap_build s tagged_slots_size e :
  emit_bitmap s tagged_slots_size e = build_bitmap s tagged_slots_size e.
Proof. apply concat_map_db, build_bitmap_bytes. Qed.

Lemma emit_bitmap_length s tagged_slots_size e :
  length (emit_bitmap s tagged_slots_size e) = Z.to_nat (tagged_slots_bytes s).
Proof.
  rewrite emit_bitmap_build. unfold build_bitmap.
  rewrite fold_set_slot_bit_length. apply length_replicate.
Qed.

Lemma emit_entry_length s e :
  0 <= pc_size s -> 0 <= deopt_index_size s -> 0 <= register_indexes_size s ->
  length (emit_entry s e) = Z.to_nat (record_size s).
Proof.
  intros Hp Hd Hr. unfold emit_entry, record_size.
  destruct (has_deopt_data s);
    rewrite ?length_app, ?emit_bytes_length; simpl; lia.
Qed.

(** ** Every field fits the width derived for it *)

Lemma entry_in_range_spec e :
  entry_in_range e = true <->
  (0 <= pc e < int_max /\ -1 <= trampoline e < int_max /\
   -1 <= deopt_index e < int_max /\ 0 <= register_indexes e <= int_max).
Proof.
  unfold entry_in_range.
  rewrite !andb_true_iff, !Z.leb_le, !Z.ltb_lt. lia.
Qed.

Lemma max_list_from_le d l bound :
  d <= bound -> Forall (fun x => x <= bound) l -> max_list_from d l <= bound.
Proof. intros Hd. induction 1 as [|x l Hx _ IH]; simpl; lia. Qed.

Lemma field_sizes_fit_entry entries_ tagged_slots_size e :
  forallb entry_in_range entries_ = true ->
  e ∈ entries_ ->
  let s := field_sizes entries_ tagged_slots_size in
  0 <= pc e < 256 ^ pc_size s /\
  0 <= trampoline e + 1 < 256 ^ pc_size s /\
  0 <= deopt_index e + 1 < 256 ^ deopt_index_size s /\
  0 <= register_indexes e < 256 ^ register_indexes_size s.
Proof.
  intros Hrange He.
  rewrite forallb_forall in Hrange.
  assert (Hall : forall x, x ∈ entries_ ->
            0 <= pc x < int_max /\ -1 <= trampoline x < int_max /\
            -1 <= deopt_index x < int_max /\
            0 <= register_indexes x <= int_max).
  { intros x Hx. apply entry_in_range_spec, Hrange, list_elem_of_In, Hx. }
  destruct (field_maxima_spec entries_) as (Hu & Hw & Hp & Hd).
  { apply Forall_forall. intros x Hx. apply Hall in Hx. lia. }
  pose proof (Hall e He) as (Hpc & Htr & Hde & Hre).
  cbn zeta. unfold field_sizes. cbn [pc_size deopt_index_size register_indexes_size].
  set (m := field_maxima entries_) in *.
  assert (Hmp : Z.max (pc e) (trampoline e) <= max_pc m < int_max).
  { rewrite Hp. split.
    - apply (max_list_from_ge _ _ (Z.max (pc e) (trampoline e))).
      apply (list_elem_of_fmap_2 (fun e => Z.max (pc e) (trampoline e))), He.
    - assert (max_list_from (-1)
                (map (fun e => Z.max (pc e) (trampoline e)) entries_)
              <= int_max - 1); [| lia].
      apply max_list_from_le; [unfold int_max; lia |].
      apply Forall_map, Forall_forall. intros x Hx. apply Hall in Hx.
      simpl. lia. }
  assert (Hmd : deopt_index e <= max_deopt_index m < int_max).
  { rewrite Hd. split.
    - apply max_list_from_ge. apply (list_elem_of_fmap_2 deopt_index), He.
    - assert (max_list_from (-1) (map deopt_index entries_) <= int_max - 1);
        [| lia].
      apply max_list_from_le; [unfold int_max; lia |].
      apply Forall_map, Forall_forall. intros x Hx. apply Hall in Hx.
      simpl. lia. }
  rewrite !to_int_id by (unfold int_min; lia).
  repeat split; try lia.
  - apply (value_to_bytes_fits_le (pc e) (max_pc m + 1)); lia.
  - apply (value_to_bytes_fits_le (trampoline e + 1) (max_pc m + 1)); lia.
  - apply (value_to_bytes_fits_le (deopt_index e + 1) (max_deopt_index m + 1));
      lia.
  - pose proof (value_to_bytes_fits (register_indexes e) Hre) as [_ Hfit].
    eapply Z.lt_le_trans; [exact Hfit |].
    apply pow256_mono. split; [apply value_to_bytes_range |].
    rewrite Hw, value_to_bytes_max_list.
    + apply max_list_from_ge. rewrite map_map.
      apply (list_elem_of_fmap_2 (fun x => value_to_bytes (register_indexes x))), He.
    + apply Forall_map, Forall_forall. intros x Hx. apply Hall in Hx.
      simpl. lia.
Qed.

(** ** Reading back what EmitTable wrote *)

Section EmittedTable.
Variable fb : FieldBits.
Hypothesis fb_ok : FieldBits_ok fb.
Variable entries_ : Entries.
Variable tagged_slots_size : Z.
Variable bytes : list Z.
Variable instruction_start : Z.
Hypothesis Hemit : EmitTable fb entries_ tagged_slots_size = Some bytes.
Hypothesis Hrange : forallb entry_in_range entries_ = true.
Hypothesis Hlen : Z.of_nat (length entries_) <= int_max.

Local Abbreviation s := (field_sizes entries_ tagged_slots_size).
Local Abbreviation t := (SafepointTable_new instruction_start bytes).
Local Abbreviation records := (map (emit_entry s) entries_).
Local Abbreviation bitmaps := (map (emit_bitmap s tagged_slots_size) entries_).

Lemma EmitTable_fit : sizes_fit fb s = true.
Proof.
  clear Hrange Hlen fb_ok. unfold EmitTable in Hemit.
  destruct (sizes_fit fb s); [reflexivity | discriminate].
Qed.

Lemma EmitTable_bytes :
  bytes = dd (Z.of_nat (length entries_)) ++ dd (entry_configuration fb s) ++
          concat records ++ concat bitmaps.
Proof.
  clear Hrange fb_ok. unfold EmitTable in Hemit.
  destruct (sizes_fit fb s); [| discriminate]. simpl in Hemit.
  injection Hemit as <-.
  rewrite to_int_id; [reflexivity |]. unfold int_min. lia.
Qed.

Lemma emitted_sizes_nonneg :
  0 <= pc_size s /\ 0 <= deopt_index_size s /\ 0 <= register_indexes_size s /\
  0 <= tagged_slots_bytes s.
Proof.
  pose proof (sizes_fit_bounds fb s EmitTable_fit) as (B1 & B2 & B3 & B4).
  unfold fits_bits in *. lia.
Qed.

Lemma emitted_length : length_ t = Z.of_nat (length entries_).
Proof.
  unfold SafepointTable_new, Memory_int, Memory_uint32. cbn [length_].
  rewrite EmitTable_bytes.
  change (take 4 (drop (Z.to_nat kLengthOffset)
            (dd (Z.of_nat (length entries_)) ++
             dd (entry_configuration fb s) ++ concat records ++ concat bitmaps)))
    with (dd (Z.of_nat (length entries_))).
  rewrite le_value_dd, to_int_mod. apply to_int_id. unfold int_min. lia.
Qed.

Lemma emitted_configuration :
  entry_configuration_ t = entry_configuration fb s.
Proof.
  unfold SafepointTable_new, Memory_uint32. cbn [entry_configuration_].
  rewrite EmitTable_bytes.
  change (take 4 (drop (Z.to_nat kEntryConfigurationOffset)
            (dd (Z.of_nat (length entries_)) ++
             dd (entry_configuration fb s) ++ concat records ++ concat bitmaps)))
    with (dd (entry_configuration fb s)).
  rewrite le_value_dd. apply Z.mod_small, entry_configuration_range.
Qed.

Lemma emitted_has_deopt_data : table_has_deopt_data t = has_deopt_data s.
Proof.
  unfold table_has_deopt_data. rewrite emitted_configuration.
  rewrite (decode_has_deopt_data fb fb_ok s EmitTable_fit).
  destruct (has_deopt_data s); reflexivity.
Qed.

Lemma emitted_pc_size : table_pc_size fb t = pc_size s.
Proof.
  unfold table_pc_size. rewrite emitted_configuration.
  apply (decode_pc_size fb fb_ok s EmitTable_fit).
Qed.

Lemma emitted_deopt_index_size : table_deopt_index_size fb t = deopt_index_size s.
Proof.
  unfold table_deopt_index_size. rewrite emitted_configuration.
  apply (decode_deopt_index_size fb fb_ok s EmitTable_fit).
Qed.

Lemma emitted_register_indexes_size :
  table_register_indexes_size fb t = register_indexes_size s.
Proof.
  unfold table_register_indexes_size. rewrite emitted_configuration.
  apply (decode_register_indexes_size fb fb_ok s EmitTable_fit).
Qed.

Lemma emitted_tagged_slots_bytes :
  table_tagged_slots_bytes fb t = tagged_slots_bytes s.
Proof.
  unfold table_tagged_slots_bytes. rewrite emitted_configuration.
  apply (decode_tagged_slots_bytes fb fb_ok s EmitTable_fit).
Qed.

Lemma emitted_entry_size : entry_size fb t = record_size s.
Proof.
  unfold entry_size, record_size.
  rewrite emitted_has_deopt_data, emitted_pc_size, emitted_deopt_index_size,
    emitted_register_indexes_size. reflexivity.
Qed.

Lemma records_uniform :
  Forall (fun y => length y = Z.to_nat (record_size s)) records.
Proof.
  destruct emitted_sizes_nonneg as (Hp & Hd & Hr & _).
  apply Forall_map, Forall_forall. intros e _. simpl.
  apply emit_entry_length; assumption.
Qed.

Lemma bitmaps_uniform :
  Forall (fun y => length y = Z.to_nat (tagged_slots_bytes s)) bitmaps.
Proof.
  apply Forall_map, Forall_forall. intros e _. simpl.
  apply emit_bitmap_length.
Qed.

Lemma record_size_nonneg : 0 <= record_size s.
Proof.
  destruct emitted_sizes_nonneg as (Hp & Hd & Hr & _).
  unfold record_size. destruct (has_deopt_data s); lia.
Qed.

(** The bytes from the start of record [k] on. *)
Lemma emitted_record k e :
  entries_ !! k = Some e ->
  drop (Z.to_nat (kHeaderSize + Z.of_nat k * entry_size fb t))
       (safepoint_table_memory_ t) =
  emit_entry s e ++ concat (drop (S k) records) ++ concat bitmaps.
Proof.
  intros Hk. rewrite emitted_entry_size. pose proof record_size_nonneg as Hnn.
  cbn [SafepointTable_new safepoint_table_memory_].
  rewrite EmitTable_bytes at 1.
  replace (Z.to_nat (kHeaderSize + Z.of_nat k * record_size s))
    with (4 + (4 + k * Z.to_nat (record_size s)))%nat
    by (change kHeaderSize with 8; nia).
  rewrite <- (dd_length (Z.of_nat (length entries_))) at 1.
  rewrite drop_app_add.
  rewrite <- (dd_length (entry_configuration fb s)) at 1.
  rewrite drop_app_add.
  assert (Hle : (k * Z.to_nat (record_size s) <= length (concat records))%nat).
  { rewrite (concat_uniform_length _ _ records_uniform), length_map.
    apply lookup_lt_Some in Hk. nia. }
  rewrite drop_app_le by exact Hle.
  rewrite (concat_uniform_drop records _ k (emit_entry s e) records_uniform).
  - rewrite <- app_assoc. reflexivity.
  - rewrite list_lookup_fmap, Hk. reflexivity.
Qed.

(** The bitmap of entry [k]. *)
Lemma emitted_bitmap k e :
  entries_ !! k = Some e ->
  take (Z.to_nat (table_tagged_slots_bytes fb t))
    (drop (Z.to_nat (kHeaderSize + length_ t * entry_size fb t +
                     Z.of_nat k * table_tagged_slots_bytes fb t))
          (safepoint_table_memory_ t)) =
  emit_bitmap s tagged_slots_size e.
Proof.
  intros Hk. rewrite emitted_entry_size, emitted_length,
    emitted_tagged_slots_bytes.
  pose proof record_size_nonneg as Hnn.
  destruct emitted_sizes_nonneg as (_ & _ & _ & Htsb).
  cbn [SafepointTable_new safepoint_table_memory_].
  rewrite EmitTable_bytes at 1.
  replace (Z.to_nat (kHeaderSize + Z.of_nat (length entries_) * record_size s +
                     Z.of_nat k * tagged_slots_bytes s))
    with (4 + (4 + (length (concat records) +
                    k * Z.to_nat (tagged_slots_bytes s))))%nat.
  2: { rewrite (concat_uniform_length _ _ records_uniform), length_map.
       change kHeaderSize with 8. nia. }
  rewrite <- (dd_length (Z.of_nat (length entries_))) at 1.
  rewrite drop_app_add.
  rewrite <- (dd_length (entry_configuration fb s)) at 1.
  rewrite drop_app_add, drop_app_add.
  rewrite (concat_uniform_drop bitmaps _ k (emit_bitmap s tagged_slots_size e)
             bitmaps_uniform).
  - rewrite <- (emit_bitmap_length s tagged_slots_size e). apply take_app_length.
  - rewrite list_lookup_fmap, Hk. reflexivity.
Qed.

Lemma no_deopt_data_entry e :
  has_deopt_data s = false -> e ∈ entries_ -> deopt_index e = -1.
Proof.
  intros Hno He. unfold field_sizes in Hno. cbn [has_deopt_data] in Hno.
  apply negb_false_iff, Z.eqb_eq in Hno.
  rewrite forallb_forall in Hrange.
  pose proof (proj1 (entry_in_range_spec e)
                (Hrange e (proj1 (list_elem_of_In _ _) He))) as (_ & _ & Hd & _).
  destruct (field_maxima_spec entries_) as (_ & _ & _ & Hmax).
  { apply Forall_forall. intros x Hx.
    pose proof (proj1 (entry_in_range_spec x)
                  (Hrange x (proj1 (list_elem_of_In _ _) Hx))). lia. }
  pose proof (max_list_from_ge (-1) (map deopt_index entries_) (deopt_index e)
                (list_elem_of_fmap_2 deopt_index _ _ He)).
  lia.
Qed.

(** [GetEntry] decodes the fields of the builder entry. *)
Lemma GetEntry_emitted k e :
  entries_ !! k = Some e ->
  (deopt_index e = -1 -> trampoline e = -1) ->
  GetEntry fb t (Z.of_nat k) = entry_view s tagged_slots_size e.
Proof.
  intros Hk Hno.
  pose proof (list_elem_of_lookup_2 _ _ _ Hk) as He.
  pose proof (field_sizes_fit_entry entries_ tagged_slots_size e Hrange He)
    as (Fpc & Ftr & Fde & Fre).
  pose proof (proj1 (entry_in_range_spec e)
                (proj1 (forallb_forall _ _) Hrange e
                   (proj1 (list_elem_of_In _ _) He))) as (Rpc & Rtr & Rde & Rre).
  destruct emitted_sizes_nonneg as (Hp & Hd & Hr & Htsb).
  pose proof record_size_nonneg as Hnn.
  pose proof (emitted_record k e Hk) as Hrec.
  pose proof (emitted_bitmap k e Hk) as Hbit.
  unfold GetEntry, entry_view.
  rewrite Hbit. rewrite emitted_has_deopt_data.
  rewrite emitted_pc_size, emitted_deopt_index_size,
    emitted_register_indexes_size in *.
  rewrite emitted_entry_size in *.
  unfold emit_entry in Hrec.
  set (ptr0 := kHeaderSize + Z.of_nat k * record_size s) in *.
  assert (Hptr0 : 0 <= ptr0) by (unfold ptr0; change kHeaderSize with 8; nia).
  rewrite <- !app_assoc in Hrec.
  destruct (read_bytes_emit t ptr0 (pc e) (pc_size s) _ Hptr0 Hp Hrec)
    as [Hrpc Hrest1]; [lia | lia |].
  rewrite Hrpc.
  destruct (has_deopt_data s) eqn:Hhas.
  - rewrite <- !app_assoc in Hrest1.
    rewrite to_int_id in Hrest1 by (unfold int_min; lia).
    destruct (read_bytes_emit t (ptr0 + pc_size s) (deopt_index e + 1)
                (deopt_index_size s) _ ltac:(lia) Hd Hrest1)
      as [Hrde Hrest2]; [lia | lia |].
    rewrite to_int_id in Hrest2 by (unfold int_min; lia).
    destruct (read_bytes_emit t (ptr0 + pc_size s + deopt_index_size s)
                (trampoline e + 1) (pc_size s) _ ltac:(lia) Hp Hrest2)
      as [Hrtr Hrest3]; [lia | lia |].
    rewrite to_int_id in Hrest3 by (unfold int_min; lia).
    destruct (read_bytes_emit t
                (ptr0 + pc_size s + deopt_index_size s + pc_size s)
                (register_indexes e) (register_indexes_size s) _
                ltac:(lia) Hr Hrest3) as [Hrre _]; [lia | lia |].
    rewrite Hrde, Hrtr, Hrre.
    replace (deopt_index e + 1 - 1) with (deopt_index e) by lia.
    replace (trampoline e + 1 - 1) with (trampoline e) by lia.
    reflexivity.
  - cbn [app] in Hrest1.
    rewrite (to_int_id (register_indexes e)) in Hrest1 by (unfold int_min; lia).
    destruct (read_bytes_emit t (ptr0 + pc_size s) (register_indexes e)
                (register_indexes_size s) _ ltac:(lia) Hr Hrest1)
      as [Hrre _]; [lia | lia |].
    rewrite Hrre.
    pose proof (no_deopt_data_entry e Hhas He) as Hde.
    rewrite Hde, (Hno Hde). reflexivity.
Qed.
End EmittedTable.

(** ** The bitmap of an entry *)

Lemma div_mod_8_eq a b :
  a / 8 = b / 8 -> a mod 8 = b mod 8 -> a = b.
Proof.
  intros Hq Hr. rewrite (Z.div_mod a 8), (Z.div_mod b 8) by lia.
  rewrite Hq, Hr. reflexivity.
Qed.

Lemma set_slot_bit_spec tagged_slots_size bits idx index :
  0 <= idx < tagged_slots_size ->
  tagged_slots_size <= int_max ->
  tagged_slots_size <= 8 * Z.of_nat (length bits) ->
  0 <= index ->
  bitmap_bit (set_slot_bit tagged_slots_size bits idx) index =
  bitmap_bit bits index || (index =? tagged_slots_size - 1 - idx).
Proof.
  intros Hidx Hmax Hlen Hindex. unfold set_slot_bit, bitmap_bit.
  rewrite to_int_id by (unfold int_min, int_max in *; lia).
  set (index0 := tagged_slots_size - 1 - idx).
  assert (Hi0 : 0 <= index0 < 8 * Z.of_nat (length bits))
    by (unfold index0; lia).
  change kBitsPerByteLog2 with 3. change (kBitsPerByte - 1) with (Z.ones 3).
  rewrite Z.shiftr_div_pow2, Z.land_ones by lia. change (2 ^ 3) with 8.
  assert (Hq0 : 0 <= index0 / 8 < Z.of_nat (length bits)).
  { split; [apply Z.div_pos; lia | apply Z.div_lt_upper_bound; lia]. }
  assert (Hr0 : 0 <= index0 mod 8 < 8) by (apply Z.mod_pos_bound; lia).
  assert (Hr : 0 <= index mod 8 < 8) by (apply Z.mod_pos_bound; lia).
  assert (Hq : 0 <= index / 8) by (apply Z.div_pos; lia).
  unfold or_byte.
  destruct (index0 / 8 <? 0) eqn:Hneg; [apply Z.ltb_lt in Hneg; lia |].
  replace (0 <=? index) with true by (symmetry; apply Z.leb_le; exact Hindex).
  cbn [andb].
  destruct (Z.eq_dec (index / 8) (index0 / 8)) as [Heq | Hne].
  - rewrite Heq, list_lookup_alter_eq.
    destruct (lookup_lt_is_Some_2 bits (Z.to_nat (index0 / 8)) ltac:(lia))
      as [b Hb].
    rewrite Hb. cbn [fmap option_fmap option_map default from_option id].
    unfold to_uint8. rewrite Z.mod_pow2_bits_low by lia.
    rewrite Z.lor_spec. f_equal.
    rewrite Z.shiftl_1_l, Z.pow2_bits_eqb by lia.
    destruct (Z.eqb_spec index index0) as [-> | Hneq].
    + apply Z.eqb_refl.
    + apply Z.eqb_neq. intros Hmod. apply Hneq.
      apply div_mod_8_eq; [exact Heq | symmetry; exact Hmod].
  - rewrite list_lookup_alter_ne by lia.
    replace (index =? index0) with false; [rewrite orb_false_r; reflexivity |].
    symmetry. apply Z.eqb_neq. intros ->. apply Hne. reflexivity.
Qed.

Lemma fold_set_slot_bit_spec tagged_slots_size index l : forall bits,
  Forall (fun idx => 0 <= idx < tagged_slots_size) l ->
  tagged_slots_size <= int_max ->
  tagged_slots_size <= 8 * Z.of_nat (length bits) ->
  0 <= index ->
  bitmap_bit (fold_left (set_slot_bit tagged_slots_size) l bits) index =
  bitmap_bit bits index ||
  existsb (fun idx => index =? tagged_slots_size - 1 - idx) l.
Proof.
  induction l as [|idx l IH]; intros bits Hall Hmax Hlen Hindex; simpl.
  { rewrite orb_false_r. reflexivity. }
  inversion Hall as [|? ? Hidx Hrest]; subst.
  rewrite IH; try assumption.
  - rewrite set_slot_bit_spec by assumption. rewrite orb_assoc. reflexivity.
  - unfold set_slot_bit. rewrite or_byte_length. exact Hlen.
Qed.

Lemma bitmap_bit_zeros n index : bitmap_bit (replicate n 0) index = false.
Proof.
  unfold bitmap_bit.
  destruct (replicate n 0 !! Z.to_nat (index / 8)) as [b|] eqn:Hb.
  - apply lookup_replicate in Hb as [-> _]. simpl.
    rewrite Z.bits_0. apply andb_false_r.
  - simpl. rewrite Z.bits_0. apply andb_false_r.
Qed.

(** The bits of the bitmap are the positions of the entry's slots. *)
Lemma emit_bitmap_bit s tagged_slots_size e index :
  Forall (fun idx => 0 <= idx < tagged_slots_size) (stack_indexes e) ->
  tagged_slots_size <= int_max ->
  tagged_slots_size <= 8 * tagged_slots_bytes s ->
  0 <= index ->
  bitmap_bit (emit_bitmap s tagged_slots_size e) index =
  existsb (fun idx => index =? tagged_slots_size - 1 - idx) (stack_indexes e).
Proof.
  intros Hall Hmax Hlen Hindex. rewrite emit_bitmap_build. unfold build_bitmap.
  rewrite fold_set_slot_bit_spec; try assumption.
  - rewrite bitmap_bit_zeros. reflexivity.
  - rewrite length_replicate. lia.
Qed.

(** Decoding the bitmap against the size it was written for gives back
    the entry's slot indexes. *)
Lemma slot_is_tagged_emit_bitmap s tagged_slots_size e slot :
  Forall (fun idx => 0 <= idx < tagged_slots_size) (stack_indexes e) ->
  tagged_slots_size <= int_max ->
  tagged_slots_size <= 8 * tagged_slots_bytes s ->
  slot_is_tagged tagged_slots_size (emit_bitmap s tagged_slots_size e) slot = true
  <-> slot ∈ stack_indexes e.
Proof.
  intros Hall Hmax Hlen. unfold slot_is_tagged.
  destruct (Z.leb_spec 0 slot) as [Hs | Hs]; cbn [andb].
  2: { split; [discriminate |]. intros Hin.
       rewrite Forall_forall in Hall. apply Hall in Hin. lia. }
  destruct (Z.le_gt_cases 0 (tagged_slots_size - 1 - slot)) as [Hi | Hi].
  - rewrite emit_bitmap_bit by assumption.
    rewrite existsb_exists. split.
    + intros (idx & Hin & Heq). apply Z.eqb_eq in Heq.
      replace slot with idx by lia. apply list_elem_of_In, Hin.
    + intros Hin. exists slot. split; [apply list_elem_of_In, Hin |].
      apply Z.eqb_refl.
  - unfold bitmap_bit.
    replace (0 <=? tagged_slots_size - 1 - slot) with false
      by (symmetry; apply Z.leb_gt; lia).
    cbn [andb]. split; [discriminate |]. intros Hin.
    rewrite Forall_forall in Hall. apply Hall in Hin. lia.
Qed.

Lemma tagged_slots_bytes_spec entries_ tagged_slots_size :
  0 <= tagged_slots_size <= int_max ->
  0 <= tagged_slots_bytes (field_sizes entries_ tagged_slots_size) ->
  tagged_slots_size + 7 <= int_max /\
  tagged_slots_bytes (field_sizes entries_ tagged_slots_size) =
    (tagged_slots_size + 7) / 8.
Proof.
  unfold field_sizes. cbn [tagged_slots_bytes]. change kBitsPerByte with 8.
  replace (tagged_slots_size + 8 - 1) with (tagged_slots_size + 7) by lia.
  intros Htss Hnn.
  destruct (Z.le_gt_cases (tagged_slots_size + 7) int_max) as [Hle | Hgt].
  - split; [exact Hle |].
    rewrite to_int_id by (unfold int_min, int_max in *; lia).
    apply Z.quot_div_nonneg; lia.
  - exfalso. unfold to_int, int_max in *.
    replace (tagged_slots_size + 7 + 2 ^ 31)
      with (tagged_slots_size + 7 - 2 ^ 31 + 1 * 2 ^ 32) in Hnn by lia.
    rewrite Z.mod_add, Z.mod_small in Hnn by lia.
    assert (H : tagged_slots_size + 7 - 2 ^ 31 - 2 ^ 31 <= -1 * 8) by lia.
    pose proof (Z.quot_le_mono _ _ 8 ltac:(lia) H) as Hq.
    rewrite Z.quot_mul in Hq by lia. lia.
Qed.

(** ** What the DEBUG block of Emit guarantees *)

Lemma debug_loop_spec back_pc entries_ : forall last_pc last_trampoline,
  debug_loop back_pc entries_ last_pc last_trampoline = true ->
  StronglySorted pc_lt entries_ /\
  Forall (fun e => last_pc < pc e) entries_ /\
  Forall (fun e => trampoline e = -1 \/ back_pc < trampoline e) entries_ /\
  Forall (fun e => trampoline e = -1 <-> deopt_index e = -1) entries_.
Proof.
  induction entries_ as [|e rest IH]; intros last_pc last_trampoline Hloop.
  { repeat split; constructor. }
  cbn [debug_loop] in Hloop.
  apply andb_prop in Hloop as [Hloop Hrest].
  apply andb_prop in Hloop as [Hloop Hpair].
  apply andb_prop in Hloop as [Hpc Htr].
  apply Z.ltb_lt in Hpc. apply eqb_prop in Hpair.
  destruct (IH _ _ Hrest) as (Hsorted & Hlow & Hback & Hboth).
  repeat split.
  - constructor; [exact Hsorted |]. exact Hlow.
  - constructor; [exact Hpc |].
    eapply Forall_impl; [exact Hlow |]. simpl. intros; lia.
  - constructor; [| exact Hback].
    change kNoTrampolinePC with (-1) in Htr.
    destruct (Z.eqb_spec (trampoline e) (-1)) as [Heq | Hne];
      [left; exact Heq | right].
    simpl in Htr. apply andb_prop in Htr as [_ Htr].
    apply Z.ltb_lt in Htr. exact Htr.
  - constructor; [| exact Hboth].
    change kNoTrampolinePC with (-1) in Hpair.
    change kNoDeoptIndex with (-1) in Hpair.
    rewrite <- !Z.eqb_eq, Hpair. reflexivity.
Qed.

Lemma sorted_last_largest entries_ h b :
  StronglySorted pc_lt entries_ ->
  h ∈ entries_ -> last entries_ = Some b -> pc h <= pc b.
Proof.
  intros Hsorted Hh Hlast.
  apply last_Some in Hlast as [l' ->].
  apply elem_of_app in Hh as [Hh | Hh].
  - pose proof (StronglySorted_app_1_elem_of pc_lt l' [b] h b Hsorted Hh
                  ltac:(apply list_elem_of_singleton; reflexivity)) as Hlt.
    unfold pc_lt in Hlt. lia.
  - apply list_elem_of_singleton in Hh as ->. lia.
Qed.

Lemma sorted_pc_lower_bound entries_ : forall lo k e,
  StronglySorted pc_lt entries_ ->
  Forall (fun e => lo < pc e) entries_ ->
  entries_ !! k = Some e -> lo + Z.of_nat k < pc e.
Proof.
  induction entries_ as [|x rest IH]; intros lo k e Hsorted Hlow Hk;
    [discriminate |].
  apply StronglySorted_inv in Hsorted as [Hsorted Hx].
  inversion Hlow as [|? ? Hlx _]; subst.
  destruct k as [|k]; simpl in Hk.
  - injection Hk as ->. lia.
  - pose proof (IH (pc x) k e Hsorted Hx Hk). lia.
Qed.

(** The facts the theorems use, out of the boolean preconditions. *)
Lemma Emit_debug_checks_spec entries_ :
  Emit_debug_checks entries_ = true ->
  StronglySorted pc_lt entries_ /\
  Forall (fun e => 0 <= pc e) entries_ /\
  Forall (fun e => trampoline e = -1 \/
                   Forall (fun h => pc h < trampoline e) entries_) entries_ /\
  Forall (fun e => trampoline e = -1 <-> deopt_index e = -1) entries_.
Proof.
  unfold Emit_debug_checks. intros Hloop.
  destruct (debug_loop_spec _ _ _ _ Hloop) as (Hsorted & Hlow & Hback & Hboth).
  split; [exact Hsorted |]. split; [| split; [| exact Hboth]].
  - eapply Forall_impl; [exact Hlow |]. simpl. intros; lia.
  - rewrite Forall_forall in Hback. apply Forall_forall. intros e He.
    destruct (Hback e He) as [Hno | Hgt]; [left; exact Hno | right].
    apply Forall_forall. intros h Hh.
    destruct (last entries_) as [b|] eqn:Hlast.
    + pose proof (sorted_last_largest _ h b Hsorted Hh Hlast).
      simpl in Hgt. lia.
    + apply last_None in Hlast. subst. inversion Hh.
Qed.

Lemma sorted_length_bound entries_ :
  StronglySorted pc_lt entries_ ->
  Forall (fun e => 0 <= pc e < int_max) entries_ ->
  Z.of_nat (length entries_) <= int_max.
Proof.
  intros Hsorted Hrange.
  destruct (last entries_) as [b|] eqn:Hlast.
  - pose proof Hlast as Hlookup. rewrite last_lookup in Hlookup.
    pose proof (sorted_pc_lower_bound entries_ (-1)
                  (Nat.pred (length entries_)) b Hsorted) as Hlow.
    rewrite Forall_forall in Hrange.
    pose proof (Hrange b (list_elem_of_lookup_2 _ _ _ Hlookup)).
    specialize (Hlow ltac:(apply Forall_forall; intros x Hx;
                           apply Hrange in Hx; lia) Hlookup).
    destruct entries_; [discriminate |]. simpl in *. lia.
  - apply last_None in Hlast. subst. simpl. unfold int_max. lia.
Qed.

(** ** RemoveDuplicates on a sorted builder *)

Lemma collapse_runs_from_sorted rest : forall head,
  StronglySorted pc_lt (head :: rest) ->
  StronglySorted pc_lt (head :: collapse_runs_from head rest).
Proof.
  induction rest as [|x rest IH]; intros head Hsorted; [exact Hsorted |].
  apply StronglySorted_inv in Hsorted as [Hrest Hhead].
  pose proof Hrest as Hrest'.
  apply StronglySorted_inv in Hrest' as [Hrest'' Hx].
  inversion Hhead as [|? ? Hhx Hhrest]; subst.
  simpl. destruct (is_identical_except_for_pc x head).
  - apply IH. constructor; assumption.
  - specialize (IH x Hrest). constructor; [exact IH |].
    constructor; [exact Hhx |].
    apply Forall_forall. intros y Hy.
    apply collapse_runs_from_subset in Hy.
    rewrite Forall_forall in Hhrest. apply Hhrest, Hy.
Qed.

Lemma collapse_runs_sorted entries_ :
  StronglySorted pc_lt entries_ -> StronglySorted pc_lt (collapse_runs entries_).
Proof.
  destruct entries_ as [|head rest]; [intros H; exact H |].
  apply collapse_runs_from_sorted.
Qed.



(** ** TrimEntries, in general *)

Lemma shift_entry_zero e :
  Forall (fun idx => int_min <= idx <= int_max) (stack_indexes e) ->
  shift_entry 0 e = e.
Proof.
  destruct e as [p d t l r]. unfold shift_entry. simpl. intros Hall.
  f_equal. induction Hall as [|idx l Hidx _ IH]; [reflexivity |].
  simpl. rewrite IH, Z.sub_0_r, to_int_id by exact Hidx. reflexivity.
Qed.

Lemma all_stack_indexes_elem entries_ e idx :
  e ∈ entries_ -> idx ∈ stack_indexes e -> idx ∈ all_stack_indexes entries_.
Proof.
  intros He Hidx. unfold all_stack_indexes.
  apply list_elem_of_In, in_concat. exists (stack_indexes e).
  split; [| apply list_elem_of_In, Hidx].
  apply in_map, list_elem_of_In, He.
Qed.

Lemma stack_indexes_shift m e :
  Forall (fun idx => m <= idx <= int_max) (stack_indexes e) -> 0 <= m ->
  stack_indexes (shift_entry m e) = map (fun idx => idx - m) (stack_indexes e).
Proof.
  intros Hall Hm. unfold shift_entry. cbn [stack_indexes].
  induction Hall as [|idx l Hidx _ IH]; [reflexivity |].
  simpl. rewrite IH, to_int_id; [reflexivity |].
  unfold int_min, int_max in *. lia.
Qed.

(** Whatever the pass does, it moves every index down by one amount
    [m], which is at most every index, and the size with them. *)
Lemma TrimEntries_shift entries_ tagged_slots_size :
  0 <= tagged_slots_size <= int_max ->
  Forall (fun idx => 0 <= idx < tagged_slots_size) (all_stack_indexes entries_) ->
  exists m,
    0 <= m <= tagged_slots_size /\
    Forall (fun idx => m <= idx) (all_stack_indexes entries_) /\
    TrimEntries entries_ tagged_slots_size =
      (map (shift_entry m) entries_, tagged_slots_size - m).
Proof.
  intros Htss Hrange.
  assert (Hzero : map (shift_entry 0) entries_ = entries_).
  { rewrite <- (map_id entries_) at 2. apply map_ext_in. intros e He.
    apply shift_entry_zero, Forall_forall. intros idx Hidx.
    rewrite Forall_forall in Hrange.
    pose proof (Hrange idx (all_stack_indexes_elem _ e idx
                              (proj2 (list_elem_of_In _ _) He) Hidx)).
    unfold int_min, int_max in *. lia. }
  unfold TrimEntries.
  destruct (Z.eqb_spec tagged_slots_size 0) as [Hz | Hnz].
  { exists 0. split; [lia |]. split.
    - eapply Forall_impl; [exact Hrange |]. simpl. intros; lia.
    - rewrite Hzero, Z.sub_0_r. reflexivity. }
  rewrite scan_entries_flat.
  pose proof (scan_indexes_spec (all_stack_indexes entries_)
                tagged_slots_size ltac:(lia)) as Hspec.
  destruct (scan_indexes _ _) as [m|].
  - destruct Hspec as (Hm & Hall & _).
    { eapply Forall_impl; [exact Hrange |]. simpl. intros; lia. }
    exists m. split; [lia |]. split; [exact Hall |].
    rewrite to_int_id by (unfold int_min, int_max in *; lia). reflexivity.
  - exists 0. split; [lia |]. split.
    + eapply Forall_impl; [exact Hrange |]. simpl. intros; lia.
    + rewrite Hzero, Z.sub_0_r. reflexivity.
Qed.

Lemma Emit_unfold fb entries_ tagged_slots_size :
  Emit fb entries_ tagged_slots_size =
  EmitTable fb (emitted_entries entries_ tagged_slots_size)
               (emitted_slots_size entries_ tagged_slots_size).
Proof.
  unfold Emit, emitted_entries, emitted_slots_size.
  destruct (TrimEntries _ _). reflexivity.
Qed.

(** ** Emit, then the reader *)

Lemma slots_in_range_spec tagged_slots_size entries_ :
  slots_in_range tagged_slots_size entries_ = true ->
  Forall (fun idx => 0 <= idx < tagged_slots_size) (all_stack_indexes entries_).
Proof.
  unfold slots_in_range. rewrite forallb_forall. intros Hall.
  apply Forall_forall. intros idx Hidx.
  apply list_elem_of_In, in_concat in Hidx as (l & Hl & Hidx).
  apply in_map_iff in Hl as (e & <- & He).
  specialize (Hall e He). rewrite forallb_forall in Hall.
  specialize (Hall idx Hidx).
  apply andb_prop in Hall as [H0 H1].
  apply Z.leb_le in H0. apply Z.ltb_lt in H1. lia.
Qed.

Lemma all_stack_indexes_subset (l1 l2 : Entries) idx :
  (forall e, e ∈ l1 -> e ∈ l2) ->
  idx ∈ all_stack_indexes l1 -> idx ∈ all_stack_indexes l2.
Proof.
  intros Hsub Hidx.
  apply list_elem_of_In, in_concat in Hidx as (l & Hl & Hidx).
  apply in_map_iff in Hl as (e & <- & He).
  apply (all_stack_indexes_elem l2 e idx).
  - apply Hsub, list_elem_of_In, He.
  - apply list_elem_of_In, Hidx.
Qed.

Lemma entry_in_range_shift m e :
  entry_in_range (shift_entry m e) = entry_in_range e.
Proof. reflexivity. Qed.

Lemma StronglySorted_lookup_lt (l : Entries) : forall i j x y,
  StronglySorted pc_lt l -> (i < j)%nat ->
  l !! i = Some x -> l !! j = Some y -> pc x < pc y.
Proof.
  induction l as [|a l IH]; intros i j x y Hsorted Hij Hi Hj; [discriminate |].
  apply StronglySorted_inv in Hsorted as [Hsorted Ha].
  destruct j as [|j]; [lia |]. simpl in Hj.
  destruct i as [|i]; simpl in Hi.
  - injection Hi as ->. rewrite Forall_forall in Ha.
    apply Ha, (list_elem_of_lookup_2 _ _ _ Hj).
  - apply (IH i j x y Hsorted); [lia | assumption | assumption].
Qed.

Section Pipeline.
Variable fb : FieldBits.
Hypothesis fb_ok : FieldBits_ok fb.
Variable entries_ : Entries.
Variable tagged_slots_size : Z.
Variable bytes : list Z.
Variable instruction_start : Z.
Hypothesis Hpre : Emit_preconditions entries_ tagged_slots_size = true.
Hypothesis Hemit : Emit fb entries_ tagged_slots_size = Some bytes.

Local Abbreviation kept := (RemoveDuplicates entries_).
Local Abbreviation m := (trim_amount entries_ tagged_slots_size).
Local Abbreviation size2 := (emitted_slots_size entries_ tagged_slots_size).
Local Abbreviation entries2 := (emitted_entries entries_ tagged_slots_size).
Local Abbreviation s := (field_sizes entries2 size2).
Local Abbreviation t := (SafepointTable_new instruction_start bytes).

Lemma preconditions_spec :
  Emit_debug_checks entries_ = true /\
  forallb entry_in_range entries_ = true /\
  0 <= tagged_slots_size <= int_max /\
  Forall (fun idx => 0 <= idx < tagged_slots_size) (all_stack_indexes entries_).
Proof.
  clear Hemit fb_ok. unfold Emit_preconditions in Hpre.
  repeat (apply andb_prop in Hpre; destruct Hpre as [Hpre ?]).
  repeat match goal with
         | H : (_ <=? _) = true |- _ => apply Z.leb_le in H
         end.
  repeat split; try assumption; try lia.
  apply slots_in_range_spec. assumption.
Qed.

Lemma kept_subset e : e ∈ kept -> e ∈ entries_.
Proof. apply RemoveDuplicates_subset. Qed.

Lemma kept_slots_in_range :
  Forall (fun idx => 0 <= idx < tagged_slots_size) (all_stack_indexes kept).
Proof.
  destruct preconditions_spec as (_ & _ & _ & Hslots).
  rewrite Forall_forall in Hslots. apply Forall_forall. intros idx Hidx.
  apply Hslots. apply (all_stack_indexes_subset kept entries_ idx kept_subset).
  exact Hidx.
Qed.

Lemma trim_facts :
  0 <= m <= tagged_slots_size /\
  Forall (fun idx => m <= idx) (all_stack_indexes kept) /\
  entries2 = map (shift_entry m) kept /\
  size2 = tagged_slots_size - m.
Proof.
  destruct preconditions_spec as (_ & _ & Htss & _).
  destruct (TrimEntries_shift kept tagged_slots_size Htss kept_slots_in_range)
    as (m' & Hm' & Hall & Htrim).
  unfold trim_amount, emitted_slots_size, emitted_entries. rewrite Htrim.
  cbn [fst snd].
  replace (tagged_slots_size - (tagged_slots_size - m')) with m' by lia.
  repeat split; try assumption; lia.
Qed.

Lemma entries2_lookup k h :
  kept !! k = Some h -> entries2 !! k = Some (shift_entry m h).
Proof.
  intros Hk. destruct trim_facts as (_ & _ & -> & _).
  rewrite list_lookup_fmap, Hk. reflexivity.
Qed.

Lemma entries2_length : length entries2 = length kept.
Proof.
  destruct trim_facts as (_ & _ & -> & _). apply length_map.
Qed.

Lemma kept_in_range e :
  e ∈ kept ->
  0 <= pc e < int_max /\ -1 <= trampoline e < int_max /\
  -1 <= deopt_index e < int_max /\ 0 <= register_indexes e <= int_max.
Proof.
  intros He. destruct preconditions_spec as (_ & Hrange & _).
  rewrite forallb_forall in Hrange.
  apply entry_in_range_spec, Hrange, list_elem_of_In, kept_subset, He.
Qed.

Lemma entries2_in_range : forallb entry_in_range entries2 = true.
Proof.
  destruct trim_facts as (_ & _ & -> & _).
  apply forallb_forall. intros e He.
  apply in_map_iff in He as (h & <- & Hh).
  rewrite entry_in_range_shift. apply entry_in_range_spec.
  apply kept_in_range, list_elem_of_In, Hh.
Qed.

Lemma kept_sorted : StronglySorted pc_lt kept.
Proof.
  destruct preconditions_spec as (Hdebug & _).
  destruct (Emit_debug_checks_spec _ Hdebug) as (Hsorted & _).
  rewrite RemoveDuplicates_collapse_runs. apply collapse_runs_sorted, Hsorted.
Qed.

Lemma kept_length_bound : Z.of_nat (length kept) <= int_max.
Proof.
  apply sorted_length_bound; [apply kept_sorted |].
  apply Forall_forall. intros e He.
  destruct (kept_in_range e He) as (H & _). exact H.
Qed.

Lemma emitted_table :
  EmitTable fb entries2 size2 = Some bytes.
Proof. rewrite <- Emit_unfold. exact Hemit. Qed.

Lemma size2_bytes :
  0 <= size2 <= int_max /\ size2 <= 8 * tagged_slots_bytes s.
Proof.
  destruct trim_facts as (Hm & _ & _ & Hsize).
  destruct preconditions_spec as (_ & _ & Htss & _).
  assert (Hs2 : 0 <= size2 <= int_max) by lia.
  split; [exact Hs2 |].
  pose proof (emitted_sizes_nonneg fb entries2 size2 bytes emitted_table)
    as (_ & _ & _ & Hnn).
  destruct (tagged_slots_bytes_spec entries2 size2 Hs2 Hnn) as [_ ->].
  pose proof (Z.div_mod (size2 + 7) 8 ltac:(lia)).
  pose proof (Z.mod_pos_bound (size2 + 7) 8 ltac:(lia)). lia.
Qed.

(** What [GetEntry] returns for the [k]-th kept entry. *)
Lemma GetEntry_pipeline k h :
  kept !! k = Some h ->
  GetEntry fb t (Z.of_nat k) = entry_view s size2 (shift_entry m h).
Proof.
  intros Hk.
  apply (GetEntry_emitted fb fb_ok entries2 size2 bytes instruction_start
           emitted_table entries2_in_range).
  - rewrite entries2_length. apply kept_length_bound.
  - apply entries2_lookup, Hk.
  - destruct preconditions_spec as (Hdebug & _).
    destruct (Emit_debug_checks_spec _ Hdebug) as (_ & _ & _ & Hboth).
    rewrite Forall_forall in Hboth.
    apply (Hboth h (kept_subset h (list_elem_of_lookup_2 _ _ _ Hk))).
Qed.

Lemma pipeline_length : length_ t = Z.of_nat (length kept).
Proof.
  rewrite (emitted_length fb entries2 size2 bytes instruction_start
             emitted_table).
  - rewrite entries2_length. reflexivity.
  - rewrite entries2_length. apply kept_length_bound.
Qed.


End Pipeline.

Section PipelineLookup.
Variable fb : FieldBits.
Hypothesis fb_ok : FieldBits_ok fb.
Variable entries_ : Entries.
Variable tagged_slots_size : Z.
Variable bytes : list Z.
Variable instruction_start : Z.
Hypothesis Hpre : Emit_preconditions entries_ tagged_slots_size = true.
Hypothesis Hemit : Emit fb entries_ tagged_slots_size = Some bytes.

Local Abbreviation kept := (RemoveDuplicates entries_).
Local Abbreviation m := (trim_amount entries_ tagged_slots_size).
Local Abbreviation size2 := (emitted_slots_size entries_ tagged_slots_size).
Local Abbreviation entries2 := (emitted_entries entries_ tagged_slots_size).
Local Abbreviation s := (field_sizes entries2 size2).
Local Abbreviation t := (SafepointTable_new instruction_start bytes).

Lemma GetEntry_pipeline_Z i :
  0 <= i < length_ t ->
  exists h, kept !! Z.to_nat i = Some h /\
            GetEntry fb t i = entry_view s size2 (shift_entry m h).
Proof.
  intros Hi.
  rewrite (pipeline_length fb entries_ tagged_slots_size bytes
             instruction_start Hpre Hemit) in Hi.
  destruct (lookup_lt_is_Some_2 kept (Z.to_nat i) ltac:(lia)) as [h Hh].
  exists h. split; [exact Hh |].
  rewrite <- (Z2Nat.id i) at 1 by lia.
  apply (GetEntry_pipeline fb fb_ok entries_ tagged_slots_size bytes
           instruction_start Hpre Hemit), Hh.
Qed.


(** Every trampoline of the table is above every pc of the builder. *)
Lemma pipeline_trampolines j e :
  0 <= j < length_ t -> e ∈ entries_ ->
  trampoline_pc_ (GetEntry fb t j) = -1 \/
  pc e < trampoline_pc_ (GetEntry fb t j).
Proof.
  intros Hj He.
  destruct (GetEntry_pipeline_Z j Hj) as (x & Hx & ->).
  cbn [entry_view trampoline_pc_ shift_entry trampoline].
  destruct (preconditions_spec entries_ tagged_slots_size Hpre)
    as (Hdebug & _).
  destruct (Emit_debug_checks_spec _ Hdebug) as (_ & _ & Htr & _).
  rewrite Forall_forall in Htr.
  destruct (Htr x (kept_subset entries_ x (list_elem_of_lookup_2 _ _ _ Hx)))
    as [Hno | Hall]; [left; exact Hno | right].
  rewrite Forall_forall in Hall. apply Hall, He.
Qed.

End PipelineLookup.

(** * The claims *)





(** ** More on the run collapse *)

Lemma is_identical_except_for_pc_congr x h h' :
  is_identical_except_for_pc h h' = true ->
  is_identical_except_for_pc x h = is_identical_except_for_pc x h'.
Proof.
  intros Hh. apply is_identical_except_for_pc_spec in Hh as (Hd & Hs & Hr).
  destruct (is_identical_except_for_pc x h) eqn:E1;
    destruct (is_identical_except_for_pc x h') eqn:E2; try reflexivity.
  - apply is_identical_except_for_pc_spec in E1 as (? & ? & ?).
    assert (is_identical_except_for_pc x h' = true) as E
      by (apply is_identical_except_for_pc_spec; repeat split; congruence).
    congruence.
  - apply is_identical_except_for_pc_spec in E2 as (? & ? & ?).
    assert (is_identical_except_for_pc x h = true) as E
      by (apply is_identical_except_for_pc_spec; repeat split; congruence).
    congruence.
Qed.

(** The second of two consecutive identical entries is merged away. *)
Lemma collapse_runs_from_merge before : forall head e1 e2 after,
  is_identical_except_for_pc e2 e1 = true ->
  collapse_runs_from head (before ++ e1 :: e2 :: after) =
  collapse_runs_from head (before ++ e1 :: after).
Proof.
  induction before as [|b before IH]; intros head e1 e2 after Hid.
  - cbn [app collapse_runs_from].
    destruct (is_identical_except_for_pc e1 head) eqn:H1.
    + rewrite (is_identical_except_for_pc_congr e2 e1 head H1) in Hid.
      rewrite Hid. reflexivity.
    + rewrite Hid. reflexivity.
  - cbn [app collapse_runs_from].
    destruct (is_identical_except_for_pc b head);
      rewrite IH by exact Hid; reflexivity.
Qed.

Lemma collapse_runs_merge before e1 e2 after :
  is_identical_except_for_pc e2 e1 = true ->
  collapse_runs (before ++ e1 :: e2 :: after) =
  collapse_runs (before ++ e1 :: after).
Proof.
  intros Hid. destruct before as [|b before].
  - cbn [app collapse_runs collapse_runs_from]. rewrite Hid. reflexivity.
  - cbn [app collapse_runs]. rewrite collapse_runs_from_merge by exact Hid.
    reflexivity.
Qed.

(** Two adjacent entries of the result are never identical: the runs
    are maximal. *)
Lemma collapse_runs_from_adjacent rest : forall head i h h',
  (head :: collapse_runs_from head rest) !! i = Some h ->
  (head :: collapse_runs_from head rest) !! S i = Some h' ->
  is_identical_except_for_pc h' h = false.
Proof.
  induction rest as [|x rest IH]; intros head i h h' Hi Hsi.
  { destruct i; discriminate. }
  simpl in Hi, Hsi.
  destruct (is_identical_except_for_pc x head) eqn:Hid.
  - apply (IH head i h h'); assumption.
  - destruct i as [|i].
    + simpl in Hi, Hsi. injection Hi as <-. injection Hsi as <-. exact Hid.
    + apply (IH x i h h'); assumption.
Qed.

Lemma collapse_runs_adjacent entries_ i h h' :
  collapse_runs entries_ !! i = Some h ->
  collapse_runs entries_ !! S i = Some h' ->
  is_identical_except_for_pc h' h = false.
Proof.
  destruct entries_ as [|head rest]; [discriminate |].
  apply collapse_runs_from_adjacent.
Qed.

(** ** A table with one entry *)





(** C5 (amended).  Two consecutive entries are merged when they have the
    same deopt index, the same register mask and index collections that
    are equal element by element, in registration order: that is what
    [is_identical_except_for_pc] tests, and [RemoveDuplicates] then drops
    the second entry. *)
Theorem RemoveDuplicates_merges_equal_index_lists :
  (forall e1 e2,
     is_identical_except_for_pc e2 e1 = true <->
     deopt_index e2 = deopt_index e1 /\
     stack_indexes e2 = stack_indexes e1 /\
     register_indexes e2 = register_indexes e1) /\
  (forall before e1 e2 after,
     deopt_index e1 = deopt_index e2 ->
     register_indexes e1 = register_indexes e2 ->
     stack_indexes e1 = stack_indexes e2 ->
     RemoveDuplicates (before ++ e1 :: e2 :: after) =
     RemoveDuplicates (before ++ e1 :: after)).
Proof.
  split.
  - intros e1 e2. apply is_identical_except_for_pc_spec.
  - intros before e1 e2 after Hd Hr Hs.
    rewrite !RemoveDuplicates_collapse_runs. apply collapse_runs_merge.
    apply is_identical_except_for_pc_spec. repeat split; congruence.
Qed.

Lemma RemoveDuplicates_merges_equal_index_lists_witness :
  RemoveDuplicates
    ([EntryBuilder_new 0] ++
     MkEntryBuilder 4 (-1) (-1) [0; 2] 1 ::
     MkEntryBuilder 8 (-1) (-1) [0; 2] 1 :: [EntryBuilder_new 12]) =
  RemoveDuplicates
    ([EntryBuilder_new 0] ++
     MkEntryBuilder 4 (-1) (-1) [0; 2] 1 :: [EntryBuilder_new 12]).
Proof.
  apply (proj2 RemoveDuplicates_merges_equal_index_lists
           [EntryBuilder_new 0] (MkEntryBuilder 4 (-1) (-1) [0; 2] 1)
           (MkEntryBuilder 8 (-1) (-1) [0; 2] 1) [EntryBuilder_new 12]);
    reflexivity.
Defined.

(** C5 as stated fails: the index lists [0; 2] and [2; 0] hold the same
    set, yet the two entries are both kept. *)
Lemma RemoveDuplicates_set_equal_counterexample :
  ~ (forall before e1 e2 after,
       deopt_index e1 = deopt_index e2 ->
       register_indexes e1 = register_indexes e2 ->
       (forall idx, idx ∈ stack_indexes e1 <-> idx ∈ stack_indexes e2) ->
       RemoveDuplicates (before ++ e1 :: e2 :: after) =
       RemoveDuplicates (before ++ e1 :: after)).
Proof.
  intros H.
  specialize (H [] (MkEntryBuilder 0 (-1) (-1) [0; 2] 0)
                (MkEntryBuilder 4 (-1) (-1) [2; 0] 0) []).
  assert (Hkeep : RemoveDuplicates
                    ([] ++ [MkEntryBuilder 0 (-1) (-1) [0; 2] 0;
                            MkEntryBuilder 4 (-1) (-1) [2; 0] 0]) =
                  [MkEntryBuilder 0 (-1) (-1) [0; 2] 0;
                   MkEntryBuilder 4 (-1) (-1) [2; 0] 0])
    by (vm_compute; reflexivity).
  rewrite Hkeep in H.
  assert (Hone : RemoveDuplicates ([] ++ [MkEntryBuilder 0 (-1) (-1) [0; 2] 0])
                 = [MkEntryBuilder 0 (-1) (-1) [0; 2] 0])
    by (vm_compute; reflexivity).
  rewrite Hone in H.
  assert (Habs : [MkEntryBuilder 0 (-1) (-1) [0; 2] 0;
                  MkEntryBuilder 4 (-1) (-1) [2; 0] 0] =
                 [MkEntryBuilder 0 (-1) (-1) [0; 2] 0]); [| discriminate Habs].
  apply H; try reflexivity.
  intros idx. cbn [stack_indexes]. rewrite !elem_of_cons. 
  split; intros [-> | [-> | Hnil]]; try inversion Hnil; tauto.
Qed.

(** The slots decoded from the bitmap written for a shifted entry. *)
Lemma decoded_bitmap_shift fb entries_ tagged_slots_size m bytes h slot :
  0 <= tagged_slots_size <= int_max ->
  Forall (fun idx => 0 <= idx < tagged_slots_size) (all_stack_indexes entries_) ->
  Forall (fun idx => m <= idx) (all_stack_indexes entries_) ->
  0 <= m <= tagged_slots_size ->
  EmitTable fb (map (shift_entry m) entries_) (tagged_slots_size - m)
    = Some bytes ->
  h ∈ entries_ ->
  slot_is_tagged (tagged_slots_size - m)
    (emit_bitmap (field_sizes (map (shift_entry m) entries_)
                              (tagged_slots_size - m))
       (tagged_slots_size - m) (shift_entry m h)) slot = true <->
  exists s0, s0 ∈ stack_indexes h /\ slot = s0 - m.
Proof.
  intros Htss Hrange Hmin Hm Htable Hh.
  set (size2 := tagged_slots_size - m) in *.
  assert (Hs2 : 0 <= size2 <= int_max) by (unfold size2; lia).
  pose proof (emitted_sizes_nonneg fb _ size2 bytes Htable)
    as (_ & _ & _ & Hnn).
  destruct (tagged_slots_bytes_spec _ size2 Hs2 Hnn) as [_ Htsb].
  assert (Hbytes : size2 <= 8 * tagged_slots_bytes
                     (field_sizes (map (shift_entry m) entries_) size2)).
  { rewrite Htsb. pose proof (Z.div_mod (size2 + 7) 8 ltac:(lia)).
    pose proof (Z.mod_pos_bound (size2 + 7) 8 ltac:(lia)). lia. }
  assert (Hidx : Forall (fun idx => m <= idx < tagged_slots_size)
                        (stack_indexes h)).
  { apply Forall_forall. intros idx Hidx.
    pose proof (all_stack_indexes_elem entries_ h idx Hh Hidx) as Hall.
    rewrite Forall_forall in Hmin, Hrange.
    specialize (Hmin idx Hall). specialize (Hrange idx Hall). lia. }
  assert (Hshift : stack_indexes (shift_entry m h) =
                   map (fun idx => idx - m) (stack_indexes h)).
  { apply stack_indexes_shift; [| lia].
    eapply Forall_impl; [exact Hidx |]. cbv beta. intros; lia. }
  rewrite slot_is_tagged_emit_bitmap; [| | lia | exact Hbytes].
  - rewrite Hshift. rewrite list_elem_of_fmap. split.
    + intros (s0 & -> & Hs0). exists s0. split; [exact Hs0 | reflexivity].
    + intros (s0 & Hs0 & ->). exists s0. split; [reflexivity | exact Hs0].
  - rewrite Hshift. apply Forall_map.
    eapply Forall_impl; [exact Hidx |]. unfold size2. cbv beta. intros; lia.
Qed.

(** C6.  Trimming.  Let [m] be the minimum slot index referenced by the
    entries left after deduplication.  If [m > 0], [TrimEntries]
    subtracts [m] from the size and from every slot index of every
    entry, [Emit] serializes these entries with the reduced size, and
    every slot decoded from an emitted bitmap (against the reduced size)
    is an original index minus [m].  If [m = 0], entries and size are
    unchanged and [Emit] writes what it would write without the trimming
    pass. *)
Theorem TrimEntries_trims_by_minimum fb entries_ tagged_slots_size m :
  0 <= tagged_slots_size <= int_max ->
  slots_in_range tagged_slots_size entries_ = true ->
  is_min_index (RemoveDuplicates entries_) m ->
  (0 < m ->
     let trimmed := map (shift_entry m) (RemoveDuplicates entries_) in
     let size2 := tagged_slots_size - m in
     TrimEntries (RemoveDuplicates entries_) tagged_slots_size
       = (trimmed, size2) /\
     (forall h, h ∈ RemoveDuplicates entries_ ->
        stack_indexes (shift_entry m h) =
        map (fun idx => idx - m) (stack_indexes h)) /\
     Emit fb entries_ tagged_slots_size = EmitTable fb trimmed size2 /\
     (forall bytes h slot,
        Emit fb entries_ tagged_slots_size = Some bytes ->
        h ∈ RemoveDuplicates entries_ ->
        slot_is_tagged size2
          (emit_bitmap (field_sizes trimmed size2) size2 (shift_entry m h))
          slot = true <->
        exists s0, s0 ∈ stack_indexes h /\ slot = s0 - m)) /\
  (m = 0 ->
     TrimEntries (RemoveDuplicates entries_) tagged_slots_size =
       (RemoveDuplicates entries_, tagged_slots_size) /\
     Emit fb entries_ tagged_slots_size =
       EmitTable fb (RemoveDuplicates entries_) tagged_slots_size).
Proof.
  intros Htss Hslots Hmin.
  assert (Hrange : Forall (fun idx => 0 <= idx < tagged_slots_size)
                     (all_stack_indexes (RemoveDuplicates entries_))).
  { pose proof (slots_in_range_spec _ _ Hslots) as Hall.
    rewrite Forall_forall in Hall. apply Forall_forall. intros idx Hidx.
    apply Hall.
    apply (all_stack_indexes_subset (RemoveDuplicates entries_) entries_ idx
             (RemoveDuplicates_subset entries_) Hidx). }
  split.
  - intros Hm. cbv zeta.
    pose proof (TrimEntries_positive_min _ _ m Hrange Hmin Hm) as Htrim.
    destruct Hmin as [Hin Hall].
    pose proof Hrange as Hrange'. pose proof Hall as Hall'.
    rewrite Forall_forall in Hrange', Hall'.
    pose proof (Hrange' m Hin) as Hmr.
    rewrite to_int_id in Htrim by (unfold int_min, int_max in *; lia).
    assert (Hemit_eq : Emit fb entries_ tagged_slots_size =
              EmitTable fb (map (shift_entry m) (RemoveDuplicates entries_))
                (tagged_slots_size - m)).
    { rewrite Emit_unfold. unfold emitted_entries, emitted_slots_size.
      rewrite Htrim. reflexivity. }
    split; [exact Htrim |]. split; [| split].
    + intros h Hh. apply stack_indexes_shift; [| lia].
      apply Forall_forall. intros idx Hidx.
      pose proof (all_stack_indexes_elem _ h idx Hh Hidx) as Hidx'.
      pose proof (Hrange' idx Hidx'). pose proof (Hall' idx Hidx'). lia.
    + exact Hemit_eq.
    + intros bytes h slot Hemit Hh. rewrite Hemit_eq in Hemit.
      apply (decoded_bitmap_shift fb (RemoveDuplicates entries_)
               tagged_slots_size m bytes h slot Htss Hrange Hall
               ltac:(lia) Hemit Hh).
  - intros ->.
    pose proof (TrimEntries_zero_min _ _ Hrange Hmin) as Htrim.
    split; [exact Htrim |].
    rewrite Emit_unfold. unfold emitted_entries, emitted_slots_size.
    rewrite Htrim. reflexivity.
Qed.

Lemma TrimEntries_trims_by_minimum_witness :
  TrimEntries (RemoveDuplicates round_trip_builder) 4 =
    (map (shift_entry 1) (RemoveDuplicates round_trip_builder), 4 - 1).
Proof.
  refine (proj1 (proj1 (TrimEntries_trims_by_minimum wide_bits
                          round_trip_builder 4 1 _ _ _) _)).
  - unfold int_max. lia.
  - vm_compute. reflexivity.
  - split.
    + vm_compute. apply elem_of_cons. left. reflexivity.
    + vm_compute. repeat constructor; discriminate.
  - lia.
Defined.

(** ** The CHECK of Emit *)

Lemma sizes_fit_iff fb s :
  sizes_fit fb s = true <->
  fits_bits (register_indexes_size_bits fb) (register_indexes_size s) /\
  fits_bits (pc_size_bits fb) (pc_size s) /\
  fits_bits (deopt_index_size_bits fb) (deopt_index_size s) /\
  fits_bits (tagged_slots_bytes_bits fb) (tagged_slots_bytes s).
Proof.
  unfold sizes_fit, is_valid, fits_bits. simpl.
  rewrite !andb_true_iff, !Z.leb_le, !Z.ltb_lt. tauto.
Qed.

(** C9.  [Emit] ends in the fatal [CHECK] exactly when one of the four
    derived widths does not fit the bits of its field in the
    configuration word; when all four fit it produces a table.  The
    check is not a [DCHECK]: no build flag enters the embedding of it. *)
Theorem Emit_fatal_iff_width_overflow fb entries_ tagged_slots_size :
  let s := field_sizes (emitted_entries entries_ tagged_slots_size)
                       (emitted_slots_size entries_ tagged_slots_size) in
  let all_fit :=
    fits_bits (register_indexes_size_bits fb) (register_indexes_size s) /\
    fits_bits (pc_size_bits fb) (pc_size s) /\
    fits_bits (deopt_index_size_bits fb) (deopt_index_size s) /\
    fits_bits (tagged_slots_bytes_bits fb) (tagged_slots_bytes s) in
  (Emit fb entries_ tagged_slots_size = None <-> ~ all_fit) /\
  (all_fit <-> exists bytes, Emit fb entries_ tagged_slots_size = Some bytes).
Proof.
  cbv zeta. rewrite Emit_unfold. unfold EmitTable.
  rewrite <- sizes_fit_iff.
  destruct (sizes_fit fb _); cbn [negb].
  - split; split.
    + discriminate.
    + intros H. exfalso. apply H. reflexivity.
    + intros _. eexists. reflexivity.
    + reflexivity.
  - split; split.
    + intros _ H. discriminate.
    + reflexivity.
    + discriminate.
    + intros [bytes H]. discriminate.
Qed.

(** ** The header and the records, without the builder's checks *)

Lemma Memory_uint32_configuration len word rest :
  0 <= word < 2 ^ 32 ->
  Memory_uint32 (dd len ++ dd word ++ rest) kEntryConfigurationOffset = word.
Proof.
  intros Hword. unfold Memory_uint32.
  change (take 4 (drop (Z.to_nat kEntryConfigurationOffset)
                    (dd len ++ dd word ++ rest))) with (dd word).
  rewrite le_value_dd. apply Z.mod_small, Hword.
Qed.

Lemma concat_all_nil {A} (l : list (list A)) :
  Forall (fun y => length y = 0%nat) l -> concat l = [].
Proof.
  induction 1 as [|y l Hy _ IH]; [reflexivity |].
  simpl. rewrite IH. destruct y; [reflexivity | discriminate].
Qed.

Lemma max_list_from_const d l :
  Forall (fun x => x = d) l -> max_list_from d l = d.
Proof. induction 1 as [|x l -> _ IH]; simpl; [reflexivity | lia]. Qed.

Lemma value_to_bytes_zero value :
  value_to_bytes value = 0 <-> value = 0.
Proof.
  unfold value_to_bytes. destruct (Z.eqb_spec value 0); [tauto |].
  repeat match goal with
         | |- context [?x <=? ?y] => destruct (Z.leb_spec x y)
         end; lia.
Qed.

(** C10.  With a non-empty tagged region and no entry that references a
    slot, [TrimEntries] takes the whole size off: the size [Emit] goes
    on with is 0, the bitmap width is 0, the configuration word of the
    emitted table encodes 0 bitmap bytes, and the table ends with its
    last entry record: there is no bitmap byte. *)
Theorem TrimEntries_no_slots_no_bitmaps fb entries_ tagged_slots_size :
  0 < tagged_slots_size ->
  Forall (fun e => stack_indexes e = []) entries_ ->
  let s := field_sizes (emitted_entries entries_ tagged_slots_size)
                       (emitted_slots_size entries_ tagged_slots_size) in
  TrimEntries (RemoveDuplicates entries_) tagged_slots_size =
    (RemoveDuplicates entries_, 0) /\
  tagged_slots_bytes s = 0 /\
  forall bytes,
    Emit fb entries_ tagged_slots_size = Some bytes ->
    bytes = dd (to_int (Z.of_nat (length (RemoveDuplicates entries_)))) ++
            dd (entry_configuration fb s) ++
            concat (map (emit_entry s) (RemoveDuplicates entries_)) /\
    (FieldBits_ok fb ->
     decode (TaggedSlotsBytesField fb)
            (Memory_uint32 bytes kEntryConfigurationOffset) = 0).
Proof.
  intros Htss Hempty. cbv zeta.
  assert (Hkept : Forall (fun e => stack_indexes e = [])
                         (RemoveDuplicates entries_)).
  { rewrite Forall_forall in Hempty. apply Forall_forall. intros e He.
    apply Hempty, RemoveDuplicates_subset, He. }
  pose proof (TrimEntries_no_slots _ _ Htss Hkept) as Htrim.
  unfold emitted_entries, emitted_slots_size. rewrite Htrim. cbn [fst snd].
  split; [reflexivity |].
  assert (Hbytes : tagged_slots_bytes
                     (field_sizes (RemoveDuplicates entries_) 0) = 0)
    by reflexivity.
  split; [exact Hbytes |].
  intros bytes Hemit. rewrite Emit_unfold in Hemit.
  unfold emitted_entries, emitted_slots_size in Hemit.
  rewrite Htrim in Hemit. cbn [fst snd] in Hemit.
  pose proof (EmitTable_fit _ _ _ _ Hemit) as Hfit.
  unfold EmitTable in Hemit. rewrite Hfit in Hemit. cbn [negb] in Hemit.
  apply (inj Some) in Hemit. rewrite <- Hemit. clear Hemit bytes.
  rewrite (concat_all_nil (map (emit_bitmap _ 0) _)).
  2: { apply Forall_map, Forall_forall. intros e _. cbv beta.
       rewrite emit_bitmap_length, Hbytes. reflexivity. }
  rewrite app_nil_r. split; [reflexivity |].
  intros fb_ok.
  rewrite Memory_uint32_configuration by apply entry_configuration_range.
  rewrite (decode_tagged_slots_bytes fb fb_ok _ Hfit). exact Hbytes.
Qed.

Lemma TrimEntries_no_slots_no_bitmaps_witness :
  TrimEntries (RemoveDuplicates (builder_of [(0, [], [1]); (6, [], [])])) 5 =
    (RemoveDuplicates (builder_of [(0, [], [1]); (6, [], [])]), 0).
Proof.
  refine (proj1 (TrimEntries_no_slots_no_bitmaps wide_bits
                   (builder_of [(0, [], [1]); (6, [], [])]) 5 _ _)).
  - lia.
  - vm_compute. repeat constructor.
Defined.

(** C7 (amended).  Width derivation.  For the entries and the size that
    [Emit] serializes, the three field widths are the minimal byte
    widths, in the range 0 to 4 and 0 exactly for the value 0, of the
    maximum register mask, of max(pc, trampoline) + 1 and of
    max(deopt_index) + 1; the bitmap width is ceil(size / 8); the
    configuration word of the emitted table encodes these widths.  A
    maximum register mask of 300 gives a register width of 2, and a table
    in which no entry carries deopt data has [has_deopt_data = false] and
    records made of the pc and the register mask only. *)
Theorem Emit_derives_minimal_widths fb entries_ tagged_slots_size bytes :
  FieldBits_ok fb ->
  Emit_preconditions entries_ tagged_slots_size = true ->
  Emit fb entries_ tagged_slots_size = Some bytes ->
  let es := emitted_entries entries_ tagged_slots_size in
  let size2 := emitted_slots_size entries_ tagged_slots_size in
  let s := field_sizes es size2 in
  let word := Memory_uint32 bytes kEntryConfigurationOffset in
  let max_registers := max_list_from 0 (map register_indexes es) in
  let max_pc_ :=
    max_list_from (-1) (map (fun e => Z.max (pc e) (trampoline e)) es) in
  let max_deopt := max_list_from (-1) (map deopt_index es) in
  (decode HasDeoptDataField word = (if has_deopt_data s then 1 else 0) /\
   decode (RegisterIndexesSizeField fb) word = register_indexes_size s /\
   decode (PcSizeField fb) word = pc_size s /\
   decode (DeoptIndexSizeField fb) word = deopt_index_size s /\
   decode (TaggedSlotsBytesField fb) word = tagged_slots_bytes s) /\
  (minimal_byte_width max_registers (register_indexes_size s) /\
   minimal_byte_width (max_pc_ + 1) (pc_size s) /\
   minimal_byte_width (max_deopt + 1) (deopt_index_size s)) /\
  (0 <= register_indexes_size s <= 4 /\ 0 <= pc_size s <= 4 /\
   0 <= deopt_index_size s <= 4) /\
  ((register_indexes_size s = 0 <-> max_registers = 0) /\
   (pc_size s = 0 <-> max_pc_ + 1 = 0) /\
   (deopt_index_size s = 0 <-> max_deopt + 1 = 0)) /\
  (tagged_slots_bytes s = (size2 + 7) / 8 /\
   8 * (tagged_slots_bytes s - 1) < size2 <= 8 * tagged_slots_bytes s) /\
  (max_registers = 300 -> register_indexes_size s = 2) /\
  (Forall (fun e => deopt_index e = -1) es ->
   has_deopt_data s = false /\
   forall e, emit_entry s e =
             emit_bytes (pc e) (pc_size s) ++
             emit_bytes (to_int (register_indexes e))
                        (register_indexes_size s)).
Proof.
  intros fb_ok Hpre Hemit. cbv zeta.
  set (es := emitted_entries entries_ tagged_slots_size).
  set (size2 := emitted_slots_size entries_ tagged_slots_size).
  pose proof (emitted_table fb entries_ tagged_slots_size bytes Hemit) as Htable.
  fold es size2 in Htable.
  pose proof (EmitTable_fit fb es size2 bytes Htable) as Hfit.
  pose proof (entries2_in_range entries_ tagged_slots_size Hpre) as Hrange.
  fold es in Hrange. rewrite forallb_forall in Hrange.
  assert (Hall : forall x, x ∈ es ->
            0 <= pc x < int_max /\ -1 <= trampoline x < int_max /\
            -1 <= deopt_index x < int_max /\
            0 <= register_indexes x <= int_max).
  { intros x Hx. apply entry_in_range_spec, Hrange, list_elem_of_In, Hx. }
  destruct (field_maxima_spec es) as (Hu & Hw & Hp & Hd).
  { apply Forall_forall. intros x Hx. apply Hall in Hx. lia. }
  set (max_registers := max_list_from 0 (map register_indexes es)) in *.
  set (max_pc_ := max_list_from (-1)
                    (map (fun e => Z.max (pc e) (trampoline e)) es)) in *.
  set (max_deopt := max_list_from (-1) (map deopt_index es)) in *.
  assert (Hmr : 0 <= max_registers <= int_max).
  { split; [apply max_list_from_ge_default |].
    apply max_list_from_le; [unfold int_max; lia |].
    apply Forall_map, Forall_forall. intros x Hx. apply Hall in Hx.
    cbv beta. lia. }
  assert (Hmp : -1 <= max_pc_ <= int_max - 1).
  { split; [apply max_list_from_ge_default |].
    apply max_list_from_le; [unfold int_max; lia |].
    apply Forall_map, Forall_forall. intros x Hx. apply Hall in Hx.
    cbv beta. lia. }
  assert (Hmd : -1 <= max_deopt <= int_max - 1).
  { split; [apply max_list_from_ge_default |].
    apply max_list_from_le; [unfold int_max; lia |].
    apply Forall_map, Forall_forall. intros x Hx. apply Hall in Hx.
    cbv beta. lia. }
  assert (Hrs : register_indexes_size (field_sizes es size2) =
                value_to_bytes max_registers).
  { unfold field_sizes. cbn [register_indexes_size]. exact Hw. }
  assert (Hps : pc_size (field_sizes es size2) = value_to_bytes (max_pc_ + 1)).
  { unfold field_sizes. cbn [pc_size]. rewrite Hp.
    rewrite to_int_id by (unfold int_min, int_max in *; lia). reflexivity. }
  assert (Hds : deopt_index_size (field_sizes es size2) =
                value_to_bytes (max_deopt + 1)).
  { unfold field_sizes. cbn [deopt_index_size]. rewrite Hd.
    rewrite to_int_id by (unfold int_min, int_max in *; lia). reflexivity. }
  destruct (size2_bytes fb entries_ tagged_slots_size bytes Hpre Hemit)
    as (Hs2 & Hs2b).
  fold es size2 in Hs2, Hs2b.
  pose proof (emitted_sizes_nonneg fb es size2 bytes Htable)
    as (_ & _ & _ & Hnn).
  destruct (tagged_slots_bytes_spec es size2 Hs2 Hnn) as [_ Htsb].
  split.
  { assert (Hword : Memory_uint32 bytes kEntryConfigurationOffset =
                    entry_configuration fb (field_sizes es size2)).
    { unfold EmitTable in Htable. rewrite Hfit in Htable.
      cbn [negb] in Htable. apply (inj Some) in Htable. rewrite <- Htable.
      apply Memory_uint32_configuration, entry_configuration_range. }
    rewrite Hword.
    rewrite (decode_has_deopt_data fb fb_ok _ Hfit),
      (decode_register_indexes_size fb fb_ok _ Hfit),
      (decode_pc_size fb fb_ok _ Hfit),
      (decode_deopt_index_size fb fb_ok _ Hfit),
      (decode_tagged_slots_bytes fb fb_ok _ Hfit).
    repeat split; reflexivity. }
  rewrite Hrs, Hps, Hds.
  split.
  { repeat split; apply value_to_bytes_minimal; lia. }
  split.
  { repeat split; apply value_to_bytes_range. }
  split.
  { repeat split; apply value_to_bytes_zero. }
  split.
  { split; [exact Htsb |]. rewrite Htsb.
    pose proof (Z.div_mod (size2 + 7) 8 ltac:(lia)).
    pose proof (Z.mod_pos_bound (size2 + 7) 8 ltac:(lia)). lia. }
  split.
  { intros ->. reflexivity. }
  intros Hno.
  assert (Hflag : has_deopt_data (field_sizes es size2) = false).
  { unfold field_sizes. cbn [has_deopt_data]. rewrite Hd.
    unfold max_deopt. rewrite max_list_from_const; [reflexivity |].
    apply Forall_map. exact Hno. }
  split; [exact Hflag |].
  intros e. unfold emit_entry. rewrite Hflag, Hrs, Hps. reflexivity.
Qed.

Lemma Emit_derives_minimal_widths_witness :
  register_indexes_size
    (field_sizes (emitted_entries (builder_of [(0, [0], [2; 5; 3; 8])]) 1)
                 (emitted_slots_size (builder_of [(0, [0], [2; 5; 3; 8])]) 1))
  = 2.
Proof.
  refine (proj1 (proj2 (proj2 (proj2 (proj2 (proj2
            (Emit_derives_minimal_widths wide_bits
               (builder_of [(0, [0], [2; 5; 3; 8])]) 1
               [1; 0; 0; 0; 20; 4; 0; 0; 0; 44; 1; 1] _ _ _)))))) _).
  - unfold FieldBits_ok. simpl. lia.
  - vm_compute. reflexivity.
  - vm_compute. reflexivity.
  - vm_compute. reflexivity.
Defined.

(** C7 as stated fails on the range: an entry with no register and no
    deopt data gives a register width and a deopt-index width of 0,
    below the claimed range 1-4. *)
Lemma Emit_zero_width_counterexample :
  ~ (forall fb entries_ tagged_slots_size bytes,
       FieldBits_ok fb ->
       Emit_preconditions entries_ tagged_slots_size = true ->
       Emit fb entries_ tagged_slots_size = Some bytes ->
       let s := field_sizes (emitted_entries entries_ tagged_slots_size)
                            (emitted_slots_size entries_ tagged_slots_size) in
       1 <= register_indexes_size s <= 4 /\
       1 <= pc_size s <= 4 /\
       1 <= deopt_index_size s <= 4).
Proof.
  intros H.
  specialize (H wide_bits [EntryBuilder_new 0] 0 [1; 0; 0; 0; 16; 0; 0; 0; 0]).
  assert (Hw : register_indexes_size
                 (field_sizes (emitted_entries [EntryBuilder_new 0] 0)
                              (emitted_slots_size [EntryBuilder_new 0] 0)) = 0)
    by (vm_compute; reflexivity).
  cbv zeta in H. rewrite Hw in H.
  assert (1 <= 0 <= 4); [| lia].
  apply H.
  - unfold FieldBits_ok. simpl. lia.
  - vm_compute. reflexivity.
  - vm_compute. reflexivity.
Qed.

Lemma emit_bytes_bytes value bytes :
  Forall (fun b => 0 <= b < 256) (emit_bytes value bytes).
Proof. apply emit_bytes_loop_bytes. Qed.

(** C8.  Serialized layout.  The emitted bytes are the 8-byte header,
    then one record per entry, then one bitmap per entry.  A record is
    the pc on [pc_size] bytes, then, only with deopt data, the deopt
    index plus one on [deopt_index_size] bytes and the trampoline plus
    one on [pc_size] bytes, then the register mask on
    [register_indexes_size] bytes, each field least significant byte
    first and nothing between them.  A bitmap has [tagged_slots_bytes]
    bytes, and bit [i mod 8] of byte [i / 8] is set exactly when
    [i = size - 1 - s] for a slot index [s] of the entry.  The builder
    of the scenario, emitted with size 3, gives three entries, a pc
    width of 1, a bitmap width of 1 and the bitmaps 5 (binary 101),
    5 and 0. *)
Theorem Emit_serialized_layout :
  (forall fb entries_ tagged_slots_size bytes,
     Emit_preconditions entries_ tagged_slots_size = true ->
     Emit fb entries_ tagged_slots_size = Some bytes ->
     let es := emitted_entries entries_ tagged_slots_size in
     let size2 := emitted_slots_size entries_ tagged_slots_size in
     let s := field_sizes es size2 in
     bytes = (dd (Z.of_nat (length es)) ++ dd (entry_configuration fb s)) ++
             concat (map (emit_entry s) es) ++
             concat (map (emit_bitmap s size2) es) /\
     length (dd (Z.of_nat (length es)) ++ dd (entry_configuration fb s))
       = Z.to_nat kHeaderSize /\
     (forall e, e ∈ es ->
        exists pc_field deopt_field trampoline_field register_field,
          emit_entry s e =
            pc_field ++ deopt_field ++ trampoline_field ++ register_field /\
          length pc_field = Z.to_nat (pc_size s) /\
          le_value pc_field = pc e /\
          (if has_deopt_data s
           then length deopt_field = Z.to_nat (deopt_index_size s) /\
                le_value deopt_field = deopt_index e + 1 /\
                length trampoline_field = Z.to_nat (pc_size s) /\
                le_value trampoline_field = trampoline e + 1
           else deopt_field = [] /\ trampoline_field = []) /\
          length register_field = Z.to_nat (register_indexes_size s) /\
          le_value register_field = register_indexes e /\
          Forall (fun b => 0 <= b < 256) (emit_entry s e)) /\
     (forall e, e ∈ es ->
        length (emit_bitmap s size2 e) = Z.to_nat (tagged_slots_bytes s) /\
        forall index, 0 <= index ->
          (bitmap_bit (emit_bitmap s size2 e) index = true <->
           exists idx, idx ∈ stack_indexes e /\ index = size2 - 1 - idx))) /\
  (forall fb,
     FieldBits_ok fb ->
     Emit fb scenario_builder 3 =
       Some (dd 3 ++ dd (entry_configuration fb (MkFieldSizes false 1 1 0 1)) ++
             [0; 0; 5; 2; 9; 0] ++ [5; 5; 0]) /\
     length (emitted_entries scenario_builder 3) = 3%nat /\
     field_sizes (emitted_entries scenario_builder 3)
                 (emitted_slots_size scenario_builder 3)
       = MkFieldSizes false 1 1 0 1 /\
     map (emit_bitmap (MkFieldSizes false 1 1 0 1) 3)
         (emitted_entries scenario_builder 3) = [[5]; [5]; [0]]).
Proof.
  split.
  - intros fb entries_ tagged_slots_size bytes Hpre Hemit. cbv zeta.
    set (es := emitted_entries entries_ tagged_slots_size).
    set (size2 := emitted_slots_size entries_ tagged_slots_size).
    set (s := field_sizes es size2).
    pose proof (emitted_table fb entries_ tagged_slots_size bytes Hemit)
      as Htable.
    fold es size2 in Htable.
    pose proof (entries2_in_range entries_ tagged_slots_size Hpre) as Hrange.
    fold es in Hrange.
    assert (Hlen : Z.of_nat (length es) <= int_max).
    { unfold es. rewrite (entries2_length entries_ tagged_slots_size Hpre).
      apply (kept_length_bound entries_ tagged_slots_size Hpre). }
    destruct (emitted_sizes_nonneg fb es size2 bytes Htable)
      as (Hp & Hd & Hr & Htsb).
    fold s in Hp, Hd, Hr, Htsb.
    split.
    { rewrite <- app_assoc.
      apply (EmitTable_bytes fb es size2 bytes Htable Hlen). }
    split; [reflexivity |].
    split.
    + intros e He.
      pose proof (field_sizes_fit_entry es size2 e Hrange He)
        as (Fpc & Ftr & Fde & Fre).
      fold s in Fpc, Ftr, Fde, Fre.
      rewrite forallb_forall in Hrange.
      pose proof (proj1 (entry_in_range_spec e)
                    (Hrange e (proj1 (list_elem_of_In _ _) He)))
        as (Rpc & Rtr & Rde & Rre).
      exists (emit_bytes (pc e) (pc_size s)).
      exists (if has_deopt_data s
              then emit_bytes (deopt_index e + 1) (deopt_index_size s)
              else []).
      exists (if has_deopt_data s
              then emit_bytes (trampoline e + 1) (pc_size s) else []).
      exists (emit_bytes (register_indexes e) (register_indexes_size s)).
      assert (Hentry : emit_entry s e =
                emit_bytes (pc e) (pc_size s) ++
                (if has_deopt_data s
                 then emit_bytes (deopt_index e + 1) (deopt_index_size s)
                 else []) ++
                (if has_deopt_data s
                 then emit_bytes (trampoline e + 1) (pc_size s) else []) ++
                emit_bytes (register_indexes e) (register_indexes_size s)).
      { unfold emit_entry.
        rewrite !to_int_id by (unfold int_min, int_max in *; lia).
        destruct (has_deopt_data s); [rewrite <- app_assoc |]; reflexivity. }
      split; [exact Hentry |].
      split; [apply emit_bytes_length |].
      split; [apply le_value_emit_bytes; lia |].
      split.
      { destruct (has_deopt_data s); [| split; reflexivity].
        split; [apply emit_bytes_length |].
        split; [apply le_value_emit_bytes; lia |].
        split; [apply emit_bytes_length | apply le_value_emit_bytes; lia]. }
      split; [apply emit_bytes_length |].
      split; [apply le_value_emit_bytes; lia |].
      rewrite Hentry.
      destruct (has_deopt_data s); repeat apply Forall_app_2;
        try apply emit_bytes_bytes; constructor.
    + intros e He. split; [apply emit_bitmap_length |].
      intros index Hindex.
      destruct (size2_bytes fb entries_ tagged_slots_size bytes Hpre Hemit)
        as (Hs2 & Hs2b).
      fold es size2 s in Hs2, Hs2b.
      assert (Hidx : Forall (fun idx => 0 <= idx < size2) (stack_indexes e)).
      { destruct (trim_facts entries_ tagged_slots_size Hpre)
          as (Hm & Hmin & Hes & Hsize).
        fold es in Hes. fold size2 in Hsize.
        rewrite Hes in He. apply list_elem_of_fmap in He as (h & -> & Hh).
        assert (Hh_idx : Forall
                  (fun idx => trim_amount entries_ tagged_slots_size <= idx
                              < tagged_slots_size) (stack_indexes h)).
        { apply Forall_forall. intros idx Hidx.
          pose proof (all_stack_indexes_elem _ h idx Hh Hidx) as Hall.
          pose proof (kept_slots_in_range entries_ tagged_slots_size Hpre)
            as Hrg.
          rewrite Forall_forall in Hmin, Hrg.
          specialize (Hmin idx Hall). specialize (Hrg idx Hall). lia. }
        destruct (preconditions_spec entries_ tagged_slots_size Hpre)
          as (_ & _ & Htss & _).
        rewrite stack_indexes_shift; [| | lia].
        - apply Forall_map. eapply Forall_impl; [exact Hh_idx |].
          cbv beta. intros; lia.
        - eapply Forall_impl; [exact Hh_idx |]. cbv beta. intros; lia. }
      rewrite (emit_bitmap_bit s size2 e index Hidx) by lia.
      rewrite existsb_exists. split.
      * intros (idx & Hin & Heq). apply Z.eqb_eq in Heq.
        exists idx. split; [apply list_elem_of_In, Hin | exact Heq].
      * intros (idx & Hin & Heq). exists idx.
        split; [apply list_elem_of_In, Hin | apply Z.eqb_eq, Heq].
  - intros fb fb_ok.
    assert (He : emitted_entries scenario_builder 3 = scenario_builder)
      by (vm_compute; reflexivity).
    assert (Hs : emitted_slots_size scenario_builder 3 = 3)
      by (vm_compute; reflexivity).
    assert (Hf : field_sizes scenario_builder 3 = MkFieldSizes false 1 1 0 1)
      by (vm_compute; reflexivity).
    rewrite Emit_unfold, He, Hs, Hf.
    split; [| split; [reflexivity | split; [reflexivity |
                                            vm_compute; reflexivity]]].
    unfold EmitTable. rewrite Hf.
    assert (Hfit : sizes_fit fb (MkFieldSizes false 1 1 0 1) = true).
    { destruct fb_ok as (H1 & H2 & H3 & H4 & _).
      apply sizes_fit_iff. unfold fits_bits. cbn.
      pose proof (Z.pow_gt_1 2 (register_indexes_size_bits fb) ltac:(lia)).
      pose proof (Z.pow_gt_1 2 (pc_size_bits fb) ltac:(lia)).
      pose proof (Z.pow_gt_1 2 (deopt_index_size_bits fb) ltac:(lia)).
      pose proof (Z.pow_gt_1 2 (tagged_slots_bytes_bits fb) ltac:(lia)).
      lia. }
    rewrite Hfit. cbn [negb]. reflexivity.
Qed.

Lemma Emit_serialized_layout_witness :
  Emit spec_bits scenario_builder 3 =
    Some (dd 3 ++
          dd (entry_configuration spec_bits (MkFieldSizes false 1 1 0 1)) ++
          [0; 0; 5; 2; 9; 0] ++ [5; 5; 0]).
Proof.
  refine (proj1 (proj2 Emit_serialized_layout spec_bits _)).
  unfold FieldBits_ok. simpl. lia.
Defined.

(** ** The deopt scenario, end to end *)

Example deopt_scenario_entries :
  deopt_scenario_builder =
    Some [EntryBuilder_new 10; MkEntryBuilder 20 7 1000 [] 0;
          EntryBuilder_new 30].
Proof. reflexivity. Qed.

Example deopt_scenario_emit :
  Emit wide_bits [EntryBuilder_new 10; MkEntryBuilder 20 7 1000 [] 0;
                  EntryBuilder_new 30] 0 =
    Some [3; 0; 0; 0; 161; 0; 0; 0;
          10; 0; 0; 0; 0;  20; 0; 8; 233; 3;  30; 0; 0; 0; 0].
Proof. vm_compute. reflexivity. Qed.

Example deopt_scenario_lookup :
  let t := SafepointTable_new 4096
             [3; 0; 0; 0; 161; 0; 0; 0;
              10; 0; 0; 0; 0;  20; 0; 8; 233; 3;  30; 0; 0; 0; 0] in
  FindEntry wide_bits t (4096 + 1000) = Some (MkSafepointEntry 20 7 0 [] 1000) /\
  FindEntry wide_bits t (4096 + 25) = Some (MkSafepointEntry 20 7 0 [] 1000) /\
  FindEntry wide_bits t (4096 + 999) =
    Some (MkSafepointEntry 30 kNoDeoptIndex 0 [] kNoTrampolinePC) /\
  find_return_pc wide_bits t 1000 = Some 20 /\
  byte_size wide_bits t = 23.
Proof. vm_compute. repeat split; reflexivity. Qed.

(** ** The CHECK of Emit, on an example *)

(** A pc of 2^24 needs a pc width of 4: it does not fit a field of two
    bits, and fits one of three. *)
Example Emit_pc_width_overflow :
  Emit spec_bits [EntryBuilder_new 16777216] 0 = None /\
  Emit wide_bits [EntryBuilder_new 16777216] 0 =
    Some [1; 0; 0; 0; 64; 0; 0; 0; 0; 0; 0; 1].
Proof. vm_compute. split; reflexivity. Qed.

(** * Further properties of the code *)

(** ** RemoveDuplicates: shape of the result *)

Lemma collapse_runs_from_fixed head rest :
  collapse_runs_from head (collapse_runs_from head rest) =
  collapse_runs_from head rest.
Proof.
  revert head. induction rest as [|e rest IH]; intros head; [reflexivity|].
  cbn [collapse_runs_from].
  destruct (is_identical_except_for_pc e head) eqn:Hid.
  - apply IH.
  - cbn [collapse_runs_from]. rewrite Hid, IH. reflexivity.
Qed.

Lemma collapse_runs_fixed es : collapse_runs (collapse_runs es) = collapse_runs es.
Proof.
  destruct es as [|e rest]; [reflexivity|].
  cbn [collapse_runs]. rewrite collapse_runs_from_fixed. reflexivity.
Qed.

Lemma collapse_runs_from_sublist head rest :
  sublist (collapse_runs_from head rest) rest.
Proof.
  revert head. induction rest as [|e rest IH]; intros head.
  - constructor.
  - cbn [collapse_runs_from].
    destruct (is_identical_except_for_pc e head).
    + apply sublist_cons, IH.
    + apply sublist_skip, IH.
Qed.

Lemma collapse_runs_from_distinct head rest :
  (forall i a b, (head :: rest) !! i = Some a -> (head :: rest) !! S i = Some b ->
                 is_identical_except_for_pc b a = false) ->
  collapse_runs_from head rest = rest.
Proof.
  revert head. induction rest as [|e rest IH]; intros head Hadj; [reflexivity|].
  cbn [collapse_runs_from].
  rewrite (Hadj 0%nat head e eq_refl eq_refl).
  f_equal. apply IH. intros i a b Ha Hb.
  exact (Hadj (S i) a b Ha Hb).
Qed.


(** X1.  [RemoveDuplicates] is idempotent: a second pass finds nothing
    left to merge, and [Emit], which starts with that pass, writes the
    same table for a builder and for the builder already deduplicated. *)
Theorem RemoveDuplicates_idempotent (entries_ : Entries) :
  RemoveDuplicates (RemoveDuplicates entries_) = RemoveDuplicates entries_ /\
  forall fb tagged_slots_size,
    Emit fb (RemoveDuplicates entries_) tagged_slots_size =
    Emit fb entries_ tagged_slots_size.
Proof.
  assert (Hidem : RemoveDuplicates (RemoveDuplicates entries_) =
                  RemoveDuplicates entries_).
  { rewrite !RemoveDuplicates_collapse_runs. apply collapse_runs_fixed. }
  split; [exact Hidem|].
  intros fb tss. unfold Emit. rewrite Hidem. reflexivity.
Qed.

(** X2.  [RemoveDuplicates] only drops entries: what is left is a
    subsequence of the builder in the same order, it starts with the same
    entry, and a non-empty builder never becomes empty. *)
Theorem RemoveDuplicates_keeps_order_and_head (entries_ : Entries) :
  sublist (RemoveDuplicates entries_) entries_ /\
  head (RemoveDuplicates entries_) = head entries_ /\
  (length (RemoveDuplicates entries_) <= length entries_)%nat /\
  (RemoveDuplicates entries_ = [] <-> entries_ = []).
Proof.
  rewrite RemoveDuplicates_collapse_runs.
  assert (Hsub : sublist (collapse_runs entries_) entries_).
  { destruct entries_ as [|e rest]; cbn [collapse_runs].
    - constructor.
    - apply sublist_skip, collapse_runs_from_sublist. }
  split; [exact Hsub|]. split; [|split].
  - destruct entries_; reflexivity.
  - apply sublist_length, Hsub.
  - destruct entries_; cbn [collapse_runs]; split; congruence.
Qed.

(** X3.  [RemoveDuplicates] leaves the builder as it is exactly when no
    entry is identical, apart from the pc, to the entry just before it. *)
Theorem RemoveDuplicates_identity_iff (entries_ : Entries) :
  RemoveDuplicates entries_ = entries_ <->
  forall i a b, entries_ !! i = Some a -> entries_ !! S i = Some b ->
                is_identical_except_for_pc b a = false.
Proof.
  rewrite RemoveDuplicates_collapse_runs. split.
  - intros Hfix i a b Ha Hb.
    rewrite <- Hfix in Ha, Hb.
    exact (collapse_runs_adjacent entries_ i a b Ha Hb).
  - intros Hadj. destruct entries_ as [|e rest]; [reflexivity|].
    cbn [collapse_runs]. f_equal.
    apply collapse_runs_from_distinct, Hadj.
Qed.

(** ** TrimEntries: the result *)

Lemma all_stack_indexes_shift m es :
  0 <= m ->
  Forall (fun idx => m <= idx <= int_max) (all_stack_indexes es) ->
  all_stack_indexes (map (shift_entry m) es) =
  map (fun idx => idx - m) (all_stack_indexes es).
Proof.
  intros Hm. unfold all_stack_indexes.
  induction es as [|e es IH]; intros Hall; [reflexivity|].
  cbn [map concat] in *. apply Forall_app in Hall as [He Hes].
  rewrite map_app, IH by exact Hes.
  rewrite stack_indexes_shift by assumption. reflexivity.
Qed.

(** X4.  What [TrimEntries] leaves behind, for slot indexes inside the
    tagged region: indexes still inside the (new) region, and either slot
    0 referenced or no slot at all and a region of size 0.  Nothing is
    left to trim, so a second pass changes nothing. *)
Theorem TrimEntries_normal_form (entries_ : Entries) (tagged_slots_size : Z) :
  0 <= tagged_slots_size <= int_max ->
  Forall (fun idx => 0 <= idx < tagged_slots_size) (all_stack_indexes entries_) ->
  let entries' := (TrimEntries entries_ tagged_slots_size).1 in
  let size' := (TrimEntries entries_ tagged_slots_size).2 in
  0 <= size' <= tagged_slots_size /\
  Forall (fun idx => 0 <= idx < size') (all_stack_indexes entries') /\
  (0 ∈ all_stack_indexes entries' \/
   all_stack_indexes entries' = [] /\ size' = 0) /\
  TrimEntries entries' size' = (entries', size').
Proof.
  intros Htss Hrange.
  assert (Hnf :
    0 <= (TrimEntries entries_ tagged_slots_size).2 <= tagged_slots_size /\
    Forall (fun idx => 0 <= idx < (TrimEntries entries_ tagged_slots_size).2)
           (all_stack_indexes (TrimEntries entries_ tagged_slots_size).1) /\
    (0 ∈ all_stack_indexes (TrimEntries entries_ tagged_slots_size).1 \/
     all_stack_indexes (TrimEntries entries_ tagged_slots_size).1 = [] /\
     (TrimEntries entries_ tagged_slots_size).2 = 0)).
  { unfold TrimEntries.
    destruct (Z.eqb_spec tagged_slots_size 0) as [Hz | Hnz]; cbn [fst snd].
    { split; [lia|]. split; [exact Hrange|]. right. split; [|exact Hz].
      destruct (all_stack_indexes entries_) as [|idx l]; [reflexivity|].
      apply Forall_cons in Hrange as [Hidx _]. lia. }
    rewrite scan_entries_flat.
    pose proof (scan_indexes_spec (all_stack_indexes entries_)
                  tagged_slots_size ltac:(lia)) as Hspec.
    destruct (scan_indexes _ _) as [m|]; cbn [fst snd].
    - destruct Hspec as (Hm & Hall & Hor).
      { eapply Forall_impl; [exact Hrange |]. simpl. intros; lia. }
      rewrite to_int_id by (unfold int_min, int_max in *; lia).
      rewrite all_stack_indexes_shift; [|lia|].
      2:{ rewrite Forall_forall in Hall, Hrange. apply Forall_forall.
          intros idx Hidx. specialize (Hall idx Hidx).
          specialize (Hrange idx Hidx). lia. }
      split; [lia|]. split.
      + apply Forall_map, Forall_forall. intros idx Hidx.
        rewrite Forall_forall in Hall, Hrange.
        specialize (Hall idx Hidx). specialize (Hrange idx Hidx).
        simpl. lia.
      + destruct Hor as [-> | Hin].
        * right. rewrite Z.sub_diag. split; [|reflexivity].
          destruct (all_stack_indexes entries_) as [|idx l]; [reflexivity|].
          apply Forall_cons in Hall as [Hidx _].
          apply Forall_cons in Hrange as [Hidx' _]. lia.
        * left. apply list_elem_of_fmap. exists m. split; [lia | exact Hin].
    - split; [lia|]. split; [exact Hrange|]. left. apply Hspec.
      eapply Forall_impl; [exact Hrange |]. simpl. intros; lia. }
  cbn zeta. destruct (TrimEntries entries_ tagged_slots_size) as [es' size'].
  cbn [fst snd] in *. destruct Hnf as (Hsize & Hrange' & Hor).
  split; [exact Hsize|]. split; [exact Hrange'|]. split; [exact Hor|].
  destruct Hor as [Hzero | [Hnil Hz]].
  - apply TrimEntries_zero_min; [exact Hrange'|].
    split; [exact Hzero|].
    eapply Forall_impl; [exact Hrange'|]. simpl. intros; lia.
  - unfold TrimEntries. rewrite Hz. reflexivity.
Qed.

Lemma TrimEntries_normal_form_witness :
  TrimEntries (TrimEntries [MkEntryBuilder 0 (-1) (-1) [3; 2] 0;
                            MkEntryBuilder 4 (-1) (-1) [5] 0] 6).1
              (TrimEntries [MkEntryBuilder 0 (-1) (-1) [3; 2] 0;
                            MkEntryBuilder 4 (-1) (-1) [5] 0] 6).2 =
  ((TrimEntries [MkEntryBuilder 0 (-1) (-1) [3; 2] 0;
                 MkEntryBuilder 4 (-1) (-1) [5] 0] 6).1,
   (TrimEntries [MkEntryBuilder 0 (-1) (-1) [3; 2] 0;
                 MkEntryBuilder 4 (-1) (-1) [5] 0] 6).2).
Proof.
  apply (TrimEntries_normal_form
           [MkEntryBuilder 0 (-1) (-1) [3; 2] 0;
            MkEntryBuilder 4 (-1) (-1) [5] 0] 6).
  - unfold int_max. lia.
  - repeat constructor; lia.
Defined.

Lemma tagged_slots_bytes_ceil es tss :
  0 <= tss -> tss + 7 <= int_max ->
  tagged_slots_bytes (field_sizes es tss) = (tss + 7) / 8.
Proof.
  intros H0 H7. unfold field_sizes, kBitsPerByte. cbn [tagged_slots_bytes].
  replace (tss + 8 - 1) with (tss + 7) by lia.
  rewrite to_int_id by (unfold int_min, int_max in *; lia).
  apply Z.quot_div_nonneg; lia.
Qed.

(** X5.  Trimming moves no bit: in the bitmap written for an entry
    after [TrimEntries], every bit position holds what it holds in the
    bitmap written without the pass; the pass only shortens the bitmaps
    and leaves the pc, the deopt data and the register mask alone. *)
Theorem TrimEntries_keeps_bitmap_bits (entries_ : Entries)
    (tagged_slots_size : Z) (k : nat) (h : EntryBuilder) :
  0 <= tagged_slots_size -> tagged_slots_size + 7 <= int_max ->
  Forall (fun idx => 0 <= idx < tagged_slots_size) (all_stack_indexes entries_) ->
  entries_ !! k = Some h ->
  let entries' := (TrimEntries entries_ tagged_slots_size).1 in
  let size' := (TrimEntries entries_ tagged_slots_size).2 in
  exists h', entries' !! k = Some h' /\
    pc h' = pc h /\ deopt_index h' = deopt_index h /\
    trampoline h' = trampoline h /\ register_indexes h' = register_indexes h /\
    tagged_slots_bytes (field_sizes entries' size') <=
      tagged_slots_bytes (field_sizes entries_ tagged_slots_size) /\
    forall index, 0 <= index ->
      bitmap_bit (emit_bitmap (field_sizes entries' size') size' h') index =
      bitmap_bit (emit_bitmap (field_sizes entries_ tagged_slots_size)
                              tagged_slots_size h) index.
Proof.
  intros H0 H7 Hrange Hk.
  destruct (TrimEntries_shift entries_ tagged_slots_size) as (m & Hm & Hall & ->);
    [unfold int_max in *; lia | exact Hrange |].
  cbn [fst snd]. exists (shift_entry m h).
  assert (Hh : Forall (fun idx => m <= idx < tagged_slots_size) (stack_indexes h)).
  { apply Forall_forall. intros idx Hidx.
    rewrite Forall_forall in Hrange, Hall.
    assert (Hin : idx ∈ all_stack_indexes entries_).
    { eapply all_stack_indexes_elem; [|exact Hidx].
      eapply list_elem_of_lookup_2, Hk. }
    specialize (Hrange idx Hin). specialize (Hall idx Hin). lia. }
  assert (Hshift : stack_indexes (shift_entry m h) =
                   map (fun idx => idx - m) (stack_indexes h)).
  { apply stack_indexes_shift; [|lia].
    eapply Forall_impl; [exact Hh|]. simpl. intros; lia. }
  split; [rewrite list_lookup_fmap, Hk; reflexivity|].
  do 4 (split; [reflexivity|]).
  rewrite !tagged_slots_bytes_ceil by lia.
  split; [apply Z.div_le_mono; lia|].
  intros index Hindex.
  rewrite !emit_bitmap_bit; try lia.
  - rewrite Hshift. clear Hshift Hh.
    induction (stack_indexes h) as [|idx l IH]; [reflexivity|].
    cbn [map existsb]. rewrite IH. f_equal.
    destruct (Z.eqb_spec index (tagged_slots_size - m - 1 - (idx - m)));
      destruct (Z.eqb_spec index (tagged_slots_size - 1 - idx)); (reflexivity || lia).
  - eapply Forall_impl; [exact Hh|]. simpl. intros; lia.
  - rewrite tagged_slots_bytes_ceil by lia.
    pose proof (Z.mul_div_le (tagged_slots_size + 7) 8 ltac:(lia)).
    pose proof (Z.mod_pos_bound (tagged_slots_size + 7) 8 ltac:(lia)).
    pose proof (Z.div_mod (tagged_slots_size + 7) 8 ltac:(lia)). lia.
  - rewrite Hshift. apply Forall_map.
    eapply Forall_impl; [exact Hh|]. simpl. intros; lia.
  - rewrite tagged_slots_bytes_ceil by lia.
    pose proof (Z.mod_pos_bound (tagged_slots_size - m + 7) 8 ltac:(lia)).
    pose proof (Z.div_mod (tagged_slots_size - m + 7) 8 ltac:(lia)). lia.
Qed.

Lemma TrimEntries_keeps_bitmap_bits_witness :
  exists h',
    (TrimEntries [MkEntryBuilder 0 (-1) (-1) [3; 2] 0;
                  MkEntryBuilder 4 (-1) (-1) [5] 0] 6).1 !! 1%nat = Some h' /\
    pc h' = 4 /\ deopt_index h' = -1 /\ trampoline h' = -1 /\
    register_indexes h' = 0.
Proof.
  destruct (TrimEntries_keeps_bitmap_bits
              [MkEntryBuilder 0 (-1) (-1) [3; 2] 0;
               MkEntryBuilder 4 (-1) (-1) [5] 0] 6 1
              (MkEntryBuilder 4 (-1) (-1) [5] 0))
    as (h' & Hk & Hpc & Hd & Ht & Hr & _).
  - lia.
  - unfold int_max. lia.
  - repeat constructor; lia.
  - reflexivity.
  - exists h'. repeat split; assumption.
Defined.

(** ** Emit: size of the table, edge cases *)

Lemma EmitTable_length fb es tss bytes :
  EmitTable fb es tss = Some bytes ->
  Z.of_nat (length bytes) =
  kHeaderSize + Z.of_nat (length es) *
    (record_size (field_sizes es tss) + tagged_slots_bytes (field_sizes es tss)).
Proof.
  intros Hemit.
  pose proof (records_uniform fb es tss bytes Hemit) as Hrec.
  pose proof (bitmaps_uniform es tss) as Hbit.
  pose proof (record_size_nonneg fb es tss bytes Hemit) as Hrs.
  pose proof (emitted_sizes_nonneg fb es tss bytes Hemit) as (_ & _ & _ & Htsb).
  apply concat_uniform_length in Hrec, Hbit.
  rewrite length_map in Hrec, Hbit.
  unfold EmitTable in Hemit.
  destruct (negb (sizes_fit fb (field_sizes es tss))); [discriminate|].
  apply (inj Some) in Hemit. rewrite <- Hemit.
  rewrite !length_app, !dd_length, Hrec, Hbit.
  unfold kHeaderSize, kIntSize. lia.
Qed.

Lemma dd_bytes value : Forall (fun b => 0 <= b < 256) (dd value).
Proof. unfold dd. repeat constructor; apply to_uint8_range. Qed.

Lemma concat_Forall {A} (P : A -> Prop) (ls : list (list A)) :
  Forall (Forall P) ls -> Forall P (concat ls).
Proof.
  induction 1 as [|l ls Hl _ IH]; cbn [concat]; [constructor|].
  apply Forall_app. split; assumption.
Qed.

Lemma emit_entry_bytes s e : Forall (fun b => 0 <= b < 256) (emit_entry s e).
Proof.
  unfold emit_entry. repeat (apply Forall_app; split);
    try apply emit_bytes_bytes.
  destruct (has_deopt_data s); [|constructor].
  apply Forall_app; split; apply emit_bytes_bytes.
Qed.

Lemma emit_bitmap_bytes s tss e : Forall (fun b => 0 <= b < 256) (emit_bitmap s tss e).
Proof.
  unfold emit_bitmap. apply concat_Forall, Forall_map, Forall_forall.
  intros b _. unfold db. repeat constructor; apply to_uint8_range.
Qed.

Lemma TrimEntries_length es tss : length (TrimEntries es tss).1 = length es.
Proof.
  unfold TrimEntries. destruct (tss =? 0); [reflexivity|].
  destruct (scan_entries es tss); cbn [fst]; [apply length_map | reflexivity].
Qed.

(** X6.  The size of the table [Emit] writes: the 8-byte header, then
    for each entry kept by [RemoveDuplicates] one record and one bitmap of
    the derived sizes; every element written is a byte. *)
Theorem Emit_table_size (fb : FieldBits) (entries_ : Entries)
    (tagged_slots_size : Z) (bytes : list Z) :
  Emit fb entries_ tagged_slots_size = Some bytes ->
  let s := field_sizes (emitted_entries entries_ tagged_slots_size)
                       (emitted_slots_size entries_ tagged_slots_size) in
  Z.of_nat (length bytes) =
    kHeaderSize + Z.of_nat (length (RemoveDuplicates entries_)) *
                  (record_size s + tagged_slots_bytes s) /\
  Forall (fun b => 0 <= b < 256) bytes.
Proof.
  intros Hemit s. apply emitted_table in Hemit.
  split.
  - rewrite (EmitTable_length _ _ _ _ Hemit).
    unfold emitted_entries. rewrite TrimEntries_length. reflexivity.
  - unfold EmitTable in Hemit.
    destruct (negb (sizes_fit fb _)); [discriminate|].
    apply (inj Some) in Hemit. rewrite <- Hemit.
    repeat (apply Forall_app; split); try apply dd_bytes.
    + apply concat_Forall, Forall_map, Forall_forall.
      intros e _. apply emit_entry_bytes.
    + apply concat_Forall, Forall_map, Forall_forall.
      intros e _. apply emit_bitmap_bytes.
Qed.

Lemma Emit_table_size_witness :
  Z.of_nat (length [3; 0; 0; 0; 161; 0; 0; 0; 10; 0; 0; 0; 0;
                    20; 0; 8; 233; 3; 30; 0; 0; 0; 0]) =
  kHeaderSize + 3 * (5 + 0).
Proof.
  exact (proj1 (Emit_table_size wide_bits
                  [EntryBuilder_new 10; MkEntryBuilder 20 7 1000 [] 0;
                   EntryBuilder_new 30] 0 _ eq_refl)).
Defined.

(** X7.  The reader's [byte_size()] of a table written by [Emit] is the
    number of bytes [Emit] wrote. *)
Theorem byte_size_of_emitted_table (fb : FieldBits) (entries_ : Entries)
    (tagged_slots_size : Z) (bytes : list Z) (instruction_start : Z) :
  FieldBits_ok fb ->
  Emit fb entries_ tagged_slots_size = Some bytes ->
  Z.of_nat (length (RemoveDuplicates entries_)) <= int_max ->
  byte_size fb (SafepointTable_new instruction_start bytes) =
  Z.of_nat (length bytes).
Proof.
  intros fb_ok Hemit Hlen. apply emitted_table in Hemit.
  assert (Hlen' : Z.of_nat (length (emitted_entries entries_ tagged_slots_size))
                  <= int_max).
  { unfold emitted_entries. rewrite TrimEntries_length. exact Hlen. }
  unfold byte_size.
  rewrite (emitted_length _ _ _ _ instruction_start Hemit Hlen').
  rewrite (emitted_entry_size fb fb_ok _ _ _ instruction_start Hemit Hlen').
  rewrite (emitted_tagged_slots_bytes fb fb_ok _ _ _ instruction_start Hemit Hlen').
  symmetry. exact (EmitTable_length fb _ _ _ Hemit).
Qed.

Lemma byte_size_of_emitted_table_witness :
  byte_size wide_bits
    (SafepointTable_new 4096
       [3; 0; 0; 0; 161; 0; 0; 0; 10; 0; 0; 0; 0;
        20; 0; 8; 233; 3; 30; 0; 0; 0; 0]) = 23.
Proof.
  apply (byte_size_of_emitted_table wide_bits
           [EntryBuilder_new 10; MkEntryBuilder 20 7 1000 [] 0;
            EntryBuilder_new 30] 0).
  - unfold FieldBits_ok. simpl. lia.
  - reflexivity.
  - unfold int_max. simpl. lia.
Defined.

Lemma encode_zero f : encode f 0 = 0.
Proof. unfold encode. rewrite Z.shiftl_0_l. reflexivity. Qed.

Lemma is_valid_zero f : 0 <= kSize f -> is_valid f 0 = true.
Proof.
  intros Hk. unfold is_valid.
  pose proof (Z.pow_pos_nonneg 2 (kSize f) ltac:(lia) Hk).
  apply andb_true_intro. split; [apply Z.leb_le | apply Z.ltb_lt]; lia.
Qed.

Lemma TrimEntries_nil tss : TrimEntries [] tss = ([], 0).
Proof.
  unfold TrimEntries. destruct (Z.eqb_spec tss 0) as [-> | _]; [reflexivity|].
  cbn [scan_entries map]. rewrite Z.sub_diag. reflexivity.
Qed.

(** X8.  A builder without safepoints: whatever the size of the tagged
    region, [Emit] writes the header alone, entry count 0 and a
    configuration word 0 (every width 0, no bitmap), and both lookups on
    that table reach [UNREACHABLE] for every argument. *)
Theorem Emit_empty_builder (fb : FieldBits) (tagged_slots_size : Z) :
  FieldBits_ok fb ->
  Emit fb [] tagged_slots_size = Some [0; 0; 0; 0; 0; 0; 0; 0] /\
  forall instruction_start pc,
    FindEntry fb (SafepointTable_new instruction_start [0; 0; 0; 0; 0; 0; 0; 0])
              pc = None /\
    find_return_pc fb (SafepointTable_new instruction_start
                         [0; 0; 0; 0; 0; 0; 0; 0]) pc = None.
Proof.
  intros (Hr & Hp & Hd & Ht & _). split.
  - unfold Emit. change (RemoveDuplicates []) with (@nil EntryBuilder).
    rewrite TrimEntries_nil. unfold EmitTable.
    change (field_sizes [] 0) with (MkFieldSizes false 0 0 0 0).
    unfold sizes_fit, entry_configuration.
    cbn [register_indexes_size pc_size deopt_index_size tagged_slots_bytes
         has_deopt_data].
    rewrite !is_valid_zero, !encode_zero by (cbn [kSize Next
      RegisterIndexesSizeField PcSizeField DeoptIndexSizeField
      TaggedSlotsBytesField]; lia).
    reflexivity.
  - intros start pc_. split.
    + unfold FindEntry, FindEntry_generic, find_entry_at.
      change (length_ (SafepointTable_new start [0; 0; 0; 0; 0; 0; 0; 0])) with 0.
      cbn [Z.to_nat trampoline_scan pc_scan].
      destruct (table_has_deopt_data _); reflexivity.
    + reflexivity.
Qed.

Lemma Emit_empty_builder_witness :
  Emit spec_bits [] 40 = Some [0; 0; 0; 0; 0; 0; 0; 0].
Proof.
  apply (Emit_empty_builder spec_bits 40).
  unfold FieldBits_ok. simpl. lia.
Defined.

Lemma max_deopt_index_fold es acc :
  max_deopt_index (fold_left field_maxima_step es acc) =
  max_list_from (max_deopt_index acc) (map deopt_index es).
Proof.
  revert acc. induction es as [|e es IH]; intros acc; [reflexivity|].
  cbn [fold_left map]. rewrite IH. cbn [field_maxima_step max_deopt_index].
  rewrite max_list_from_max. unfold max_list_from. cbn [fold_right]. reflexivity.
Qed.

(** X9.  The deopt flag is a property of the whole table: [Emit] sets
    [has_deopt_data] exactly when some entry it serializes has a deopt
    index other than -1 (above -1; the builder never stores less). *)
Theorem has_deopt_data_iff_some_entry (entries_ : Entries)
    (tagged_slots_size : Z) :
  has_deopt_data (field_sizes entries_ tagged_slots_size) = true <->
  exists e, e ∈ entries_ /\ kNoDeoptIndex < deopt_index e.
Proof.
  unfold field_sizes, field_maxima, kNoDeoptIndex. cbn [has_deopt_data].
  rewrite max_deopt_index_fold. cbn [max_deopt_index].
  rewrite negb_true_iff, Z.eqb_neq.
  pose proof (max_list_from_ge_default (-1) (map deopt_index entries_)) as Hge.
  split.
  - intros Hne.
    assert (Hlt : -1 < max_list_from (-1) (map deopt_index entries_)) by lia.
    clear Hne Hge. induction entries_ as [|e es IH].
    + cbn in Hlt. lia.
    + unfold max_list_from in *. cbn [map fold_right] in Hlt.
      destruct (Z.max_spec (deopt_index e)
                  (fold_right Z.max (-1) (map deopt_index es))) as [[_ Hm]|[_ Hm]];
        rewrite Hm in Hlt.
      * destruct (IH Hlt) as (e' & Hin & He'). exists e'.
        split; [right; exact Hin | exact He'].
      * exists e. split; [left | exact Hlt].
  - intros (e & Hin & He).
    pose proof (max_list_from_ge (-1) (map deopt_index entries_) (deopt_index e)) as H.
    assert (deopt_index e ∈ map deopt_index entries_).
    { apply list_elem_of_fmap. exists e. split; [reflexivity | exact Hin]. }
    specialize (H ltac:(assumption)). lia.
Qed.

Lemma emit_bytes_loop_lookup n : forall value (k : nat),
  (k < n)%nat ->
  emit_bytes_loop n value !! k =
  Some (to_uint8 (Z.shiftr value (8 * Z.of_nat k))).
Proof.
  induction n as [|n IH]; intros value k Hk; [lia|].
  cbn [emit_bytes_loop db app]. destruct k as [|k].
  - cbn [lookup list_lookup]. rewrite Z.mul_0_r, Z.shiftr_0_r. reflexivity.
  - cbn [lookup list_lookup]. change (list_lookup k) with (lookup (M:=list Z) k).
    rewrite IH by lia. rewrite Z.shiftr_shiftr by lia.
    do 3 f_equal. lia.
Qed.

(** X10.  The lambda [emit_bytes] writes [bytes] bytes, byte [k] being
    bits [8k .. 8k+7] of the value; read back least significant byte
    first they give the value modulo [256 ^ bytes], so a value that needs
    more bytes loses its high part and a width of 0 writes nothing. *)
Theorem emit_bytes_little_endian (value bytes : Z) :
  0 <= bytes ->
  length (emit_bytes value bytes) = Z.to_nat bytes /\
  (forall k, 0 <= k < bytes ->
     emit_bytes value bytes !! Z.to_nat k =
     Some (Z.land (Z.shiftr value (8 * k)) 255)) /\
  le_value (emit_bytes value bytes) = value mod 256 ^ bytes.
Proof.
  intros Hb. split; [apply emit_bytes_length|]. split.
  - intros k Hk. unfold emit_bytes.
    rewrite emit_bytes_loop_lookup by lia.
    rewrite Z2Nat.id by lia. unfold to_uint8.
    change 255 with (Z.ones 8). rewrite Z.land_ones by lia. reflexivity.
  - unfold emit_bytes. rewrite le_value_emit_bytes_loop.
    rewrite Z2Nat.id by lia. reflexivity.
Qed.

Lemma emit_bytes_little_endian_witness :
  le_value (emit_bytes 0x12345 2) = 0x12345 mod 256 ^ 2.
Proof.
  apply (emit_bytes_little_endian 0x12345 2). lia.
Defined.

(** X11.  With three or more bits for each of the three byte-width
    fields the [CHECK] of [Emit] can fail on the bitmap size only: a
    byte width is at most 4. *)
Theorem Emit_fatal_only_on_bitmap_size (fb : FieldBits) (entries_ : Entries)
    (tagged_slots_size : Z) :
  3 <= register_indexes_size_bits fb ->
  3 <= pc_size_bits fb ->
  3 <= deopt_index_size_bits fb ->
  (Emit fb entries_ tagged_slots_size = None <->
   ~ fits_bits (tagged_slots_bytes_bits fb)
       (tagged_slots_bytes
          (field_sizes (emitted_entries entries_ tagged_slots_size)
                       (emitted_slots_size entries_ tagged_slots_size)))).
Proof.
  intros Hr Hp Hd. rewrite Emit_unfold. unfold EmitTable.
  set (s := field_sizes _ _).
  assert (Hw : forall bits v, 3 <= bits -> fits_bits bits (value_to_bytes v)).
  { intros bits v Hbits. pose proof (value_to_bytes_range v).
    pose proof (Z.pow_le_mono_r 2 3 bits ltac:(lia) Hbits).
    unfold fits_bits. change (2 ^ 3) with 8 in *. lia. }
  destruct (sizes_fit fb s) eqn:Hfit; cbn [negb].
  - apply sizes_fit_iff in Hfit as (_ & _ & _ & Hfit).
    split; [discriminate | tauto].
  - split; [|reflexivity]. intros _ Hfits.
    assert (sizes_fit fb s = true); [|congruence].
    apply sizes_fit_iff.
    split; [exact (Hw _ _ Hr)|]. split; [exact (Hw _ _ Hp)|].
    split; [exact (Hw _ _ Hd) | exact Hfits].
Qed.

Lemma Emit_fatal_only_on_bitmap_size_witness :
  Emit wide_bits [EntryBuilder_new 16777216] 0 = None <->
  ~ fits_bits (tagged_slots_bytes_bits wide_bits)
      (tagged_slots_bytes
         (field_sizes (emitted_entries [EntryBuilder_new 16777216] 0)
                      (emitted_slots_size [EntryBuilder_new 16777216] 0))).
Proof.
  apply (Emit_fatal_only_on_bitmap_size wide_bits); simpl; lia.
Defined.

(** ** The builder's two passes: DefineSafepoint, UpdateDeoptimizationInfo *)

Lemma find_pc_from_Some l p : forall idx i,
  find_pc_from l p idx = Some i ->
  exists k h, i = (idx + k)%nat /\ l !! k = Some h /\ pc h = p /\
    forall j h', (j < k)%nat -> l !! j = Some h' -> pc h' <> p.
Proof.
  induction l as [|e l IH]; intros idx i Hfind; [discriminate|].
  cbn [find_pc_from] in Hfind. destruct (Z.eqb_spec (pc e) p) as [Heq | Hne].
  - injection Hfind as <-. exists 0%nat, e.
    split; [lia|]. split; [reflexivity|]. split; [exact Heq|]. intros; lia.
  - destruct (IH _ _ Hfind) as (k & h & -> & Hk & Hp & Hfirst).
    exists (S k), h. split; [lia|]. split; [exact Hk|]. split; [exact Hp|].
    intros [|j] h' Hj Hl; cbn in Hl.
    + injection Hl as <-. exact Hne.
    + apply (Hfirst j h'); [lia | exact Hl].
Qed.

Lemma find_pc_from_exists l p : forall idx k h,
  l !! k = Some h -> pc h = p ->
  exists i, find_pc_from l p idx = Some i /\ (idx <= i <= idx + k)%nat.
Proof.
  induction l as [|e l IH]; intros idx k h Hk Hp; [discriminate|].
  cbn [find_pc_from]. destruct (Z.eqb_spec (pc e) p) as [Heq | Hne].
  - exists idx. split; [reflexivity | lia].
  - destruct k as [|k]; cbn in Hk.
    + injection Hk as <-. contradiction.
    + destruct (IH (S idx) k h Hk Hp) as (i & Hi & Hb).
      exists i. split; [exact Hi | lia].
Qed.

Lemma find_pc_from_pcs l1 l2 p idx :
  pc <$> l1 = pc <$> l2 -> find_pc_from l1 p idx = find_pc_from l2 p idx.
Proof.
  revert l2 idx. induction l1 as [|e1 l1 IH]; intros [|e2 l2] idx Hmap;
    try discriminate; [reflexivity|].
  rewrite !fmap_cons in Hmap. injection Hmap as Hpc Hmap.
  cbn [find_pc_from]. rewrite Hpc, (IH l2 (S idx) Hmap). reflexivity.
Qed.

Lemma alter_keeps_pcs (f : EntryBuilder -> EntryBuilder) i (es : Entries) :
  (forall e, pc (f e) = pc e) -> pc <$> alter f i es = pc <$> es.
Proof.
  intros Hf. revert i. induction es as [|e es IH]; intros [|i]; cbn;
    rewrite ?Hf, ?IH; reflexivity.
Qed.

Lemma sorted_find_pc es p start j e :
  StronglySorted pc_lt es -> (start <= j)%nat -> es !! j = Some e -> pc e = p ->
  find_pc_from (drop start es) p start = Some j.
Proof.
  intros Hsorted Hstart Hj Hp.
  destruct (find_pc_from_exists (drop start es) p start (j - start) e)
    as (i & Hi & Hb).
  { rewrite lookup_drop. replace (start + (j - start))%nat with j by lia.
    exact Hj. }
  { exact Hp. }
  rewrite Hi. f_equal.
  destruct (find_pc_from_Some _ _ _ _ Hi) as (k & h & -> & Hk & Hph & _).
  rewrite lookup_drop in Hk.
  destruct (decide (start + k = j)%nat) as [Heq | Hne]; [exact Heq|].
  pose proof (StronglySorted_lookup_lt es (start + k) j h e Hsorted
                ltac:(lia) Hk Hj) as Hlt.
  lia.
Qed.

(** X12.  [UpdateDeoptimizationInfo] under its [DCHECK]: when some entry
    from position [start] on has the given pc, the call returns the
    position of the first such entry, stores the trampoline and the deopt
    index there and keeps that entry's pc, slot indexes and register
    mask; every other entry, and the number of entries, is unchanged. *)
Theorem UpdateDeoptimizationInfo_first_match (entries_ : Entries)
    (pc_ trampoline_ : Z) (start : nat) (deopt_index_ : Z)
    (j : nat) (e : EntryBuilder) :
  (start <= j)%nat -> entries_ !! j = Some e -> pc e = pc_ ->
  exists entries' index h,
    UpdateDeoptimizationInfo entries_ pc_ trampoline_ start deopt_index_ =
      Some (entries', index) /\
    (start <= index <= j)%nat /\
    entries_ !! index = Some h /\ pc h = pc_ /\
    (forall i h', (start <= i < index)%nat -> entries_ !! i = Some h' ->
                  pc h' <> pc_) /\
    entries' !! index =
      Some (MkEntryBuilder pc_ deopt_index_ trampoline_
                           (stack_indexes h) (register_indexes h)) /\
    (forall i, i <> index -> entries' !! i = entries_ !! i) /\
    length entries' = length entries_.
Proof.
  intros Hstart Hj Hp. unfold UpdateDeoptimizationInfo.
  destruct (find_pc_from_exists (drop start entries_) pc_ start (j - start) e)
    as (index & Hfind & Hb).
  { rewrite lookup_drop. replace (start + (j - start))%nat with j by lia.
    exact Hj. }
  { exact Hp. }
  rewrite Hfind.
  destruct (find_pc_from_Some _ _ _ _ Hfind) as (k & h & -> & Hk & Hph & Hfirst).
  rewrite lookup_drop in Hk.
  eexists _, _, h. split; [reflexivity|].
  split; [lia|]. split; [exact Hk|]. split; [exact Hph|]. split; [|split; [|split]].
  - intros i h' Hi Hl. apply (Hfirst (i - start)%nat h'); [lia|].
    rewrite lookup_drop. replace (start + (i - start))%nat with i by lia.
    exact Hl.
  - rewrite list_lookup_alter_eq, Hk. cbn. rewrite Hph. reflexivity.
  - intros i Hi. apply list_lookup_alter_ne. congruence.
  - apply length_alter.
Qed.

Lemma UpdateDeoptimizationInfo_first_match_witness :
  exists entries' index h,
    UpdateDeoptimizationInfo
      [EntryBuilder_new 10; EntryBuilder_new 20; EntryBuilder_new 30]
      20 1000 0 7 = Some (entries', index) /\
    (0 <= index <= 1)%nat /\
    [EntryBuilder_new 10; EntryBuilder_new 20; EntryBuilder_new 30] !! index
      = Some h /\ pc h = 20.
Proof.
  destruct (UpdateDeoptimizationInfo_first_match
              [EntryBuilder_new 10; EntryBuilder_new 20; EntryBuilder_new 30]
              20 1000 0 7 1 (EntryBuilder_new 20))
    as (entries' & index & h & Hu & Hb & Hl & Hp & _).
  - lia.
  - reflexivity.
  - reflexivity.
  - exists entries', index, h. repeat split; (assumption || lia).
Defined.

(** X13.  The returned position is a valid cursor for the second pass:
    on a builder ordered by pc, after an update for [pc1] that returned
    [index1], an update for any later pc of the builder searched from
    [index1] succeeds, lands at or after [index1], and gives what a search
    from the old starting position gives. *)
Theorem UpdateDeoptimizationInfo_cursor (entries_ : Entries)
    (pc1 trampoline1 : Z) (start : nat) (deopt_index1 : Z)
    (entries1 : Entries) (index1 : nat)
    (pc2 trampoline2 deopt_index2 : Z) (j : nat) (e : EntryBuilder) :
  StronglySorted pc_lt entries_ ->
  UpdateDeoptimizationInfo entries_ pc1 trampoline1 start deopt_index1 =
    Some (entries1, index1) ->
  entries_ !! j = Some e -> pc e = pc2 -> pc1 <= pc2 ->
  exists entries2,
    UpdateDeoptimizationInfo entries1 pc2 trampoline2 index1 deopt_index2 =
      Some (entries2, j) /\
    UpdateDeoptimizationInfo entries1 pc2 trampoline2 start deopt_index2 =
      Some (entries2, j) /\
    (start <= index1 <= j)%nat.
Proof.
  intros Hsorted Hu Hj Hp Hle. unfold UpdateDeoptimizationInfo in Hu.
  destruct (find_pc_from (drop start entries_) pc1 start) as [i1|] eqn:Hfind;
    [|discriminate].
  injection Hu as <- <-.
  destruct (find_pc_from_Some _ _ _ _ Hfind) as (k & h & -> & Hk & Hph & _).
  rewrite lookup_drop in Hk.
  assert (Hi1 : (start + k <= j)%nat).
  { destruct (decide (j < start + k)%nat) as [Hlt|]; [|lia].
    pose proof (StronglySorted_lookup_lt entries_ j (start + k) e h Hsorted
                  Hlt Hj Hk). lia. }
  set (f := fun e0 => MkEntryBuilder (pc e0) deopt_index1 trampoline1
                        (stack_indexes e0) (register_indexes e0)).
  assert (Hsame : forall s, find_pc_from (drop s (alter f (start + k)%nat entries_))
                              pc2 s = find_pc_from (drop s entries_) pc2 s).
  { intros s. apply find_pc_from_pcs.
    rewrite !fmap_drop. f_equal. apply alter_keeps_pcs. reflexivity. }
  unfold UpdateDeoptimizationInfo. rewrite !Hsame.
  rewrite (sorted_find_pc entries_ pc2 (start + k)%nat j e Hsorted Hi1 Hj Hp).
  rewrite (sorted_find_pc entries_ pc2 start j e Hsorted ltac:(lia) Hj Hp).
  eexists. split; [reflexivity|]. split; [reflexivity | lia].
Qed.

Lemma UpdateDeoptimizationInfo_cursor_witness :
  exists entries2,
    UpdateDeoptimizationInfo
      [EntryBuilder_new 10; MkEntryBuilder 20 7 1000 [] 0; EntryBuilder_new 30]
      30 1004 1 8 = Some (entries2, 2%nat).
Proof.
  destruct (UpdateDeoptimizationInfo_cursor
              [EntryBuilder_new 10; EntryBuilder_new 20; EntryBuilder_new 30]
              20 1000 0 7
              [EntryBuilder_new 10; MkEntryBuilder 20 7 1000 [] 0;
               EntryBuilder_new 30] 1
              30 1004 8 2 (EntryBuilder_new 30))
    as (entries2 & Hu & _).
  - repeat constructor; unfold pc_lt; simpl; lia.
  - reflexivity.
  - reflexivity.
  - reflexivity.
  - lia.
  - exists entries2. exact Hu.
Defined.

Lemma debug_loop_cons back e rest lp lt :
  debug_loop back (e :: rest) lp lt = true <->
  lp < pc e /\
  (trampoline e <> -1 -> lt < trampoline e /\ back < trampoline e) /\
  (trampoline e = -1 <-> deopt_index e = -1) /\
  debug_loop back rest (pc e)
    (if negb (trampoline e =? kNoTrampolinePC) then trampoline e else lt) = true.
Proof.
  cbn [debug_loop]. unfold kNoTrampolinePC, kNoDeoptIndex.
  rewrite !andb_true_iff, Z.ltb_lt, eqb_true_iff.
  destruct (Z.eqb_spec (trampoline e) (-1)) as [Ht | Ht];
    destruct (Z.eqb_spec (deopt_index e) (-1)) as [Hd | Hd]; cbn [negb];
    rewrite ?andb_true_iff, ?Z.ltb_lt; intuition (congruence || lia).
Qed.

Lemma debug_loop_raise back tr rest : forall lp lt,
  debug_loop back rest lp lt = true ->
  Forall (fun e => trampoline e = -1 \/ tr < trampoline e) rest ->
  debug_loop back rest lp tr = true.
Proof.
  induction rest as [|e rest IH]; intros lp lt H Hall; [reflexivity|].
  apply Forall_cons in Hall as [He Hall].
  apply debug_loop_cons in H as (Hpc & Htr & Hpair & Hrest).
  apply debug_loop_cons. split; [exact Hpc|].
  split; [intros Hne; specialize (Htr Hne); lia|]. split; [exact Hpair|].
  unfold kNoTrampolinePC in *.
  destruct (Z.eqb_spec (trampoline e) (-1)); cbn [negb] in *.
  - eapply IH; eassumption.
  - exact Hrest.
Qed.

Lemma debug_loop_alter back tr d : forall es lp lt index,
  debug_loop back es lp lt = true ->
  lt < tr -> back < tr -> tr <> -1 -> d <> -1 ->
  (forall j e, (j < index)%nat -> es !! j = Some e -> trampoline e < tr) ->
  (forall j e, (index < j)%nat -> es !! j = Some e ->
               trampoline e = -1 \/ tr < trampoline e) ->
  debug_loop back
    (alter (fun e => MkEntryBuilder (pc e) d tr (stack_indexes e)
                       (register_indexes e)) index es) lp lt = true.
Proof.
  induction es as [|e es IH]; intros lp lt index H Hlt Hback Htr Hd Hbefore Hafter;
    [reflexivity|].
  apply debug_loop_cons in H as (Hpc & Htramp & Hpair & Hrest).
  destruct index as [|index]; cbn [alter list_alter]; apply debug_loop_cons.
  - cbn [pc trampoline deopt_index]. split; [exact Hpc|].
    split; [intros _; lia|]. split; [tauto|].
    unfold kNoTrampolinePC. destruct (Z.eqb_spec tr (-1)); [contradiction|].
    cbn [negb]. eapply debug_loop_raise; [exact Hrest|].
    apply Forall_forall. intros h Hh.
    apply list_elem_of_lookup in Hh as [j Hj].
    exact (Hafter (S j) h ltac:(lia) Hj).
  - split; [exact Hpc|]. split; [exact Htramp|]. split; [exact Hpair|].
    apply IH; try assumption.
    + pose proof (Hbefore 0%nat e ltac:(lia) eq_refl).
      destruct (negb (trampoline e =? kNoTrampolinePC)); lia.
    + intros j h Hj Hl. exact (Hbefore (S j) h ltac:(lia) Hl).
    + intros j h Hj Hl. exact (Hafter (S j) h ltac:(lia) Hl).
Qed.

Lemma last_alter_pc (f : EntryBuilder -> EntryBuilder) i (es : Entries) :
  (forall e, pc (f e) = pc e) ->
  from_option pc 0 (last (alter f i es)) = from_option pc 0 (last es).
Proof.
  intros Hf. rewrite !last_lookup, length_alter.
  destruct (decide (i = Nat.pred (length es))) as [-> | Hne].
  - rewrite list_lookup_alter_eq.
    destruct (es !! Nat.pred (length es)); cbn; [apply Hf | reflexivity].
  - rewrite list_lookup_alter_ne by exact Hne. reflexivity.
Qed.

(** X14.  [UpdateDeoptimizationInfo] keeps the builder acceptable to the
    DEBUG block of [Emit]: on a builder that passes those checks, storing
    a trampoline and a deopt index (neither of them -1, as the two
    [DCHECK_NE]s ask) gives a builder that passes them again, provided
    the trampoline is above the last pc, above the trampolines of the
    entries before the updated one and below those of the entries after. *)
Theorem UpdateDeoptimizationInfo_keeps_debug_checks (entries_ : Entries)
    (pc_ trampoline_ : Z) (start : nat) (deopt_index_ : Z)
    (entries' : Entries) (index : nat) :
  Emit_debug_checks entries_ = true ->
  UpdateDeoptimizationInfo entries_ pc_ trampoline_ start deopt_index_ =
    Some (entries', index) ->
  trampoline_ <> kNoTrampolinePC -> deopt_index_ <> kNoDeoptIndex ->
  Forall (fun e => pc e < trampoline_) entries_ ->
  (forall j e, (j < index)%nat -> entries_ !! j = Some e ->
               trampoline e < trampoline_) ->
  (forall j e, (index < j)%nat -> entries_ !! j = Some e ->
               trampoline e = kNoTrampolinePC \/ trampoline_ < trampoline e) ->
  Emit_debug_checks entries' = true.
Proof.
  unfold kNoTrampolinePC, kNoDeoptIndex.
  intros Hchecks Hu Htr Hd Hpcs Hbefore Hafter.
  unfold UpdateDeoptimizationInfo in Hu.
  destruct (find_pc_from (drop start entries_) pc_ start) as [i|] eqn:Hfind;
    [|discriminate].
  injection Hu as <- <-.
  destruct (find_pc_from_Some _ _ _ _ Hfind) as (k & h & -> & Hk & _).
  rewrite lookup_drop in Hk.
  unfold Emit_debug_checks in *.
  rewrite last_alter_pc by reflexivity.
  assert (Hback : from_option pc 0 (last entries_) < trampoline_).
  { destruct (last entries_) as [b|] eqn:Hlast.
    - cbn. rewrite Forall_forall in Hpcs. apply Hpcs.
      rewrite last_lookup in Hlast. eapply list_elem_of_lookup_2, Hlast.
    - apply last_None in Hlast. subst entries_. discriminate. }
  apply debug_loop_alter; try assumption.
  rewrite Forall_forall in Hpcs.
  pose proof (Hpcs h (list_elem_of_lookup_2 _ _ _ Hk)) as Hh.
  apply debug_loop_spec in Hchecks as (_ & Hlp & _).
  rewrite Forall_forall in Hlp.
  pose proof (Hlp h (list_elem_of_lookup_2 _ _ _ Hk)) as Hh'.
  cbn beta in Hh, Hh'. lia.
Qed.

Lemma UpdateDeoptimizationInfo_keeps_debug_checks_witness :
  Emit_debug_checks
    [EntryBuilder_new 10; MkEntryBuilder 20 7 1000 [] 0; EntryBuilder_new 30]
  = true.
Proof.
  apply (UpdateDeoptimizationInfo_keeps_debug_checks
           [EntryBuilder_new 10; EntryBuilder_new 20; EntryBuilder_new 30]
           20 1000 0 7 _ 1).
  - reflexivity.
  - reflexivity.
  - discriminate.
  - discriminate.
  - repeat constructor; simpl; lia.
  - intros j e Hj. assert (j = 0%nat) as -> by lia.
    intros [= <-]. vm_compute. reflexivity.
  - intros j e Hj Hl. left.
    destruct j as [|[|[|j]]]; try lia; [|discriminate].
    injection Hl as <-. reflexivity.
Defined.

Lemma debug_loop_push back back' p : forall es lp lt,
  debug_loop back es lp lt = true ->
  Forall (fun e => pc e < p /\ (trampoline e = -1 \/ back' < trampoline e)) es ->
  lp < p ->
  debug_loop back' (es ++ [EntryBuilder_new p]) lp lt = true.
Proof.
  induction es as [|e es IH]; intros lp lt H Hall Hlp.
  - cbn [app]. apply debug_loop_cons.
    cbn [EntryBuilder_new pc trampoline deopt_index].
    unfold kNoTrampolinePC, kNoDeoptIndex.
    split; [exact Hlp|]. split; [congruence|]. split; [tauto | reflexivity].
  - apply Forall_cons in Hall as [[He Ht] Hall].
    apply debug_loop_cons in H as (Hpc & Htramp & Hpair & Hrest).
    cbn [app]. apply debug_loop_cons.
    split; [exact Hpc|]. split; [intros Hne; specialize (Htramp Hne); lia|].
    split; [exact Hpair|]. apply IH; assumption.
Qed.

(** X15.  [DefineSafepoint] keeps the builder acceptable to the DEBUG
    block of [Emit] when the assembler has moved on: the pc offset is
    above the pc of every entry and below every trampoline already
    stored.  The handle is the position of the new entry, which has no
    deopt data, no slot and no register; the entries defined before are
    untouched. *)
Theorem DefineSafepoint_keeps_debug_checks (entries_ : Entries)
    (pc_offset_for_safepoint : Z) :
  Emit_debug_checks entries_ = true ->
  0 <= pc_offset_for_safepoint ->
  Forall (fun e => pc e < pc_offset_for_safepoint /\
                   (trampoline e = kNoTrampolinePC \/
                    pc_offset_for_safepoint < trampoline e)) entries_ ->
  let entries' := (DefineSafepoint entries_ pc_offset_for_safepoint).1 in
  let handle := (DefineSafepoint entries_ pc_offset_for_safepoint).2 in
  Emit_debug_checks entries' = true /\
  entries' !! handle = Some (EntryBuilder_new pc_offset_for_safepoint) /\
  forall i, (i < handle)%nat -> entries' !! i = entries_ !! i.
Proof.
  intros Hchecks Hp Hall. unfold DefineSafepoint. cbn [fst snd].
  split; [|split].
  - unfold Emit_debug_checks in *. rewrite last_snoc. cbn [from_option].
    change (pc (EntryBuilder_new pc_offset_for_safepoint))
      with pc_offset_for_safepoint.
    eapply debug_loop_push; [exact Hchecks | exact Hall | lia].
  - rewrite lookup_app_r by lia. rewrite Nat.sub_diag. reflexivity.
  - intros i Hi. apply lookup_app_l. exact Hi.
Qed.

Lemma DefineSafepoint_keeps_debug_checks_witness :
  Emit_debug_checks (DefineSafepoint [EntryBuilder_new 10; EntryBuilder_new 20] 30).1
  = true.
Proof.
  apply (DefineSafepoint_keeps_debug_checks
           [EntryBuilder_new 10; EntryBuilder_new 20] 30).
  - reflexivity.
  - lia.
  - repeat constructor; simpl; lia.
Defined.

(** ** The lookups: totality, first match, agreement *)

Section LookupTotality.
Variable length : Z.
Variable get_entry : Z -> SafepointEntry.

Lemma pc_scan_returns pc_offset : forall n j,
  0 <= j -> j + Z.of_nat n = length -> (0 < n)%nat ->
  exists i, j <= i < length /\
    pc_scan length get_entry pc_offset n j = Some (get_entry i).
Proof.
  induction n as [|n IH]; intros j Hj Hlen Hn; [lia|].
  cbn [pc_scan].
  destruct (Z.eqb_spec j (length - 1)) as [Hlast | Hnot]; cbn [orb].
  - exists j. split; [lia | reflexivity].
  - destruct (pc_ (get_entry (j + 1)) >? pc_offset).
    + exists j. split; [lia | reflexivity].
    + destruct (IH (j + 1)) as (i & Hi & Hscan); try lia.
      exists i. split; [lia | exact Hscan].
Qed.

Lemma trampoline_scan_in_range pc_offset : forall n i candidate,
  0 <= i -> i + Z.of_nat n = length ->
  candidate = -1 \/ 0 <= candidate < length ->
  trampoline_scan get_entry pc_offset n i candidate = -1 \/
  0 <= trampoline_scan get_entry pc_offset n i candidate < length.
Proof.
  induction n as [|n IH]; intros i candidate Hi Hlen Hc; [exact Hc|].
  cbn [trampoline_scan].
  destruct (negb (trampoline_pc_ (get_entry i) =? -1) &&
            (trampoline_pc_ (get_entry i) <=? pc_offset));
    destruct (trampoline_pc_ (get_entry i) >? pc_offset);
    try (apply IH; lia); (exact Hc || right; lia).
Qed.

Lemma return_pc_scan_first pc_offset c :
  0 <= c < length ->
  (trampoline_pc_ (get_entry c) = pc_offset \/ pc_ (get_entry c) = pc_offset) ->
  forall n j, 0 <= j <= c -> j + Z.of_nat n = length ->
  (forall i, j <= i < c ->
     trampoline_pc_ (get_entry i) <> pc_offset /\ pc_ (get_entry i) <> pc_offset) ->
  return_pc_scan get_entry pc_offset n j = Some (pc_ (get_entry c)).
Proof.
  intros Hc Hmatch. induction n as [|n IH]; intros j Hj Hlen Hfirst; [lia|].
  cbn [return_pc_scan]. destruct (Z.eq_dec j c) as [-> | Hne].
  - destruct Hmatch as [-> | ->]; rewrite Z.eqb_refl, ?orb_true_r; reflexivity.
  - destruct (Hfirst j ltac:(lia)) as [Ht Hp].
    apply Z.eqb_neq in Ht, Hp. rewrite Ht, Hp. cbn [orb].
    apply IH; [lia | lia |]. intros i Hi. apply Hfirst. lia.
Qed.

Lemma return_pc_scan_spec pc_offset : forall n j,
  0 <= j -> j + Z.of_nat n = length ->
  match return_pc_scan get_entry pc_offset n j with
  | Some p =>
      exists i, j <= i < length /\
        (trampoline_pc_ (get_entry i) = pc_offset \/
         pc_ (get_entry i) = pc_offset) /\
        p = pc_ (get_entry i) /\
        forall k, j <= k < i ->
          trampoline_pc_ (get_entry k) <> pc_offset /\
          pc_ (get_entry k) <> pc_offset
  | None =>
      forall k, j <= k < length ->
        trampoline_pc_ (get_entry k) <> pc_offset /\
        pc_ (get_entry k) <> pc_offset
  end.
Proof.
  induction n as [|n IH]; intros j Hj Hlen; cbn [return_pc_scan].
  - intros k Hk. lia.
  - destruct (Z.eqb_spec (trampoline_pc_ (get_entry j)) pc_offset) as [Ht | Ht];
      [|destruct (Z.eqb_spec (pc_ (get_entry j)) pc_offset) as [Hp | Hp]];
      cbn [orb].
    + exists j. split; [lia|]. split; [left; exact Ht|].
      split; [reflexivity|]. intros; lia.
    + exists j. split; [lia|]. split; [right; exact Hp|].
      split; [reflexivity|]. intros; lia.
    + specialize (IH (j + 1) ltac:(lia) ltac:(lia)).
      destruct (return_pc_scan get_entry pc_offset n (j + 1)) as [p|].
      * destruct IH as (i & Hi & Hm & -> & Hfirst).
        exists i. split; [lia|]. split; [exact Hm|]. split; [reflexivity|].
        intros k Hk. destruct (Z.eq_dec k j) as [-> | Hne]; [tauto|].
        apply Hfirst. lia.
      * intros k Hk. destruct (Z.eq_dec k j) as [-> | Hne]; [tauto|].
        apply IH. lia.
Qed.

Lemma trampoline_scan_at_trampoline c :
  0 <= c < length ->
  trampoline_pc_ (get_entry c) <> -1 ->
  (forall j, 0 <= j < length -> -1 <= trampoline_pc_ (get_entry j)) ->
  (forall a b, 0 <= a -> a < b -> b < length ->
     trampoline_pc_ (get_entry a) <> -1 -> trampoline_pc_ (get_entry b) <> -1 ->
     trampoline_pc_ (get_entry a) < trampoline_pc_ (get_entry b)) ->
  forall n i candidate, 0 <= i -> i + Z.of_nat n = length ->
  i <= c \/ candidate = c ->
  trampoline_scan get_entry (trampoline_pc_ (get_entry c)) n i candidate = c.
Proof.
  intros Hc Hdef Hlow Hinc.
  induction n as [|n IH]; intros i candidate Hi Hlen Hor; cbn [trampoline_scan].
  - lia.
  - pose proof (Hlow c Hc) as Hlc. pose proof (Hlow i ltac:(lia)) as Hli.
    destruct (Z.eqb_spec (trampoline_pc_ (get_entry i)) (-1)) as [Hnone | Hsome];
      cbn [negb andb].
    + rewrite Hnone.
      destruct (Z.gtb_spec (-1) (trampoline_pc_ (get_entry c))); [lia|].
      apply IH; [lia | lia |].
      destruct Hor as [Hle | ->]; [|right; reflexivity].
      left. assert (i <> c) by congruence. lia.
    + destruct (Z.lt_trichotomy i c) as [Hlt | [-> | Hgt]].
      * pose proof (Hinc i c ltac:(lia) Hlt ltac:(lia) Hsome Hdef) as Hic.
        destruct (Z.leb_spec (trampoline_pc_ (get_entry i))
                             (trampoline_pc_ (get_entry c))); [|lia].
        destruct (Z.gtb_spec (trampoline_pc_ (get_entry i))
                             (trampoline_pc_ (get_entry c))); [lia|].
        apply IH; [lia | lia | left; lia].
      * rewrite Z.leb_refl.
        destruct (Z.gtb_spec (trampoline_pc_ (get_entry c))
                             (trampoline_pc_ (get_entry c))); [lia|].
        apply IH; [lia | lia | right; reflexivity].
      * pose proof (Hinc c i ltac:(lia) Hgt ltac:(lia) Hdef Hsome) as Hci.
        destruct Hor as [Hle | ->]; [lia|].
        destruct (Z.leb_spec (trampoline_pc_ (get_entry i))
                             (trampoline_pc_ (get_entry c))); [lia|].
        destruct (Z.gtb_spec (trampoline_pc_ (get_entry i))
                             (trampoline_pc_ (get_entry c))); [reflexivity | lia].
Qed.
End LookupTotality.

(** X16.  [FindEntry] reaches [UNREACHABLE] only on a table without
    entries: for a positive entry count it always returns [GetEntry(i)]
    for some position [i] of the table, whatever the offset (also one
    below the first pc, for which the [DCHECK_LE] of the loop would fire
    in a debug build). *)
Theorem FindEntry_unreachable_iff_empty (instruction_start length : Z)
    (has_deopt : bool) (get_entry : Z -> SafepointEntry) (pc : Z) :
  (FindEntry_generic instruction_start length has_deopt get_entry pc = None
   <-> length <= 0) /\
  forall entry,
    FindEntry_generic instruction_start length has_deopt get_entry pc
      = Some entry ->
    exists i, 0 <= i < length /\ entry = get_entry i.
Proof.
  unfold FindEntry_generic, find_entry_at.
  set (o := to_int (pc - instruction_start)).
  destruct (Z_le_gt_dec length 0) as [Hempty | Hpos].
  - replace (Z.to_nat length) with 0%nat by lia.
    cbn [trampoline_scan pc_scan]. change (negb (-1 =? -1)) with false.
    cbn match. split.
    + destruct has_deopt; split; (reflexivity || intros; exact Hempty).
    + intros entry H. destruct has_deopt; discriminate.
  - destruct (pc_scan_returns length get_entry o (Z.to_nat length) 0)
      as (i & Hi & Hscan); try lia.
    pose proof (trampoline_scan_in_range length get_entry o
                  (Z.to_nat length) 0 (-1) ltac:(lia) ltac:(lia)
                  ltac:(left; reflexivity)) as Hcand.
    set (candidate := trampoline_scan get_entry o (Z.to_nat length) 0 (-1)) in *.
    assert (Hres : exists i',
      0 <= i' < length /\
      (if has_deopt
       then if negb (candidate =? -1) then Some (get_entry candidate)
            else pc_scan length get_entry o (Z.to_nat length) 0
       else pc_scan length get_entry o (Z.to_nat length) 0)
      = Some (get_entry i')).
    { destruct has_deopt; [|exists i; split; [lia | exact Hscan]].
      destruct (Z.eqb_spec candidate (-1)) as [Hc | Hc]; cbn [negb].
      - exists i. split; [lia | exact Hscan].
      - exists candidate. split; [lia | reflexivity]. }
    destruct Hres as (i' & Hi' & ->). split.
    + split; [discriminate | lia].
    + intros entry [= <-]. exists i'. split; [exact Hi' | reflexivity].
Qed.

(** X17.  [find_return_pc] returns the pc of the first entry whose
    trampoline or pc equals the offset, and reaches [UNREACHABLE] exactly
    when no entry of the table has that trampoline or that pc. *)
Theorem find_return_pc_first_match (length : Z)
    (get_entry : Z -> SafepointEntry) (pc_offset : Z) :
  match find_return_pc_generic length get_entry pc_offset with
  | Some p =>
      exists i, 0 <= i < length /\
        (trampoline_pc_ (get_entry i) = pc_offset \/
         pc_ (get_entry i) = pc_offset) /\
        p = pc_ (get_entry i) /\
        forall k, 0 <= k < i ->
          trampoline_pc_ (get_entry k) <> pc_offset /\
          pc_ (get_entry k) <> pc_offset
  | None =>
      forall k, 0 <= k < length ->
        trampoline_pc_ (get_entry k) <> pc_offset /\
        pc_ (get_entry k) <> pc_offset
  end.
Proof.
  unfold find_return_pc_generic.
  destruct (Z_le_gt_dec length 0) as [Hempty | Hpos].
  - replace (Z.to_nat length) with 0%nat by lia. cbn [return_pc_scan].
    intros k Hk. lia.
  - apply return_pc_scan_spec; lia.
Qed.

(** X18.  On a table that satisfies what the builder's DEBUG block
    checks (pcs increasing and not negative, trampolines increasing and
    above every pc, no trampoline in a table without deopt data), the two
    lookups agree on the offsets [find_return_pc] is meant for: at the pc
    of an entry and at its trampoline [FindEntry] returns that entry and
    [find_return_pc] returns its pc. *)
Theorem lookups_agree_at_pc_and_trampoline (instruction_start length : Z)
    (has_deopt : bool) (get_entry : Z -> SafepointEntry) (c o : Z) :
  pcs_increasing length get_entry ->
  (forall j, 0 <= j < length -> 0 <= pc_ (get_entry j)) ->
  (forall j, 0 <= j < length ->
     trampoline_pc_ (get_entry j) = -1 \/
     forall i, 0 <= i < length -> pc_ (get_entry i) < trampoline_pc_ (get_entry j)) ->
  (forall a b, 0 <= a -> a < b -> b < length ->
     trampoline_pc_ (get_entry a) <> -1 -> trampoline_pc_ (get_entry b) <> -1 ->
     trampoline_pc_ (get_entry a) < trampoline_pc_ (get_entry b)) ->
  (has_deopt = false ->
   forall j, 0 <= j < length -> trampoline_pc_ (get_entry j) = -1) ->
  0 <= c < length ->
  int_min <= o <= int_max ->
  o = pc_ (get_entry c) \/ (o = trampoline_pc_ (get_entry c) /\ o <> -1) ->
  FindEntry_generic instruction_start length has_deopt get_entry
    (instruction_start + o) = Some (get_entry c) /\
  find_return_pc_generic length get_entry o = Some (pc_ (get_entry c)).
Proof.
  intros Hinc Hpos Habove Htinc Hflag Hc Ho Hor.
  unfold FindEntry_generic. rewrite to_int_offset by exact Ho.
  assert (Hlow : forall j, 0 <= j < length -> -1 <= trampoline_pc_ (get_entry j)).
  { intros j Hj. destruct (Habove j Hj) as [-> | Hall]; [lia|].
    pose proof (Hall j Hj). pose proof (Hpos j Hj). lia. }
  destruct Hor as [-> | [-> Hdef]].
  - split.
    + apply find_entry_at_covering; try assumption; [lia | |].
      * destruct (Z.eq_dec c (length - 1)) as [-> | Hne]; [left; reflexivity|].
        right. apply Hinc; lia.
      * intros j Hj. destruct (Habove j Hj) as [Hnone | Hall];
          [left; exact Hnone | right; apply Hall; exact Hc].
    + unfold find_return_pc_generic.
      apply (return_pc_scan_first length get_entry _ c Hc);
        [right; reflexivity | lia | lia |].
      intros i Hi. split.
      * destruct (Habove i ltac:(lia)) as [Hnone | Hall].
        -- rewrite Hnone. pose proof (Hpos c Hc). lia.
        -- pose proof (Hall c Hc). lia.
      * pose proof (Hinc i c ltac:(lia) ltac:(lia) ltac:(lia)). lia.
  - assert (Hd : has_deopt = true).
    { destruct has_deopt; [reflexivity|].
      exfalso. apply Hdef, Hflag; [reflexivity | exact Hc]. }
    split.
    + unfold find_entry_at. rewrite Hd.
      rewrite (trampoline_scan_at_trampoline length get_entry c Hc Hdef Hlow Htinc)
        by (lia || (left; lia)).
      destruct (Z.eqb_spec c (-1)); [lia | reflexivity].
    + unfold find_return_pc_generic.
      apply (return_pc_scan_first length get_entry _ c Hc);
        [left; reflexivity | lia | lia |].
      intros i Hi. split.
      * destruct (Z.eq_dec (trampoline_pc_ (get_entry i)) (-1)) as [Hnone | Hsome];
          [congruence|].
        pose proof (Htinc i c ltac:(lia) ltac:(lia) ltac:(lia) Hsome Hdef). lia.
      * destruct (Habove c Hc) as [Hnone | Hall]; [contradiction|].
        pose proof (Hall i ltac:(lia)). lia.
Qed.

Lemma lookups_agree_at_pc_and_trampoline_witness :
  FindEntry_generic 4096 3 true (entry_of_list trampoline_table) (4096 + 1000)
    = Some (entry_of_list trampoline_table 1) /\
  find_return_pc_generic 3 (entry_of_list trampoline_table) 1000
    = Some (pc_ (entry_of_list trampoline_table 1)).
Proof.
  apply (lookups_agree_at_pc_and_trampoline 4096 3 true
           (entry_of_list trampoline_table) 1 1000).
  - intros a b Ha Hab Hb.
    assert ((a = 0 /\ (b = 1 \/ b = 2)) \/ (a = 1 /\ b = 2))
      as [[-> [-> | ->]] | [-> ->]] by lia; vm_compute; reflexivity.
  - intros j Hj. assert (j = 0 \/ j = 1 \/ j = 2) as [-> | [-> | ->]] by lia;
      vm_compute; discriminate.
  - intros j Hj. assert (j = 0 \/ j = 1 \/ j = 2) as [-> | [-> | ->]] by lia;
      [left; reflexivity | right | left; reflexivity].
    intros i Hi. assert (i = 0 \/ i = 1 \/ i = 2) as [-> | [-> | ->]] by lia;
      vm_compute; reflexivity.
  - intros a b Ha Hab Hb.
    assert ((a = 0 /\ (b = 1 \/ b = 2)) \/ (a = 1 /\ b = 2))
      as [[-> [-> | ->]] | [-> ->]] by lia; vm_compute; congruence.
  - discriminate.
  - lia.
  - vm_compute. split; discriminate.
  - right. vm_compute. split; [reflexivity | discriminate].
Defined.

(** ** Print *)

Lemma land_shiftr_1 a n : 0 <= n -> Z.land (Z.shiftr a n) 1 = Z.b2z (Z.testbit a n).
Proof.
  intros Hn. change 1 with (Z.ones 1). rewrite Z.land_ones by lia.
  rewrite Z.shiftr_div_pow2 by lia. change (2 ^ 1) with 2.
  symmetry. apply Z.testbit_spec'. exact Hn.
Qed.

Lemma print_byte_bits_spec bits : forall n bit, 0 <= bit ->
  exists digits,
    length digits = n /\
    (forall k, (k < n)%nat ->
       digits !! k = Some (Z.b2z (Z.testbit bits (bit + Z.of_nat k)))) /\
    forall os,
      written (print_byte_bits n bit bits os) =
        written os ++ map (Number (hex_base os) 0) digits /\
      hex_base (print_byte_bits n bit bits os) = hex_base os.
Proof.
  induction n as [|n IH]; intros bit Hbit.
  - exists []. split; [reflexivity|]. split; [intros; lia|].
    intros os. cbn. rewrite app_nil_r. split; reflexivity.
  - destruct (IH (bit + 1) ltac:(lia)) as (digits & Hlen & Hdig & Hos).
    exists (Z.b2z (Z.testbit bits bit) :: digits).
    split; [cbn; lia|]. split.
    + intros [|k] Hk; cbn [lookup list_lookup].
      * rewrite Z.add_0_r. reflexivity.
      * change (list_lookup k digits) with (digits !! k).
        rewrite Hdig by lia. do 3 f_equal. lia.
    + intros os. cbn [print_byte_bits].
      destruct (Hos (put_number os 0 (Z.land (Z.shiftr bits bit) 1))) as [-> ->].
      cbn [put_number written hex_base map].
      rewrite land_shiftr_1 by exact Hbit. rewrite <- app_assoc.
      split; reflexivity.
Qed.

Lemma bitmap_bit_cons_low b rest p :
  0 <= p < 8 -> bitmap_bit (b :: rest) p = Z.testbit b p.
Proof.
  intros Hp. unfold bitmap_bit.
  rewrite Z.div_small, Z.mod_small by lia.
  destruct (Z.leb_spec 0 p); [reflexivity | lia].
Qed.

Lemma bitmap_bit_cons_high b rest p :
  8 <= p -> bitmap_bit (b :: rest) p = bitmap_bit rest (p - 8).
Proof.
  intros Hp. unfold bitmap_bit.
  replace p with ((p - 8) + 1 * 8) at 2 3 by lia.
  rewrite Z.div_add, Z_mod_plus_full by lia.
  rewrite Z2Nat.inj_add by (try apply Z.div_pos; lia).
  replace (Z.to_nat ((p - 8) / 8) + Z.to_nat 1)%nat
    with (S (Z.to_nat ((p - 8) / 8))) by lia.
  cbn [lookup list_lookup].
  destruct (Z.leb_spec 0 p); destruct (Z.leb_spec 0 (p - 8)); (reflexivity || lia).
Qed.

Lemma print_slots_spec : forall tagged_slots,
  exists digits,
    Z.of_nat (length digits) = 8 * Z.of_nat (length tagged_slots) /\
    (forall p, 0 <= p < 8 * Z.of_nat (length tagged_slots) ->
       digits !! Z.to_nat p = Some (Z.b2z (bitmap_bit tagged_slots p))) /\
    forall os,
      written (print_slots tagged_slots os) =
        written os ++ map (Number (hex_base os) 0) digits /\
      hex_base (print_slots tagged_slots os) = hex_base os.
Proof.
  induction tagged_slots as [|b rest IH].
  - exists []. split; [reflexivity|]. split; [cbn; intros; lia|].
    intros os. cbn. rewrite app_nil_r. split; reflexivity.
  - destruct IH as (digits & Hlen & Hdig & Hos).
    destruct (print_byte_bits_spec b 8 0 ltac:(lia)) as (d8 & Hlen8 & Hdig8 & Hos8).
    exists (d8 ++ digits). split; [|split].
    + rewrite length_app. cbn [length]. lia.
    + intros p Hp. destruct (Z_lt_ge_dec p 8) as [Hlow | Hhigh].
      * rewrite lookup_app_l by lia. rewrite Hdig8 by lia.
        rewrite Z2Nat.id, bitmap_bit_cons_low by lia. reflexivity.
      * rewrite lookup_app_r by lia. rewrite Hlen8.
        replace (Z.to_nat p - 8)%nat with (Z.to_nat (p - 8)) by lia.
        rewrite Hdig by (cbn [length] in Hp; lia).
        rewrite bitmap_bit_cons_high by lia. reflexivity.
    + intros os. unfold print_slots. cbn [fold_left].
      change (fold_left _ rest ?o) with (print_slots rest o).
      destruct (Hos (print_byte_bits (Z.to_nat kBitsPerByte) 0 b os)) as [-> ->].
      change (Z.to_nat kBitsPerByte) with 8%nat.
      destruct (Hos8 os) as [-> ->].
      rewrite map_app, app_assoc. split; reflexivity.
Qed.

Lemma mod_pow2_succ r n :
  0 <= n -> r mod 2 ^ (n + 1) = Z.b2z (Z.testbit r n) * 2 ^ n + r mod 2 ^ n.
Proof.
  intros Hn. rewrite Z.pow_add_r by lia. change (2 ^ 1) with 2.
  rewrite Z.rem_mul_r by (try apply Z.pow_nonzero; lia).
  rewrite Z.testbit_spec' by exact Hn. lia.
Qed.

Lemma print_register_bits_spec r : forall n,
  exists digits,
    length digits = n /\
    (forall k, (k < n)%nat ->
       digits !! k = Some (Z.b2z (Z.testbit r (Z.of_nat (n - 1 - k))))) /\
    (forall acc, fold_left (fun acc d => 2 * acc + d) digits acc =
                 acc * 2 ^ Z.of_nat n + r mod 2 ^ Z.of_nat n) /\
    forall os,
      written (print_register_bits n r os) =
        written os ++ map (Number (hex_base os) 0) digits /\
      hex_base (print_register_bits n r os) = hex_base os.
Proof.
  induction n as [|n IH].
  - exists []. split; [reflexivity|]. split; [intros; lia|]. split.
    + intros acc. cbn. rewrite Z.mod_1_r. lia.
    + intros os. cbn. rewrite app_nil_r. split; reflexivity.
  - destruct IH as (digits & Hlen & Hdig & Hval & Hos).
    exists (Z.b2z (Z.testbit r (Z.of_nat n)) :: digits).
    split; [cbn; lia|]. split; [|split].
    + intros [|k] Hk; cbn [lookup list_lookup].
      * do 3 f_equal. lia.
      * change (list_lookup k digits) with (digits !! k).
        rewrite Hdig by lia. do 4 f_equal. lia.
    + intros acc. cbn [fold_left]. rewrite Hval.
      rewrite Nat2Z.inj_succ, <- Z.add_1_r.
      rewrite (mod_pow2_succ r (Z.of_nat n)) by lia.
      rewrite Z.pow_add_r by lia. lia.
    + intros os. cbn [print_register_bits].
      destruct (Hos (put_number os 0
                  (Z.land (Z.shiftr r (Z.of_nat n)) 1))) as [-> ->].
      cbn [put_number written hex_base map].
      rewrite land_shiftr_1 by lia. rewrite <- app_assoc.
      split; reflexivity.
Qed.

(** X19.  The register string of [Print]: for a non-zero mask the loop
    writes one binary digit per bit from the highest set bit down to bit
    0, so the string has no leading zero and reads, as a binary number,
    the mask itself. *)
Theorem Print_register_digits (register_bits : Z) :
  0 < register_bits < 2 ^ 32 ->
  let bits := 32 - CountLeadingZeros32 register_bits in
  exists digits,
    Z.of_nat (length digits) = Z.log2 register_bits + 1 /\
    head digits = Some 1 /\
    (forall k, 0 <= k <= Z.log2 register_bits ->
       digits !! Z.to_nat k =
       Some (Z.b2z (Z.testbit register_bits (Z.log2 register_bits - k)))) /\
    binary_value digits = register_bits /\
    forall os,
      written (print_register_bits (Z.to_nat bits) register_bits os) =
        written os ++ map (Number (hex_base os) 0) digits /\
      hex_base (print_register_bits (Z.to_nat bits) register_bits os) =
        hex_base os.
Proof.
  intros Hr bits. subst bits. unfold CountLeadingZeros32.
  destruct (Z.eqb_spec register_bits 0) as [Hz | _]; [lia|].
  pose proof (Z.log2_nonneg register_bits) as Hlog.
  replace (32 - (31 - Z.log2 register_bits)) with (Z.log2 register_bits + 1)
    by lia.
  destruct (print_register_bits_spec register_bits
              (Z.to_nat (Z.log2 register_bits + 1)))
    as (digits & Hlen & Hdig & Hval & Hos).
  exists digits. split; [lia|]. split; [|split; [|split]].
  - rewrite head_lookup, Hdig by lia. do 2 f_equal.
    replace (Z.of_nat (Z.to_nat (Z.log2 register_bits + 1) - 1 - 0))
      with (Z.log2 register_bits) by lia.
    rewrite Z.bit_log2 by lia. reflexivity.
  - intros k Hk. rewrite Hdig by lia. do 3 f_equal. lia.
  - unfold binary_value. rewrite Hval. rewrite Z2Nat.id by lia.
    pose proof (Z.log2_spec register_bits ltac:(lia)) as Hspec.
    replace (Z.succ (Z.log2 register_bits)) with (Z.log2 register_bits + 1)
      in Hspec by lia.
    rewrite Z.mod_small by lia. lia.
  - exact Hos.
Qed.

Lemma Print_register_digits_witness :
  exists digits, binary_value digits = 6 /\ head digits = Some 1 /\
                 Z.of_nat (length digits) = 3.
Proof.
  destruct (Print_register_digits 6) as (digits & Hlen & Hhead & _ & Hval & _).
  - lia.
  - exists digits. split; [exact Hval|]. split; [exact Hhead | exact Hlen].
Defined.

(** X20.  The slot string of [Print] for a bitmap written by [Emit]:
    eight binary digits per bitmap byte, and slot [s] of the tagged region
    shows at position [tagged_slots_size - 1 - s], as 1 when the entry
    tags the slot and as 0 otherwise; the positions from
    [tagged_slots_size] on are padding and show 0. *)
Theorem Print_slot_digits (s : FieldSizes) (tagged_slots_size : Z)
    (e : EntryBuilder) :
  Forall (fun idx => 0 <= idx < tagged_slots_size) (stack_indexes e) ->
  0 <= tagged_slots_size <= int_max ->
  0 <= tagged_slots_bytes s ->
  tagged_slots_size <= 8 * tagged_slots_bytes s ->
  exists digits,
    Z.of_nat (length digits) = 8 * tagged_slots_bytes s /\
    (forall slot, 0 <= slot < tagged_slots_size ->
       digits !! Z.to_nat (tagged_slots_size - 1 - slot) =
       Some (Z.b2z (existsb (Z.eqb slot) (stack_indexes e)))) /\
    (forall p, tagged_slots_size <= p < 8 * tagged_slots_bytes s ->
       digits !! Z.to_nat p = Some 0) /\
    forall os,
      written (print_slots (emit_bitmap s tagged_slots_size e) os) =
        written os ++ map (Number (hex_base os) 0) digits /\
      hex_base (print_slots (emit_bitmap s tagged_slots_size e) os) =
        hex_base os.
Proof.
  intros Hrange Hmax Hbytes Hsize.
  destruct (print_slots_spec (emit_bitmap s tagged_slots_size e))
    as (digits & Hlen & Hdig & Hos).
  rewrite emit_bitmap_length, Z2Nat.id in Hlen, Hdig by exact Hbytes.
  assert (Hbit : forall index, 0 <= index ->
            bitmap_bit (emit_bitmap s tagged_slots_size e) index =
            existsb (fun idx => index =? tagged_slots_size - 1 - idx)
                    (stack_indexes e)).
  { intros index Hindex. apply emit_bitmap_bit; (assumption || lia). }
  exists digits. split; [exact Hlen|]. split; [|split; [|exact Hos]].
  - intros slot Hslot. rewrite Hdig, Hbit by lia. do 2 f_equal.
    clear. induction (stack_indexes e) as [|idx l IH]; [reflexivity|].
    cbn [existsb]. rewrite IH. f_equal.
    destruct (Z.eqb_spec (tagged_slots_size - 1 - slot)
                         (tagged_slots_size - 1 - idx));
      destruct (Z.eqb_spec slot idx); (reflexivity || lia).
  - intros p Hp. rewrite Hdig, Hbit by lia. do 2 f_equal.
    change 0 with (Z.b2z false). f_equal. clear Hbit Hdig Hos.
    induction (stack_indexes e) as [|idx l IH]; [reflexivity|].
    apply Forall_cons in Hrange as [Hidx Hrange].
    cbn [existsb]. rewrite (IH Hrange).
    destruct (Z.eqb_spec p (tagged_slots_size - 1 - idx)); [lia | reflexivity].
Qed.

Lemma Print_slot_digits_witness :
  exists digits,
    Z.of_nat (length digits) = 8 * 1 /\
    forall slot, 0 <= slot < 3 ->
      digits !! Z.to_nat (3 - 1 - slot) =
      Some (Z.b2z (existsb (Z.eqb slot) [0; 2])).
Proof.
  destruct (Print_slot_digits (MkFieldSizes false 0 1 0 1) 3
              (MkEntryBuilder 0 (-1) (-1) [0; 2] 0))
    as (digits & Hlen & Hdig & _).
  - repeat constructor; lia.
  - unfold int_max. lia.
  - simpl. lia.
  - simpl. lia.
  - exists digits. split; [exact Hlen | exact Hdig].
Defined.

Lemma print_entry_effect instruction_start entry :
  exists items, forall os,
    written (print_entry instruction_start entry os) = written os ++ items /\
    hex_base (print_entry instruction_start entry os) =
      has_deoptimization_index entry.
Proof.
  destruct (print_slots_spec (tagged_slots_ entry)) as (ds & _ & _ & Hslots).
  destruct (print_register_bits_spec (to_uint32 (tagged_register_indexes_ entry))
              (Z.to_nat (32 - CountLeadingZeros32
                                (to_uint32 (tagged_register_indexes_ entry)))))
    as (dr & _ & _ & _ & Hregs).
  exists ([Pointer (instruction_start + pc_ entry); Text " ";
           Number true 6 (pc_ entry)] ++
          match tagged_slots_ entry with
          | [] => []
          | _ :: _ => Text "  slots (sp->fp): " :: map (Number false 0) ds
          end ++
          (if negb (tagged_register_indexes_ entry =? 0)
           then Text "  registers: " :: map (Number false 0) dr else []) ++
          (if has_deoptimization_index entry
           then [Text "  deopt "; Number false 6 (deopt_index_ entry);
                 Text " trampoline: "; Number true 6 (trampoline_pc_ entry)]
           else []) ++
          [Text newline]).
  intros os. unfold print_entry.
  set (os1 := set_hex (put_number (set_hex (put_text (put_pointer os _) " ")
                                           true) 6 (pc_ entry)) false).
  assert (H1 : written os1 = written os ++
                 [Pointer (instruction_start + pc_ entry); Text " ";
                  Number true 6 (pc_ entry)] /\ hex_base os1 = false).
  { subst os1. cbn. rewrite <- !app_assoc. split; reflexivity. }
  clearbody os1. destruct H1 as [Hw1 Hb1].
  set (os2 := match tagged_slots_ entry with
              | [] => os1
              | _ :: _ => print_slots (tagged_slots_ entry)
                            (put_text os1 "  slots (sp->fp): ")
              end).
  assert (H2 : written os2 = written os1 ++
                 match tagged_slots_ entry with
                 | [] => []
                 | _ :: _ => Text "  slots (sp->fp): " :: map (Number false 0) ds
                 end /\ hex_base os2 = false).
  { subst os2. destruct (tagged_slots_ entry) eqn:Hts.
    - rewrite app_nil_r. split; [reflexivity | exact Hb1].
    - destruct (Hslots (put_text os1 "  slots (sp->fp): ")) as [-> ->].
      cbn [put_text written hex_base]. rewrite Hb1, <- app_assoc.
      split; reflexivity. }
  clearbody os2. destruct H2 as [Hw2 Hb2].
  set (os3 := if negb (tagged_register_indexes_ entry =? 0)
              then print_register_bits _ _ (put_text os2 "  registers: ")
              else os2).
  assert (H3 : written os3 = written os2 ++
                 (if negb (tagged_register_indexes_ entry =? 0)
                  then Text "  registers: " :: map (Number false 0) dr else [])
               /\ hex_base os3 = false).
  { subst os3. destruct (negb (tagged_register_indexes_ entry =? 0)).
    - destruct (Hregs (put_text os2 "  registers: ")) as [-> ->].
      cbn [put_text written hex_base]. rewrite Hb2, <- app_assoc.
      split; reflexivity.
    - rewrite app_nil_r. split; [reflexivity | exact Hb2]. }
  clearbody os3. destruct H3 as [Hw3 Hb3].
  destruct (has_deoptimization_index entry);
    cbn [put_text put_number set_hex written hex_base];
    rewrite Hw3, Hw2, Hw1, ?Hb3, <- ?app_assoc; cbn [app];
    split; reflexivity.
Qed.

Lemma print_entries_effect instruction_start get_entry : forall n index,
  exists lines, forall os,
    written (print_entries instruction_start get_entry n index os) =
      written os ++ lines /\
    hex_base (print_entries instruction_start get_entry n index os) =
      match n with
      | O => hex_base os
      | S n' => has_deoptimization_index (get_entry (index + Z.of_nat n'))
      end.
Proof.
  induction n as [|n IH]; intros index.
  - exists []. intros os. cbn. rewrite app_nil_r. split; reflexivity.
  - destruct (print_entry_effect instruction_start (get_entry index))
      as (items & Hitems).
    destruct (IH (index + 1)) as (lines & Hlines).
    exists (items ++ lines). intros os. cbn [print_entries].
    destruct (Hlines (print_entry instruction_start (get_entry index) os))
      as [-> ->].
    destruct (Hitems os) as [-> ->]. rewrite app_assoc.
    split; [reflexivity|].
    destruct n as [|n]; [rewrite Z.add_0_r; reflexivity|].
    do 2 f_equal. lia.
Qed.

(** X21.  What [Print] does to the stream.  It appends the header line
    and then the entry lines; the entry lines are the same whatever the
    base of the stream was, since each line sets the base before its
    first number, and only the two numbers of the header are written in
    the caller's base.  It does not restore the base: after a table with
    entries the stream is left in hexadecimal exactly when the last entry
    carries a deopt index; an empty table leaves the base alone. *)
Theorem Print_stream_effect (instruction_start length byte_size : Z)
    (get_entry : Z -> SafepointEntry) :
  exists lines, forall os,
    written (Print_generic instruction_start length byte_size get_entry os) =
      written os ++ print_header (hex_base os) length byte_size ++ lines /\
    hex_base (Print_generic instruction_start length byte_size get_entry os) =
      (if 0 <? length
       then has_deoptimization_index (get_entry (length - 1))
       else hex_base os).
Proof.
  destruct (print_entries_effect instruction_start get_entry
              (Z.to_nat length) 0) as (lines & Hlines).
  exists lines. intros os. unfold Print_generic.
  match goal with
  | |- context [print_entries _ _ _ _ ?o] => destruct (Hlines o) as [-> ->]
  end.
  cbn [put_text put_number written hex_base]. unfold print_header.
  rewrite <- !app_assoc. cbn [app]. split; [reflexivity|].
  destruct (Z.ltb_spec 0 length) as [Hpos | Hempty].
  - destruct (Z.to_nat length) as [|n] eqn:Hn; [lia|].
    do 2 f_equal. lia.
  - replace (Z.to_nat length) with 0%nat by lia. reflexivity.
Qed.

(** ** The compression passes and the builder's invariants *)

(** X22.  The comparison of [RemoveDuplicates] is an equivalence on
    entries: it is reflexive, symmetric and transitive, so comparing
    every entry with the first entry of its run, as the loop does, is the
    same as comparing it with the entry just before it.  The pc and the
    trampoline do not enter the result (line 263 looks at the trampolines
    in a [DCHECK] only). *)
Theorem is_identical_except_for_pc_equivalence :
  (forall e, is_identical_except_for_pc e e = true) /\
  (forall e1 e2, is_identical_except_for_pc e1 e2 =
                 is_identical_except_for_pc e2 e1) /\
  (forall e1 e2 e3, is_identical_except_for_pc e1 e2 = true ->
                    is_identical_except_for_pc e2 e3 = true ->
                    is_identical_except_for_pc e1 e3 = true) /\
  (forall e1 e2 pc1 trampoline1,
     is_identical_except_for_pc
       (MkEntryBuilder pc1 (deopt_index e1) trampoline1 (stack_indexes e1)
                       (register_indexes e1)) e2 =
     is_identical_except_for_pc e1 e2).
Proof.
  assert (Hsym : forall e1 e2, is_identical_except_for_pc e1 e2 = true ->
                               is_identical_except_for_pc e2 e1 = true).
  { intros e1 e2 H. apply is_identical_except_for_pc_spec in H as (Hd & Hs & Hr).
    apply is_identical_except_for_pc_spec. repeat split; congruence. }
  split; [|split; [|split]].
  - intros e. apply is_identical_except_for_pc_spec. repeat split.
  - intros e1 e2.
    destruct (is_identical_except_for_pc e1 e2) eqn:H12;
      destruct (is_identical_except_for_pc e2 e1) eqn:H21; try reflexivity.
    + apply Hsym in H12. congruence.
    + apply Hsym in H21. congruence.
  - intros e1 e2 e3 H12 H23.
    apply is_identical_except_for_pc_spec in H12 as (Hd & Hs & Hr).
    apply is_identical_except_for_pc_spec in H23 as (Hd' & Hs' & Hr').
    apply is_identical_except_for_pc_spec. repeat split; congruence.
  - intros e1 e2 pc1 trampoline1. reflexivity.
Qed.

Lemma debug_loop_weaken back back' : forall l lp lt lp' lt',
  debug_loop back l lp lt = true ->
  lp' <= lp -> lt' <= lt -> back' <= back ->
  debug_loop back' l lp' lt' = true.
Proof.
  induction l as [|e l IH]; intros lp lt lp' lt' H Hlp Hlt Hback; [reflexivity|].
  apply debug_loop_cons in H as (Hpc & Htr & Hpair & Hrest).
  apply debug_loop_cons. split; [lia|].
  split; [intros Hne; specialize (Htr Hne); lia|]. split; [exact Hpair|].
  eapply IH; [exact Hrest | lia | | exact Hback].
  destruct (negb (trampoline e =? kNoTrampolinePC)); lia.
Qed.

Lemma debug_loop_sublist back (l1 l2 : Entries) :
  sublist l1 l2 -> forall lp lt,
  debug_loop back l2 lp lt = true -> debug_loop back l1 lp lt = true.
Proof.
  induction 1 as [|x l1 l2 Hsub IH|x l1 l2 Hsub IH]; intros lp lt H.
  - reflexivity.
  - apply debug_loop_cons in H as (Hpc & Htr & Hpair & Hrest).
    apply debug_loop_cons. repeat split; try tauto. apply IH, Hrest.
  - apply debug_loop_cons in H as (Hpc & Htr & Hpair & Hrest).
    apply IH. eapply debug_loop_weaken; [exact Hrest | lia | | lia].
    unfold kNoTrampolinePC.
    destruct (Z.eqb_spec (trampoline x) (-1)) as [Hnone | Hsome]; cbn [negb];
      [lia | specialize (Htr Hsome); lia].
Qed.

Lemma debug_loop_shift back m : forall l lp lt,
  debug_loop back (map (shift_entry m) l) lp lt = debug_loop back l lp lt.
Proof.
  induction l as [|e l IH]; intros lp lt; [reflexivity|].
  cbn [map debug_loop shift_entry pc trampoline deopt_index]. rewrite IH.
  reflexivity.
Qed.

Lemma Emit_debug_checks_sublist (l1 l2 : Entries) :
  sublist l1 l2 -> Emit_debug_checks l2 = true -> Emit_debug_checks l1 = true.
Proof.
  intros Hsub H. unfold Emit_debug_checks in *.
  destruct (last l1) as [b1|] eqn:Hlast1.
  - apply (debug_loop_sublist _ l1 l2 Hsub).
    eapply debug_loop_weaken; [exact H | lia | lia |].
    assert (Hin : b1 ∈ l2).
    { eapply elem_of_sublist; [|exact Hsub].
      rewrite last_lookup in Hlast1. eapply list_elem_of_lookup_2, Hlast1. }
    destruct (last l2) as [b2|] eqn:Hlast2.
    + cbn [from_option]. apply debug_loop_spec in H as (Hsorted & _).
      eapply sorted_last_largest; eassumption.
    + apply last_None in Hlast2. subst l2. inversion Hin.
  - apply last_None in Hlast1. subst l1. reflexivity.
Qed.

Lemma Emit_debug_checks_trim es tss :
  Emit_debug_checks (TrimEntries es tss).1 = Emit_debug_checks es.
Proof.
  unfold TrimEntries. destruct (tss =? 0); [reflexivity|].
  destruct (scan_entries es tss) as [m|]; [|reflexivity].
  cbn [fst]. unfold Emit_debug_checks.
  rewrite debug_loop_shift. f_equal.
  change (map (shift_entry m) es) with (shift_entry m <$> es).
  rewrite fmap_last. destruct (last es); reflexivity.
Qed.

Lemma RemoveDuplicates_sublist es : sublist (RemoveDuplicates es) es.
Proof.
  rewrite RemoveDuplicates_collapse_runs.
  destruct es as [|e rest]; cbn [collapse_runs].
  - constructor.
  - apply sublist_skip, collapse_runs_from_sublist.
Qed.

(** X23.  The two compression passes keep what the DEBUG block of
    [Emit] checked: the entries left by [RemoveDuplicates], and those
    [TrimEntries] hands to the serializer, are still ordered by pc, their
    trampolines still increase and lie above the last pc, and trampoline
    and deopt index are still present together. *)
Theorem Emit_debug_checks_survive_compression (entries_ : Entries)
    (tagged_slots_size : Z) :
  Emit_debug_checks entries_ = true ->
  Emit_debug_checks (RemoveDuplicates entries_) = true /\
  Emit_debug_checks (emitted_entries entries_ tagged_slots_size) = true /\
  StronglySorted pc_lt (emitted_entries entries_ tagged_slots_size).
Proof.
  intros H.
  assert (Hkept : Emit_debug_checks (RemoveDuplicates entries_) = true).
  { eapply Emit_debug_checks_sublist; [apply RemoveDuplicates_sublist | exact H]. }
  assert (Hemitted :
    Emit_debug_checks (emitted_entries entries_ tagged_slots_size) = true).
  { unfold emitted_entries. rewrite Emit_debug_checks_trim. exact Hkept. }
  split; [exact Hkept|]. split; [exact Hemitted|].
  apply debug_loop_spec in Hemitted as (Hsorted & _). exact Hsorted.
Qed.

Lemma Emit_debug_checks_survive_compression_witness :
  Emit_debug_checks (RemoveDuplicates (identical_run (-1) (-1) [1; 3] 2)) = true.
Proof.
  apply (Emit_debug_checks_survive_compression (identical_run (-1) (-1) [1; 3] 2) 4).
  reflexivity.
Defined.

(** ** Reading back what Emit wrote *)

(** X24.  Field by field, [GetEntry(k)] on the table written by [Emit]
    gives back the [k]-th entry kept by [RemoveDuplicates]: its pc, its
    deopt index and trampoline (stored plus one, so that -1 reads back as
    -1) and its register mask; the entry reports a deopt index exactly
    when the builder's entry had one. *)
Theorem GetEntry_reads_back_fields (fb : FieldBits) (entries_ : Entries)
    (tagged_slots_size : Z) (bytes : list Z) (instruction_start : Z)
    (k : nat) (h : EntryBuilder) :
  FieldBits_ok fb ->
  Emit_preconditions entries_ tagged_slots_size = true ->
  Emit fb entries_ tagged_slots_size = Some bytes ->
  RemoveDuplicates entries_ !! k = Some h ->
  let entry := GetEntry fb (SafepointTable_new instruction_start bytes)
                        (Z.of_nat k) in
  pc_ entry = pc h /\
  deopt_index_ entry = deopt_index h /\
  trampoline_pc_ entry = trampoline h /\
  tagged_register_indexes_ entry = register_indexes h /\
  has_deoptimization_index entry = negb (deopt_index h =? kNoDeoptIndex) /\
  Z.of_nat (length (tagged_slots_ entry)) =
    table_tagged_slots_bytes fb (SafepointTable_new instruction_start bytes).
Proof.
  intros fb_ok Hpre Hemit Hk entry. subst entry.
  rewrite (GetEntry_pipeline fb fb_ok entries_ tagged_slots_size bytes
             instruction_start Hpre Hemit k h Hk).
  unfold has_deoptimization_index.
  cbn [entry_view pc_ deopt_index_ trampoline_pc_ tagged_register_indexes_
       tagged_slots_ shift_entry pc deopt_index trampoline register_indexes].
  do 5 (split; [reflexivity|]).
  pose proof (emitted_table fb _ _ _ Hemit) as Htable.
  assert (Hlen : Z.of_nat (length (emitted_entries entries_ tagged_slots_size))
                 <= int_max).
  { rewrite entries2_length by exact Hpre. eapply kept_length_bound, Hpre. }
  rewrite (emitted_tagged_slots_bytes fb fb_ok _ _ _ instruction_start
             Htable Hlen).
  rewrite emit_bitmap_length.
  pose proof (emitted_sizes_nonneg fb _ _ _ Htable) as (_ & _ & _ & Hn).
  rewrite Z2Nat.id by exact Hn. reflexivity.
Qed.

Lemma GetEntry_reads_back_fields_witness :
  trampoline_pc_
    (GetEntry wide_bits
       (SafepointTable_new 4096
          [3; 0; 0; 0; 161; 0; 0; 0; 10; 0; 0; 0; 0;
           20; 0; 8; 233; 3; 30; 0; 0; 0; 0]) (Z.of_nat 1)) = 1000.
Proof.
  apply (GetEntry_reads_back_fields wide_bits
           [EntryBuilder_new 10; MkEntryBuilder 20 7 1000 [] 0;
            EntryBuilder_new 30] 0 _ 4096 1 (MkEntryBuilder 20 7 1000 [] 0)).
  - unfold FieldBits_ok. simpl. lia.
  - reflexivity.
  - reflexivity.
  - reflexivity.
Defined.

Lemma debug_loop_trampolines back : forall l lp lt,
  debug_loop back l lp lt = true ->
  (forall a ea, l !! a = Some ea -> trampoline ea <> -1 -> lt < trampoline ea) /\
  (forall a b ea eb, (a < b)%nat -> l !! a = Some ea -> l !! b = Some eb ->
     trampoline ea <> -1 -> trampoline eb <> -1 ->
     trampoline ea < trampoline eb).
Proof.
  induction l as [|e l IH]; intros lp lt H.
  - split; intros; discriminate.
  - apply debug_loop_cons in H as (_ & Htr & _ & Hrest).
    destruct (IH _ _ Hrest) as [IH1 IH2]. unfold kNoTrampolinePC in *.
    split.
    + intros [|a] ea Ha Hne; cbn in Ha.
      * injection Ha as <-. apply Htr, Hne.
      * specialize (IH1 a ea Ha Hne).
        destruct (Z.eqb_spec (trampoline e) (-1)) as [Hnone | Hsome];
          cbn [negb] in IH1; [lia | specialize (Htr Hsome); lia].
    + intros [|a] [|b] ea eb Hab Ha Hb Hnea Hneb; cbn in Ha, Hb; try lia.
      * injection Ha as <-. specialize (IH1 b eb Hb Hneb).
        destruct (Z.eqb_spec (trampoline e) (-1)); [contradiction|].
        exact IH1.
      * apply (IH2 a b ea eb); (assumption || lia).
Qed.

(** X25.  [find_return_pc] on the table written by [Emit]: at the pc of
    an entry kept by [RemoveDuplicates] it returns that pc, at the
    trampoline of a kept entry it returns the entry's pc, and at the pc
    of a safepoint that was merged into an earlier one it reaches
    [UNREACHABLE], no entry of the table having that pc or that
    trampoline. *)
Theorem Emit_find_return_pc (fb : FieldBits) (entries_ : Entries)
    (tagged_slots_size : Z) (bytes : list Z) (instruction_start : Z) :
  FieldBits_ok fb ->
  Emit_preconditions entries_ tagged_slots_size = true ->
  Emit fb entries_ tagged_slots_size = Some bytes ->
  let t := SafepointTable_new instruction_start bytes in
  (forall h, h ∈ RemoveDuplicates entries_ ->
     find_return_pc fb t (pc h) = Some (pc h) /\
     (trampoline h <> kNoTrampolinePC ->
      find_return_pc fb t (trampoline h) = Some (pc h))) /\
  (forall e, e ∈ entries_ ->
     (forall h, h ∈ RemoveDuplicates entries_ -> pc h <> pc e) ->
     find_return_pc fb t (pc e) = None).
Proof.
  intros fb_ok Hpre Hemit t. unfold kNoTrampolinePC.
  pose proof (pipeline_length fb entries_ tagged_slots_size bytes
                instruction_start Hpre Hemit) as Hlength.
  fold t in Hlength.
  destruct (preconditions_spec _ _ Hpre) as (Hchecks & _).
  assert (Hkept : Emit_debug_checks (RemoveDuplicates entries_) = true).
  { eapply Emit_debug_checks_sublist; [apply RemoveDuplicates_sublist|].
    exact Hchecks. }
  pose proof (Emit_debug_checks_spec _ Hkept) as (Hsorted & Hnonneg & Habove & _).
  destruct (debug_loop_trampolines _ _ _ _ Hkept) as [_ Htinc].
  rewrite Forall_forall in Hnonneg, Habove.
  assert (Hget : forall i, 0 <= i < Z.of_nat (length (RemoveDuplicates entries_)) ->
            exists hi, RemoveDuplicates entries_ !! Z.to_nat i = Some hi /\
              pc_ (GetEntry fb t i) = pc hi /\
              trampoline_pc_ (GetEntry fb t i) = trampoline hi).
  { intros i Hi.
    destruct (GetEntry_pipeline_Z fb fb_ok entries_ tagged_slots_size bytes
                instruction_start Hpre Hemit i) as (hi & Hhi & Hentry).
    { fold t. rewrite Hlength. exact Hi. }
    exists hi. fold t in Hentry. rewrite Hentry.
    split; [exact Hhi|]. split; reflexivity. }
  unfold find_return_pc, find_return_pc_generic. rewrite Hlength.
  split.
  - intros h Hh. apply list_elem_of_lookup in Hh as [c Hc].
    pose proof (lookup_lt_Some _ _ _ Hc) as Hclt.
    destruct (Hget (Z.of_nat c) ltac:(lia)) as (hc & Hhc & Hpc & Htr).
    rewrite Nat2Z.id, Hc in Hhc. injection Hhc as <-.
    pose proof (Hnonneg h (list_elem_of_lookup_2 _ _ _ Hc)) as Hh0.
    cbn beta in Hh0.
    set (n := Z.of_nat (length (RemoveDuplicates entries_))).
    split; [|intros Hdef];
      replace (Some (pc h)) with (Some (pc_ (GetEntry fb t (Z.of_nat c))))
        by (rewrite Hpc; reflexivity).
    all: apply (return_pc_scan_first n (GetEntry fb t) _ (Z.of_nat c));
      [subst n; lia | (right; exact Hpc) || (left; exact Htr)
       | lia | subst n; lia | subst n].
    + intros i Hi. destruct (Hget i ltac:(lia)) as (hi & Hhi & Hpci & Htri).
      rewrite Hpci, Htri.
      pose proof (list_elem_of_lookup_2 _ _ _ Hhi) as Hin.
      pose proof (StronglySorted_lookup_lt _ (Z.to_nat i) c hi h Hsorted
                    ltac:(lia) Hhi Hc) as Hlt.
      split; [|lia].
      destruct (Habove hi Hin) as [-> | Hall]; [lia|].
      rewrite Forall_forall in Hall.
      pose proof (Hall h (list_elem_of_lookup_2 _ _ _ Hc)). lia.
    + intros i Hi. destruct (Hget i ltac:(lia)) as (hi & Hhi & Hpci & Htri).
      rewrite Hpci, Htri.
      pose proof (list_elem_of_lookup_2 _ _ _ Hhi) as Hin.
      split.
      * destruct (Z.eq_dec (trampoline hi) (-1)) as [Hnone | Hsome]; [lia|].
        pose proof (Htinc (Z.to_nat i) c hi h ltac:(lia) Hhi Hc Hsome Hdef). lia.
      * destruct (Habove h (list_elem_of_lookup_2 _ _ _ Hc)) as [? | Hall];
          [contradiction|].
        rewrite Forall_forall in Hall. pose proof (Hall hi Hin). lia.
  - intros e He Hgone.
    pose proof (return_pc_scan_spec
                  (Z.of_nat (length (RemoveDuplicates entries_)))
                  (GetEntry fb t) (pc e)
                  (Z.to_nat (Z.of_nat (length (RemoveDuplicates entries_)))) 0
                  ltac:(lia) ltac:(lia)) as Hspec.
    destruct (return_pc_scan _ _ _ _) as [p|]; [|reflexivity].
    exfalso. destruct Hspec as (i & Hi & Hmatch & _).
    destruct (Hget i Hi) as (hi & Hhi & Hpci & Htri).
    pose proof (list_elem_of_lookup_2 _ _ _ Hhi) as Hin.
    rewrite Hpci, Htri in Hmatch. destruct Hmatch as [Ht | Hp].
    + pose proof (pipeline_trampolines fb fb_ok entries_ tagged_slots_size
                    bytes instruction_start Hpre Hemit i e) as Hpt.
      fold t in Hpt. rewrite Hlength, Htri in Hpt.
      specialize (Hpt Hi He).
      destruct (Emit_debug_checks_spec _ Hchecks) as (_ & Hnn & _).
      rewrite Forall_forall in Hnn. specialize (Hnn e He). cbn beta in Hnn.
      lia.
    + exact (Hgone hi Hin Hp).
Qed.

Lemma Emit_find_return_pc_witness :
  find_return_pc wide_bits
    (SafepointTable_new 4096
       [3; 0; 0; 0; 161; 0; 0; 0; 10; 0; 0; 0; 0;
        20; 0; 8; 233; 3; 30; 0; 0; 0; 0]) 1000 = Some 20.
Proof.
  refine (proj2 (proj1 (Emit_find_return_pc wide_bits
           [EntryBuilder_new 10; MkEntryBuilder 20 7 1000 [] 0;
            EntryBuilder_new 30] 0 _ 4096 _ _ _)
           (MkEntryBuilder 20 7 1000 [] 0) _) _).
  - unfold FieldBits_ok. simpl. lia.
  - reflexivity.
  - reflexivity.
  - apply list_elem_of_In. vm_compute. right. left. reflexivity.
  - discriminate.
Defined.
